(** * Waterfall visualizer (frontend/js/app.js): a shallow embedding

    The development follows the source file:

    - [JSNumber]: the numbers the script computes with, a rational or one
      of the three IEEE special values [NaN], [+Infinity] and [-Infinity],
      with the ECMAScript rules for the special values (division by zero,
      the comparisons with [NaN], [Math.min()] of no argument ...) and exact
      results on rationals.
    - [Binary64]: rounding to the nearest double, ties to even, with
      subnormals and overflow to an infinity, and the four operations
      rounded.  [normalizeData], the labels of the chart, the test data and
      the parameters of the start request compute with these.  The colour
      model and the coordinates that [createGeometry] derives from the
      normalized samples compute exactly; the rounding of a coordinate to
      binary32 inside its [Float32Array] and the sign of zero are not
      modelled.
    - [THREE]: the part of the three.js [Color] class the script calls, as
      an interface ([THREE.ColorOps]), and [ThreeR160], a model of release
      r160 of the library.
    - [config], [normalizeData], [getColor], [createGeometry], [addData],
      [onResize]: the methods of [WaterfallVisualizer].  A [THREE.Line] is
      shared between [this.lines], the scene and the array that [forEach]
      walks, so the lines live in a store ([objects]) and the three hold
      identities.
    - [updateLineChart], [on_spectrum_data]: the line chart and the socket
      handler, with exceptions in an error monad.  Of a property of a payload
      the handler tests the truthiness only, so a payload is an object of
      three properties that are falsy, an array, or another truthy value.

    - [addTestData], with [Math.sin] and [Math.random] as parameters, and
      the page ([initialize]): the socket status, the two buttons with their
      [fetch] calls, and the events of a session.

    Left out: [animate], which only reads the scene, and the options of the
    chart.  An array is taken to be short enough for the spread in
    [Math.min(...data)], whose limit is the engine's. *)

From Stdlib Require Import QArith Qcanon Qround Qpower Qabs ZArith Lia Lqa.
From stdpp Require Import base numbers list gmap strings sorting.

(** ** JavaScript numbers *)

Module JSNumber.

Inductive num : Type :=
  | NaN
  | PInf
  | NInf
  | Fin (q : Qc).

#[global] Instance num_eq_dec : EqDecision num.
Proof. solve_decision. Defined.

(** A decimal literal of the source, [dec 0.25]. *)
Definition dec (q : Q) : num := Fin (Q2Qc q).
#[global] Arguments dec q%_Q.

Definition of_Z (z : Z) : num := Fin (Qc_of_Z z).
Definition of_nat (n : nat) : num := of_Z (Z.of_nat n).

Definition is_finite (x : num) : Prop :=
  match x with Fin _ => True | _ => False end.

Definition signed_inf (positive : bool) : num :=
  if positive then PInf else NInf.

(** Unary minus. *)
Definition neg (x : num) : num :=
  match x with
  | NaN => NaN
  | PInf => NInf
  | NInf => PInf
  | Fin a => Fin (- a)%Qc
  end.

(** [x + y] *)
Definition add (x y : num) : num :=
  match x, y with
  | NaN, _ | _, NaN => NaN
  | PInf, NInf | NInf, PInf => NaN
  | PInf, _ | _, PInf => PInf
  | NInf, _ | _, NInf => NInf
  | Fin a, Fin b => Fin (a + b)%Qc
  end.

(** [x - y] *)
Definition sub (x y : num) : num := add x (neg y).

(** [x * y] *)
Definition mul (x y : num) : num :=
  match x, y with
  | NaN, _ | _, NaN => NaN
  | Fin a, Fin b => Fin (a * b)%Qc
  | Fin a, PInf | PInf, Fin a =>
      if decide (a = 0%Qc) then NaN else signed_inf (bool_decide (0 < a)%Qc)
  | Fin a, NInf | NInf, Fin a =>
      if decide (a = 0%Qc) then NaN else signed_inf (bool_decide (a < 0)%Qc)
  | PInf, PInf | NInf, NInf => PInf
  | PInf, NInf | NInf, PInf => NInf
  end.

(** [x / y]; a zero divisor is the positive zero. *)
Definition div (x y : num) : num :=
  match x, y with
  | NaN, _ | _, NaN => NaN
  | Fin a, Fin b =>
      if decide (b = 0%Qc)
      then (if decide (a = 0%Qc) then NaN
            else signed_inf (bool_decide (0 < a)%Qc))
      else Fin (a / b)%Qc
  | Fin _, PInf | Fin _, NInf => Fin 0%Qc
  | PInf, Fin b => signed_inf (bool_decide (0 ≤ b)%Qc)
  | NInf, Fin b => signed_inf (bool_decide (b < 0)%Qc)
  | PInf, PInf | PInf, NInf | NInf, PInf | NInf, NInf => NaN
  end.

(** [x < y] *)
Definition ltb (x y : num) : bool :=
  match x, y with
  | NaN, _ | _, NaN => false
  | Fin a, Fin b => bool_decide (a < b)%Qc
  | _, NInf => false
  | NInf, _ => true
  | PInf, _ => false
  | Fin _, PInf => true
  end.

(** [x <= y] *)
Definition leb (x y : num) : bool :=
  match x, y with
  | NaN, _ | _, NaN => false
  | Fin a, Fin b => bool_decide (a ≤ b)%Qc
  | NInf, _ => true
  | _, PInf => true
  | PInf, _ => false
  | Fin _, NInf => false
  end.

(** [x === y] on numbers: [NaN] differs from itself. *)
Definition strict_eqb (x y : num) : bool :=
  match x, y with
  | NaN, _ | _, NaN => false
  | _, _ => bool_decide (x = y)
  end.

(** [Math.min(x, y)] and [Math.max(x, y)]: [NaN] as soon as one argument
    is. *)
Definition min2 (x y : num) : num :=
  match x, y with
  | NaN, _ | _, NaN => NaN
  | _, _ => if ltb y x then y else x
  end.

Definition max2 (x y : num) : num :=
  match x, y with
  | NaN, _ | _, NaN => NaN
  | _, _ => if ltb x y then y else x
  end.

(** [Math.min(...args)] and [Math.max(...args)]: the running bound starts
    at [+Infinity] (respectively [-Infinity]). *)
Definition Math_min (args : list num) : num := foldl min2 PInf args.
Definition Math_max (args : list num) : num := foldl max2 NInf args.

(** Truncation towards zero of a rational, and [x % y]. *)
Definition trunc (a : Qc) : Z := Z.quot (Qnum a) (Zpos (Qden a)).

Definition rem (x y : num) : num :=
  match x, y with
  | NaN, _ | _, NaN => NaN
  | PInf, _ | NInf, _ => NaN
  | Fin a, PInf | Fin a, NInf => Fin a
  | Fin a, Fin b =>
      if decide (b = 0%Qc) then NaN
      else Fin (a - b * Qc_of_Z (trunc (a / b)))%Qc
  end.

#[global] Arguments neg : simpl never.
#[global] Arguments add : simpl never.
#[global] Arguments sub : simpl never.
#[global] Arguments mul : simpl never.
#[global] Arguments div : simpl never.
#[global] Arguments ltb : simpl never.
#[global] Arguments leb : simpl never.
#[global] Arguments strict_eqb : simpl never.
#[global] Arguments min2 : simpl never.
#[global] Arguments max2 : simpl never.
#[global] Arguments rem : simpl never.

End JSNumber.

Import JSNumber.

Declare Scope num_scope.
Delimit Scope num_scope with num.
Bind Scope num_scope with num.
Infix "+" := add : num_scope.
Infix "-" := sub : num_scope.
Infix "*" := mul : num_scope.
Infix "/" := div : num_scope.
Notation "- x" := (neg x) : num_scope.
Infix "<?" := ltb : num_scope.
Infix "<=?" := leb : num_scope.
Infix "===" := strict_eqb (at level 70, no associativity) : num_scope.


(** ** Rounding to binary64 *)

Module Binary64.

(** The exponent of a positive rational: [2 ^ ilog2 a <= a < 2 ^ (ilog2 a + 1)]. *)
Definition ilog2 (a : Q) : Z :=
  if Qle_bool 1 a then Z.log2 (Qfloor a) else (- Z.log2_up (Qceiling (/ a)))%Z.

(** The integer nearest to [m], the even one of two that are as near. *)
Definition round_half_even (m : Q) : Z :=
  let f := Qfloor m in
  match Qcompare (m - inject_Z f)%Q (1 # 2)%Q with
  | Lt => f
  | Gt => (f + 1)%Z
  | Eq => if Z.even f then f else (f + 1)%Z
  end.

(** The exponent of the last place of the doubles around [a]: 53 bits of
    significand, and the spacing of the subnormals below [2 ^ -1022]. *)
Definition ulp_exponent (a : Q) : Z := (Z.max (ilog2 a) (-1022) - 52)%Z.

(** The double nearest to a non-negative rational, were the exponent
    unbounded above. *)
Definition nearest (a : Q) : Q :=
  (inject_Z (round_half_even (a / 2 ^ ulp_exponent a)) * 2 ^ ulp_exponent a)%Q.

(** The double a rational rounds to: a magnitude that rounds to [2 ^ 1024]
    or more overflows to the infinity of its sign. *)
Definition round64 (q : Qc) : num :=
  let r := nearest (Qabs q) in
  if Qle_bool (2 ^ 1024) r then (if Qle_bool 0 q then PInf else NInf)
  else Fin (Q2Qc (if Qle_bool 0 q then r else (- r)%Q)).

(** A rational that is a double. *)
Definition is_double (q : Qc) : Prop := round64 q = Fin q.

(** The double a decimal literal of the source denotes. *)
Definition double (q : Q) : num := round64 (Q2Qc q).
#[global] Arguments double q%_Q.

Definition rounded (x : num) : num :=
  match x with
  | Fin q => round64 q
  | _ => x
  end.

(** [x + y], [x - y], [x * y] and [x / y] on doubles: the exact result,
    rounded. *)
Definition add (x y : num) : num := rounded (JSNumber.add x y).
Definition sub (x y : num) : num := rounded (JSNumber.sub x y).
Definition mul (x y : num) : num := rounded (JSNumber.mul x y).
Definition div (x y : num) : num := rounded (JSNumber.div x y).

End Binary64.

(** ** Exceptions *)

Inductive exn : Type :=
  | TypeError (msg : string)
  | SyntaxError (msg : string)
  | Error (msg : string).

Inductive result (A : Type) : Type :=
  | Ok (a : A)
  | Throw (e : exn).
Arguments Ok {A} a.
Arguments Throw {A} e.

#[global] Instance result_ret : MRet result := λ A a, Ok a.
#[global] Instance result_bind : MBind result := λ A B k m,
  match m with
  | Ok a => k a
  | Throw e => Throw e
  end.

(** ** The three.js colour class *)

Module THREE.

Record Color : Type := mkColor { r : num; g : num; b : num }.
Record HSL : Type := mkHSL { h : num; s : num; l : num }.

#[global] Instance Color_eq_dec : EqDecision Color.
Proof. solve_decision. Defined.

(** What the script asks of [THREE.Color]: [new THREE.Color(hex)],
    [color.getHSL({})] and [new THREE.Color().setHSL(h, s, l)]. *)
Class ColorOps : Type := {
  Color_new : Z → Color;
  getHSL : Color → HSL;
  setHSL : num → num → num → Color;
}.

End THREE.

(** The library is imported from a CDN and is not part of the repository.
    This is release r160 (math/Color.js, math/MathUtils.js,
    math/ColorManagement.js) with colour management enabled, its default:
    the working colour space is linear sRGB, a hexadecimal colour is read as
    sRGB and converted, [getHSL] and [setHSL] work in the working space.
    [Math.pow] has no rational model and is a parameter. *)
Module ThreeR160.
Section WithPow.
Variable Math_pow : num → num → num.

Definition clamp (value min max : num) : num := max2 min (min2 max value).

Definition euclideanModulo (n m : num) : num := rem (rem n m + m) m.

Definition SRGBToLinear (c : num) : num :=
  if (c <? dec 0.04045)%num then (c * dec 0.0773993808)%num
  else Math_pow (c * dec 0.9478672986 + dec 0.0521327014)%num (dec 2.4).

Definition ToInt32 (z : Z) : Z := ((z + 2 ^ 31) mod 2 ^ 32 - 2 ^ 31)%Z.

Definition setHex (hex : Z) : THREE.Color :=
  let hex := ToInt32 hex in
  let channel (shift : Z) : num :=
    SRGBToLinear (of_Z (Z.land (Z.shiftr hex shift) 255) / dec 255)%num in
  THREE.mkColor (channel 16%Z) (channel 8%Z) (channel 0%Z).

Definition getHSL (c : THREE.Color) : THREE.HSL :=
  let r := THREE.r c in
  let g := THREE.g c in
  let b := THREE.b c in
  let max := Math_max [r; g; b] in
  let min := Math_min [r; g; b] in
  let lightness := ((min + max) / dec 2.0)%num in
  if (min === max)%num then THREE.mkHSL (dec 0) (dec 0) lightness
  else
    let delta := (max - min)%num in
    let saturation :=
      if (lightness <=? dec 0.5)%num then (delta / (max + min))%num
      else (delta / (dec 2 - max - min))%num in
    let hue :=
      if (max === r)%num
      then ((g - b) / delta + (if (g <? b)%num then dec 6 else dec 0))%num
      else if (max === g)%num then ((b - r) / delta + dec 2)%num
      else if (max === b)%num then ((r - g) / delta + dec 4)%num
      else NaN in
    THREE.mkHSL (hue / dec 6)%num saturation lightness.

Definition hue2rgb (p q t : num) : num :=
  let t := if (t <? dec 0)%num then (t + dec 1)%num else t in
  let t := if (dec 1 <? t)%num then (t - dec 1)%num else t in
  if (t <? dec 1 / dec 6)%num then (p + (q - p) * dec 6 * t)%num
  else if (t <? dec 1 / dec 2)%num then q
  else if (t <? dec 2 / dec 3)%num
       then (p + (q - p) * dec 6 * (dec 2 / dec 3 - t))%num
  else p.

Definition setHSL (h s l : num) : THREE.Color :=
  let h := euclideanModulo h (dec 1) in
  let s := clamp s (dec 0) (dec 1) in
  let l := clamp l (dec 0) (dec 1) in
  if (s === dec 0)%num then THREE.mkColor l l l
  else
    let p := if (l <=? dec 0.5)%num then (l * (dec 1 + s))%num
             else (l + s - l * s)%num in
    let q := (dec 2 * l - p)%num in
    THREE.mkColor (hue2rgb q p (h + dec 1 / dec 3)%num)
                  (hue2rgb q p h)
                  (hue2rgb q p (h - dec 1 / dec 3)%num).

Definition ops : THREE.ColorOps :=
  {| THREE.Color_new := setHex; THREE.getHSL := getHSL; THREE.setHSL := setHSL |}.
End WithPow.
End ThreeR160.

(** ** WaterfallVisualizer *)

Record Config : Type := {
  maxLines : nat;
  lineWidth : num;
  zScale : num;
  spacing : num;
  colors : list (num * Z);
}.

(** [this.config]; it is written once, by the constructor. *)
Definition config : Config := {|
  maxLines := 5000;
  lineWidth := dec 50;
  zScale := dec 2.0;
  spacing := dec 1.0;
  colors := [ (dec 0.0, 0x0000ff%Z);
              (dec 0.25, 0x00ffff%Z);
              (dec 0.5, 0x00ff00%Z);
              (dec 0.75, 0xffff00%Z);
              (dec 1.0, 0xff0000%Z) ];
|}.

(** A [spectrum_data] frame.  A field that is present holds an array of
    numbers; [None] is a missing field ([undefined]). *)
Record SpectrumFrame : Type := {
  freqs : option (list num);
  power : option (list num);
  waterfall : option (list num);
}.

(** A buffer attribute of item size 3 is a list of triples. *)
Record BufferGeometry : Type := {
  position : list (num * num * num);
  color : list (num * num * num);
}.

(** A [THREE.Line]: geometry, material ([linewidth]) and [position.y]. *)
Record Line : Type := {
  geometry : BufferGeometry;
  linewidth : num;
  position_y : num;
}.

Inductive Object3D : Type :=
  | AmbientLight (hex : Z) (intensity : num)
  | LineRef (id : nat).

#[global] Instance Object3D_eq_dec : EqDecision Object3D.
Proof. solve_decision. Defined.

#[global] Instance LineRef_inj : Inj (=) (=) LineRef.
Proof. by intros ?? [= ?]. Qed.

(** The visualizer with its container, renderer, camera and scene.  The
    [Line] objects are kept in [objects] under their identity; [lines]
    ([this.lines]) and [scene_children] hold identities. *)
Record WaterfallVisualizer : Type := {
  clientWidth : nat;
  clientHeight : nat;
  renderer_size : nat * nat;
  camera_right : nat;
  camera_top : nat;
  scene_children : list Object3D;
  objects : gmap nat Line;
  next_id : nat;
  lines : list nat;
}.

Definition set_lines (f : list nat → list nat) (v : WaterfallVisualizer) :=
  {| clientWidth := clientWidth v; clientHeight := clientHeight v;
     renderer_size := renderer_size v; camera_right := camera_right v;
     camera_top := camera_top v; scene_children := scene_children v;
     objects := objects v; next_id := next_id v; lines := f (lines v) |}.

Definition set_scene (f : list Object3D → list Object3D) (v : WaterfallVisualizer) :=
  {| clientWidth := clientWidth v; clientHeight := clientHeight v;
     renderer_size := renderer_size v; camera_right := camera_right v;
     camera_top := camera_top v; scene_children := f (scene_children v);
     objects := objects v; next_id := next_id v; lines := lines v |}.

Definition set_objects (f : gmap nat Line → gmap nat Line) (v : WaterfallVisualizer) :=
  {| clientWidth := clientWidth v; clientHeight := clientHeight v;
     renderer_size := renderer_size v; camera_right := camera_right v;
     camera_top := camera_top v; scene_children := scene_children v;
     objects := f (objects v); next_id := next_id v; lines := lines v |}.

Definition set_position_y (y : num) (o : Line) : Line :=
  {| geometry := geometry o; linewidth := linewidth o; position_y := y |}.

(** [scene.remove(object)]: the first occurrence is spliced out. *)
Fixpoint scene_remove (o : Object3D) (children : list Object3D) : list Object3D :=
  match children with
  | [] => []
  | c :: children' =>
      if decide (c = o) then children' else c :: scene_remove o children'
  end.

(** [array.pop()]: the array without its last element, and that element. *)
Definition pop {A} (xs : list A) : list A * option A :=
  (take (length xs - 1) xs, last xs).

Section Visualizer.
Context `{!THREE.ColorOps}.

(** The constructor: [initThree] on a container of the given size and
    [setupScene]. *)
Definition WaterfallVisualizer_new (width height : nat) : WaterfallVisualizer :=
  {| clientWidth := width; clientHeight := height;
     renderer_size := (width, height);
     camera_right := width; camera_top := height;
     scene_children := [AmbientLight 0xffffff (dec 1.0)];
     objects := ∅; next_id := 0; lines := [] |}.

Definition onResize (v : WaterfallVisualizer) : WaterfallVisualizer :=
  let width := clientWidth v in
  let height := clientHeight v in
  {| clientWidth := clientWidth v; clientHeight := clientHeight v;
     renderer_size := (width, height);
     camera_right := width; camera_top := height;
     scene_children := scene_children v;
     objects := objects v; next_id := next_id v; lines := lines v |}.

(** The browser gives the container a new size; the script is not called
    yet. *)
Definition set_container (width height : nat) (v : WaterfallVisualizer) :=
  {| clientWidth := width; clientHeight := height;
     renderer_size := renderer_size v; camera_right := camera_right v;
     camera_top := camera_top v; scene_children := scene_children v;
     objects := objects v; next_id := next_id v; lines := lines v |}.

(** The browser resizes the container and the [ResizeObserver] calls
    [onResize] before any other handler runs. *)
Definition container_resized (width height : nat) (v : WaterfallVisualizer) :=
  onResize (set_container width height v).

Definition normalizeData (data : list num) : list num :=
  let min := Math_min data in
  let max := Math_max data in
  let range := Binary64.sub max min in
  if (range === dec 0)%num then (λ _, dec 0.5) <$> data
  else (λ v, Binary64.div (Binary64.sub v min) range) <$> data.

(** The body of the [if] of [getColor]: the colour between two stops. *)
Definition interpolate (value : num) (prev next : num * Z) : THREE.Color :=
  let t := ((value - prev.1) / (next.1 - prev.1))%num in
  let c1 := THREE.getHSL (THREE.Color_new prev.2) in
  let c2 := THREE.getHSL (THREE.Color_new next.2) in
  let hue := (THREE.h c1 + t * (THREE.h c2 - THREE.h c1))%num in
  let sat := (THREE.s c1 + t * (THREE.s c2 - THREE.s c1))%num in
  let lightness := (THREE.l c1 + t * (THREE.l c2 - THREE.l c1))%num in
  THREE.setHSL hue (sat * dec 1.5)%num lightness.

(** The [for] loop of [getColor] from index [i], with [n] iterations
    left; [None] when the loop ends without returning. *)
Fixpoint getColor_loop (stops : list (num * Z)) (value : num) (i n : nat)
  : option THREE.Color :=
  match n with
  | O => None
  | S n' =>
      match stops !! i, stops !! (i - 1) with
      | Some next, Some prev =>
          if (value <=? next.1)%num then Some (interpolate value prev next)
          else getColor_loop stops value (S i) n'
      | _, _ => None
      end
  end.

Definition clamp01 (value : num) : num := min2 (max2 value (dec 0)) (dec 1).

(** [getColor] up to the end of its loop. *)
Definition getColor_search (value : num) : option THREE.Color :=
  let value := clamp01 value in
  getColor_loop (colors config) value 1 (length (colors config) - 1).

(** The trailing [return] of [getColor]; [config.colors] is not empty. *)
Definition getColor_fallback : THREE.Color :=
  THREE.Color_new (default (dec 0, 0%Z) (last (colors config))).2.

Definition getColor (value : num) : THREE.Color :=
  default getColor_fallback (getColor_search value).

Definition createGeometry (v : WaterfallVisualizer) (data : SpectrumFrame)
  : result BufferGeometry :=
  match waterfall data with
  | None => Throw (TypeError "data.waterfall is not iterable")
  | Some samples =>
      let spectrum := normalizeData samples in
      let containerWidth := of_nat (clientWidth v) in
      let xScale := (containerWidth / (of_nat (length spectrum) - dec 1))%num in
      Ok {| position :=
              imap (λ i y, (of_nat i * xScale, dec 0, y * zScale config)%num)
                   spectrum;
            color :=
              (λ y, let c := getColor y in (THREE.r c, THREE.g c, THREE.b c))
                <$> spectrum |}
  end.

(** One turn of the [forEach] callback of [addData] on the line of
    identity [line]. *)
Definition advance (v : WaterfallVisualizer) (line : nat) : WaterfallVisualizer :=
  match objects v !! line with
  | None => v
  | Some o =>
      let y := (position_y o - spacing config)%num in
      let v := set_objects <[line := set_position_y y o]> v in
      if (y <? - spacing config)%num
      then set_lines (filter (λ l, l ≠ line))
             (set_scene (scene_remove (LineRef line)) v)
      else v
  end.

(** The first half of [addData]: the new [THREE.Line] is built, put at the
    very top, [unshift]ed into [this.lines] and added to the scene. *)
Definition add_line (v : WaterfallVisualizer) (geometry : BufferGeometry)
  : WaterfallVisualizer :=
  let line := next_id v in
  let o := {| geometry := geometry; linewidth := lineWidth config;
              position_y := of_nat (clientHeight v) |} in
  {| clientWidth := clientWidth v; clientHeight := clientHeight v;
     renderer_size := renderer_size v; camera_right := camera_right v;
     camera_top := camera_top v;
     scene_children := scene_children v ++ [LineRef line];
     objects := <[line := o]> (objects v);
     next_id := S (next_id v);
     lines := line :: lines v |}.

(** [if (this.lines.length > maxLines) this.scene.remove(this.lines.pop())] *)
Definition remove_oldest (v : WaterfallVisualizer) : WaterfallVisualizer :=
  if decide (maxLines config < length (lines v))
  then match pop (lines v) with
       | (rest, Some oldest) =>
           set_scene (scene_remove (LineRef oldest)) (set_lines (λ _, rest) v)
       | (rest, None) => set_lines (λ _, rest) v
       end
  else v.

(** [forEach] walks the array that [this.lines] names when the walk starts;
    the callback rebinds [this.lines] to filtered copies. *)
Definition addData (v : WaterfallVisualizer) (data : SpectrumFrame)
  : result WaterfallVisualizer :=
  geometry ← createGeometry v data;
  let v := add_line v geometry in
  let v := remove_oldest v in
  Ok (foldl advance v (lines v)).

End Visualizer.

(** ** The line chart and the socket handler *)

(** A property of a payload as the script reads it: a falsy value
    ([undefined], [null], [0], the empty string ...), an array, given by the
    numbers its elements convert to, or another truthy value (a number, a
    string, an object), on which [map] is not a function and which the
    spread of [Math.min] or the [map] of [normalizeData] refuses. *)
Inductive Field : Type :=
  | Falsy
  | Array (elements : list num)
  | NotArray.

Record RawFrame : Type := {
  raw_freqs : Field;
  raw_power : Field;
  raw_waterfall : Field;
}.

Definition truthy (field : Field) : bool :=
  match field with
  | Falsy => false
  | Array _ | NotArray => true
  end.

Definition field_of (property : option (list num)) : Field :=
  match property with
  | Some elements => Array elements
  | None => Falsy
  end.

Definition as_array (field : Field) : option (list num) :=
  match field with
  | Array elements => Some elements
  | Falsy | NotArray => None
  end.

Definition raw_of (frame : SpectrumFrame) : RawFrame :=
  {| raw_freqs := field_of (freqs frame);
     raw_power := field_of (power frame);
     raw_waterfall := field_of (waterfall frame) |}.

(** The frame [addData] and [createGeometry] see: of a property that is
    no array they can read no sample. *)
Definition arrays_of (raw : RawFrame) : SpectrumFrame :=
  {| freqs := as_array (raw_freqs raw);
     power := as_array (raw_power raw);
     waterfall := as_array (raw_waterfall raw) |}.

(** [chart.data.datasets[0].data] is assigned [data.power] as it is. *)
Record LineChart : Type := {
  labels : list num;
  dataset_data : Field;
  update_calls : nat;
}.

Definition lineChart_new : LineChart :=
  {| labels := []; dataset_data := Array []; update_calls := 0 |}.

(** [if (!data.freqs || !data.power) return;] then [data.freqs.map], which
    throws when [freqs] is truthy and no array. *)
Definition updateLineChart (chart : LineChart) (data : RawFrame)
  : result LineChart :=
  if negb (truthy (raw_freqs data)) || negb (truthy (raw_power data))
  then Ok chart
  else
    match raw_freqs data with
    | Array fs =>
        let freqMHz := (λ f, Binary64.div f (dec 1e6)) <$> fs in
        Ok {| labels := freqMHz; dataset_data := raw_power data;
              update_calls := S (update_calls chart) |}
    | Falsy | NotArray => Throw (TypeError "data.freqs.map is not a function")
    end.

(** What a [spectrum_data] event carries: a string, or a value that is
    already structured.  Of a value only its shape matters to the handler:
    [null] and [undefined] have no properties; on anything that is no
    object ([JOther]: a number, a boolean) and on an array the properties
    [freqs] and [waterfall] are [undefined]; [JObject] is an object whose
    three properties are each missing or an array of numbers, and
    [JUntyped] an object whose properties are any values. *)
Inductive JSValue : Type :=
  | JNullish
  | JOther
  | JObject (frame : SpectrumFrame)
  | JUntyped (raw : RawFrame).

Inductive Payload : Type :=
  | PString (text : string)
  | PValue (value : JSValue).

Inductive ConsoleEntry : Type :=
  | console_error (msg : string) (error : exn)
  | console_log (msg : string) (data : Payload).

Record App : Type := {
  visualizer : WaterfallVisualizer;
  lineChart : LineChart;
  isStreaming : bool;
  console : list ConsoleEntry;
}.

Section Handler.
Context `{!THREE.ColorOps}.

(** [JSON.parse] is the host's; [None] is a [SyntaxError]. *)
Variable JSON_parse : string → option JSValue.

Definition parse_payload (data : Payload) : result JSValue :=
  match data with
  | PString text =>
      match JSON_parse text with
      | Some value => Ok value
      | None => Throw (SyntaxError "JSON.parse")
      end
  | PValue value => Ok value
  end.

(** The properties of the parsed value as the handler reads them. *)
Definition properties (parsedData : JSValue) : result RawFrame :=
  match parsedData with
  | JNullish => Throw (TypeError "Cannot read properties of null")
  | JOther => Ok {| raw_freqs := Falsy; raw_power := Falsy; raw_waterfall := Falsy |}
  | JObject frame => Ok (raw_of frame)
  | JUntyped raw => Ok raw
  end.

(** [if (!parsedData.freqs || !parsedData.waterfall) throw ...]: a test of
    truthiness; an array is truthy whatever its length, and so is a
    non-zero number, a non-empty string or an object. *)
Definition validate (parsedData : JSValue) : result RawFrame :=
  raw ← properties parsedData;
  if negb (truthy (raw_freqs raw)) || negb (truthy (raw_waterfall raw))
  then Throw (Error "Invalid data structure")
  else Ok raw.

(** The [try] block of the handler: the state it leaves, and the exception
    when it is left by one.  [addData] throws before it writes anything;
    [updateLineChart] runs after [addData] has added the line. *)
Definition handle_frame (app : App) (data : Payload) : App * option exn :=
  match parsedData ← parse_payload data; validate parsedData with
  | Throw error => (app, Some error)
  | Ok frame =>
      match addData (visualizer app) (arrays_of frame) with
      | Throw error => (app, Some error)
      | Ok v =>
          let app := {| visualizer := v; lineChart := lineChart app;
                        isStreaming := isStreaming app;
                        console := console app |} in
          match updateLineChart (lineChart app) frame with
          | Throw error => (app, Some error)
          | Ok chart =>
              ({| visualizer := visualizer app; lineChart := chart;
                  isStreaming := isStreaming app;
                  console := console app |}, None)
          end
      end
  end.

(** [socket.on('spectrum_data', ...)]: the [catch] block logs the exception
    and the payload, from the state the [try] block was left in. *)
Definition on_spectrum_data (app : App) (data : Payload) : result App :=
  if negb (isStreaming app) then Ok app
  else
    match handle_frame app data with
    | (app', None) => Ok app'
    | (app', Some error) =>
        Ok {| visualizer := visualizer app';
              lineChart := lineChart app';
              isStreaming := isStreaming app';
              console := console app' ++
                [ console_error "Data parsing error:" error;
                  console_log "Raw received data:" data ] |}
    end.

(** The click handlers, once [fetch] has answered. *)
Definition start_clicked (response_ok : bool) (app : App) : App :=
  if response_ok
  then {| visualizer := visualizer app; lineChart := lineChart app;
          isStreaming := true; console := console app |}
  else app.

Definition stop_clicked (response_ok : bool) (app : App) : App :=
  if response_ok
  then {| visualizer := visualizer app; lineChart := lineChart app;
          isStreaming := false; console := console app |}
  else app.
End Handler.

(** ** Runs, reachable states and the vocabulary of the specification *)

Section Runs.
Context `{!THREE.ColorOps}.

(** Frames handed to [addData] one after the other. *)
Fixpoint run (v : WaterfallVisualizer) (frames : list SpectrumFrame)
  : result WaterfallVisualizer :=
  match frames with
  | [] => Ok v
  | frame :: frames' => v' ← addData v frame; run v' frames'
  end.

(** What can happen to a visualizer: a frame is added; the container is
    resized and [onResize] called at once; the container gets a new size,
    with the call of [onResize] still to come; [onResize] is called. *)
Inductive step : WaterfallVisualizer → WaterfallVisualizer → Prop :=
  | step_addData v frame v' : addData v frame = Ok v' → step v v'
  | step_resized v width height : step v (container_resized width height v)
  | step_container v width height : step v (set_container width height v)
  | step_onResize v : step v (onResize v).

Inductive reachable : WaterfallVisualizer → Prop :=
  | reachable_new width height :
      reachable (WaterfallVisualizer_new width height)
  | reachable_step v v' : reachable v → step v v' → reachable v'.
End Runs.

(** Distance of a line below the baseline of the newest row: [addData]
    puts a new line at [clientHeight] and its [forEach] moves every line,
    the new one too, down by [spacing] before it returns, so the newest row
    rests at [clientHeight - spacing].  The callback removes a line once
    [position.y < -spacing], that is once this distance exceeds
    [clientHeight]. *)
Definition verticalOffset (v : WaterfallVisualizer) (o : Line) : num :=
  (of_nat (clientHeight v) - spacing config - position_y o)%num.

Definition maxVisibleDepth (v : WaterfallVisualizer) : num :=
  of_nat (clientHeight v).

(** The line moved down by one [spacing], and whether the callback then
    removes it. *)
Definition moved (o : Line) : Line :=
  set_position_y (position_y o - spacing config)%num o.

Definition hits_bottom (objs : gmap nat Line) (id : nat) : bool :=
  match objs !! id with
  | Some o => (position_y (moved o) <? - spacing config)%num
  | None => false
  end.

(** [this.lines] after [unshift] and the conditional [pop]. *)
Definition trimmed (ls : list nat) : list nat :=
  if decide (maxLines config < length ls) then take (length ls - 1) ls else ls.

(** The invariant of the store: the lines of [this.lines] are distinct
    objects with a finite [position.y], the scene holds the ambient light and
    these lines, oldest first, and identities are handed out in order. *)
Record well_formed (v : WaterfallVisualizer) : Prop := {
  wf_NoDup : NoDup (lines v);
  wf_scene :
    scene_children v =
      AmbientLight 0xffffff (dec 1.0) :: (LineRef <$> reverse (lines v));
  wf_lines : ∀ id, id ∈ lines v →
    ∃ o q, objects v !! id = Some o ∧ position_y o = Fin q;
  wf_fresh : ∀ id, is_Some (objects v !! id) → id < next_id v;
}.

(** The identities [top], [top - 1], ... ([m] of them): [this.lines],
    newest first, when no line was removed out of order. *)
Fixpoint countdown (top m : nat) : list nat :=
  match m with
  | O => []
  | S m' => top :: countdown (top - 1) m'
  end.

(** The visualizer after [n] frames in a container that kept its size:
    the newest lines are held, as many as [maxLines] and the height allow,
    each one [spacing] lower per frame it has seen. *)
Record scrolled (width height n : nat) (v : WaterfallVisualizer) : Prop := {
  sc_well_formed : well_formed v;
  sc_width : clientWidth v = width;
  sc_height : clientHeight v = height;
  sc_next_id : next_id v = n;
  sc_lines :
    lines v = countdown (n - 1) (min n (min (maxLines config) (S height)));
  sc_position : ∀ id, id ∈ lines v →
    ∃ o, objects v !! id = Some o ∧
         position_y o = of_Z (Z.of_nat height - (Z.of_nat n - Z.of_nat id));
}.

Definition finite_hsl (c : THREE.HSL) : Prop :=
  is_finite (THREE.h c) ∧ is_finite (THREE.s c) ∧ is_finite (THREE.l c).

(** A payload the handler has to drop: a string that is not JSON, or a value
    without [freqs] or without [waterfall]. *)
Definition missing_field (value : JSValue) : Prop :=
  match value with
  | JObject frame => freqs frame = None ∨ waterfall frame = None
  | JUntyped raw => raw_freqs raw = Falsy ∨ raw_waterfall raw = Falsy
  | JNullish | JOther => True
  end.

Inductive malformed (JSON_parse : string → option JSValue) : Payload → Prop :=
  | malformed_syntax text :
      JSON_parse text = None → malformed JSON_parse (PString text)
  | malformed_parsed text value :
      JSON_parse text = Some value → missing_field value →
      malformed JSON_parse (PString text)
  | malformed_value value :
      missing_field value → malformed JSON_parse (PValue value).

(** The [catch] block of the socket handler has run: the console has the
    error and then the payload, after what it had. *)
Definition logs_error (app app' : App) (data : Payload) : Prop :=
  ∃ error,
    console app' =
      console app ++ [ console_error "Data parsing error:" error;
                       console_log "Raw received data:" data ].

(** ** Concrete inputs *)

(** A stand-in for [Math.pow] to run the colour model on the stops of
    [config.colors]: their channels are 0 or 255, so [SRGBToLinear] raises
    only the base 1, where the stand-in is exact. *)
Definition Math_pow_at_1 (base exponent : num) : num := base.

Definition three_r160 : THREE.ColorOps := ThreeR160.ops Math_pow_at_1.

Definition JSON_parse_nothing (text : string) : option JSValue := None.

Definition frame_of (samples : list num) : SpectrumFrame :=
  {| freqs := Some samples; power := Some samples; waterfall := Some samples |}.

(** A frame of 100 samples. *)
Definition frame100 : SpectrumFrame :=
  frame_of ((λ i, of_nat (i mod 7)) <$> seq 0 100).

(** The frame of the malformed-input scenario: no [waterfall]. *)
Definition frame_without_waterfall : SpectrumFrame :=
  {| freqs := Some [dec 1; dec 2]; power := Some [dec 1; dec 2];
     waterfall := None |}.

(** Payloads that pass the check of the handler with a property that is no
    array: [{freqs: 1, power: [1], waterfall: [1, 2]}] and
    [{freqs: [1], waterfall: 1}]. *)
Definition frame_with_scalar_freqs : RawFrame :=
  {| raw_freqs := NotArray; raw_power := Array [dec 1];
     raw_waterfall := Array [dec 1; dec 2] |}.

Definition frame_with_scalar_waterfall : RawFrame :=
  {| raw_freqs := Array [dec 1]; raw_power := Falsy;
     raw_waterfall := NotArray |}.

Definition app_new (width height : nat) (streaming : bool) : App :=
  {| visualizer := WaterfallVisualizer_new width height;
     lineChart := lineChart_new;
     isStreaming := streaming;
     console := [] |}.

(** ** addTestData *)

Section TestData.
Context `{!THREE.ColorOps}.

(** [Math.sin] has no rational model and is a parameter; [Math.random] is
    read as a sequence, the call number [k] of a run of [addTestData]
    returning [Math_random k]. *)
Variable Math_sin : num → num.
Variable Math_random : nat → num.

(** The first [testData]; [Array.from] calls its function for the indices
    0 to 99 in order, which are the calls [calls] to [calls + 99] of
    [Math.random]. *)
Definition testData_new (calls : nat) : SpectrumFrame :=
  {| freqs := Some (of_nat <$> seq 0 100);
     power := None;
     waterfall :=
       Some ((λ i, Binary64.add
                     (Binary64.add
                        (Binary64.mul (Math_sin (Binary64.div (of_nat i) (dec 10)))
                                      (dec 0.5))
                        (dec 0.5))
                     (Binary64.mul (Math_random (calls + i)%nat)
                                   (Binary64.double 0.1))) <$> seq 0 100) |}.

(** [testData.waterfall.map(v => Math.min(1, v + (Math.random() - 0.5) * 0.1))] *)
Definition jitter (calls : nat) (samples : list num) : list num :=
  imap (λ j v, min2 (dec 1)
                 (Binary64.add v
                    (Binary64.mul (Binary64.sub (Math_random (calls + j)%nat) (dec 0.5))
                                  (Binary64.double 0.1))))
       samples.

(** The [for] loop of [addTestData] with [n] iterations left, after [calls]
    calls of [Math.random]. *)
Fixpoint addTestData_loop (n calls : nat) (testData : SpectrumFrame)
    (v : WaterfallVisualizer) : result WaterfallVisualizer :=
  match n with
  | O => Ok v
  | S n' =>
      v' ← addData v testData;
      match waterfall testData with
      | None => Throw (TypeError "testData.waterfall is undefined")
      | Some samples =>
          addTestData_loop n' (calls + length samples)
            {| freqs := freqs testData; power := power testData;
               waterfall := Some (jitter calls samples) |} v'
      end
  end.

Definition addTestData (v : WaterfallVisualizer) : result WaterfallVisualizer :=
  addTestData_loop (maxLines config) 100 (testData_new 0) v.
End TestData.

(** ** The page: [initialize], the socket status and the buttons *)

(** How a [fetch] settles: the promise is rejected, or it is fulfilled with
    a response, of which the handlers read [ok]. *)
Inductive FetchResult : Type :=
  | fetch_rejected (error : exn)
  | fetch_response (ok : bool).

(** The body of the start request, before [JSON.stringify]. *)
Record StartParams : Type := {
  center_freq : num;
  sampling_rate : num;
  gain : string;
  fft_size : num;
}.

Record Request : Type := {
  fetch_url : string;
  fetch_method : string;
  fetch_body : option StartParams;
}.

(** The globals of the script with what the handlers write outside of them:
    the class of the status dot, the alerts shown and the requests sent. *)
Record Page : Type := {
  globals : App;
  status_className : string;
  alerts : list string;
  requests : list Request;
}.

(** What the page reacts to.  A click handler runs up to its [await]; the
    rest of it runs when the [fetch] has settled.  A resize of the container
    is one event when the [ResizeObserver] calls [onResize] before another
    handler runs ([container_resize]), and two when a handler runs in
    between: the change of size ([container_changed]) and the call
    ([resize_observed]). *)
Inductive Event : Type :=
  | socket_connect
  | socket_disconnect
  | socket_spectrum_data (data : Payload)
  | container_resize (width height : nat)
  | container_changed (width height : nat)
  | resize_observed
  | startBtn_click (centerFreq sampleRate fftSize : string)
  | start_settled (outcome : FetchResult)
  | stopBtn_click
  | stop_settled (outcome : FetchResult).

Definition set_globals (f : App → App) (p : Page) : Page :=
  {| globals := f (globals p); status_className := status_className p;
     alerts := alerts p; requests := requests p |}.

Definition set_status (className : string) (p : Page) : Page :=
  {| globals := globals p; status_className := className;
     alerts := alerts p; requests := requests p |}.

Definition alert (message : string) (p : Page) : Page :=
  {| globals := globals p; status_className := status_className p;
     alerts := alerts p ++ [message]; requests := requests p |}.

Definition fetch (request : Request) (p : Page) : Page :=
  {| globals := globals p; status_className := status_className p;
     alerts := alerts p; requests := requests p ++ [request] |}.

Definition set_visualizer (f : WaterfallVisualizer → WaterfallVisualizer)
    (a : App) : App :=
  {| visualizer := f (visualizer a); lineChart := lineChart a;
     isStreaming := isStreaming a; console := console a |}.

Definition log_error (msg : string) (error : exn) (a : App) : App :=
  {| visualizer := visualizer a; lineChart := lineChart a;
     isStreaming := isStreaming a;
     console := console a ++ [console_error msg error] |}.

(** [if (!response.ok) throw new Error(msg)] on the settled [fetch]. *)
Definition check_response (msg : string) (outcome : FetchResult) : result unit :=
  match outcome with
  | fetch_rejected error => Throw error
  | fetch_response true => Ok ()
  | fetch_response false => Throw (Error msg)
  end.

Section PageHandlers.
Context `{!THREE.ColorOps}.

(** [JSON.parse], [parseFloat] and [parseInt] are the host's. *)
Variable JSON_parse : string → option JSValue.
Variable parseFloat : string → num.
Variable parseInt : string → num.

(** [initialize]: the visualizer on its container, streaming off. *)
Definition initialize (width height : nat) (status : string) : Page :=
  {| globals := app_new width height false; status_className := status;
     alerts := []; requests := [] |}.

Definition start_request (centerFreq sampleRate fftSize : string) : Request :=
  {| fetch_url := "http://localhost:5000/api/start";
     fetch_method := "POST";
     fetch_body :=
       Some {| center_freq := Binary64.mul (parseFloat centerFreq) (dec 1e6);
               sampling_rate := Binary64.mul (parseFloat sampleRate) (dec 1e6);
               gain := "auto";
               fft_size := parseInt fftSize |} |}.

Definition stop_request : Request :=
  {| fetch_url := "http://localhost:5000//api/stop";
     fetch_method := "POST";
     fetch_body := None |}.

(** The start handler from its [await] on. *)
Definition start_continued (outcome : FetchResult) (p : Page) : Page :=
  match check_response "Start failed" outcome with
  | Ok _ => set_globals (start_clicked true) p
  | Throw error =>
      alert "Failed to start acquisition"
        (set_globals (log_error "Start error:" error) p)
  end.

Definition stop_continued (outcome : FetchResult) (p : Page) : Page :=
  match check_response "Stop failed" outcome with
  | Ok _ => set_globals (stop_clicked true) p
  | Throw error =>
      alert "Failed to stop acquisition"
        (set_globals (log_error "Stop error:" error) p)
  end.

Definition dispatch (p : Page) (e : Event) : result Page :=
  match e with
  | socket_connect => Ok (set_status "status-dot connected" p)
  | socket_disconnect => Ok (set_status "status-dot disconnected" p)
  | socket_spectrum_data data =>
      a ← on_spectrum_data JSON_parse (globals p) data;
      Ok (set_globals (λ _, a) p)
  | container_resize width height =>
      Ok (set_globals (set_visualizer (container_resized width height)) p)
  | container_changed width height =>
      Ok (set_globals (set_visualizer (set_container width height)) p)
  | resize_observed => Ok (set_globals (set_visualizer onResize) p)
  | startBtn_click centerFreq sampleRate fftSize =>
      Ok (fetch (start_request centerFreq sampleRate fftSize) p)
  | start_settled outcome => Ok (start_continued outcome p)
  | stopBtn_click => Ok (fetch stop_request p)
  | stop_settled outcome => Ok (stop_continued outcome p)
  end.

(** The events of a session, one after the other; an exception that
    escapes a handler ends the run. *)
Fixpoint page_run (p : Page) (events : list Event) : result Page :=
  match events with
  | [] => Ok p
  | e :: events' => p' ← dispatch p e; page_run p' events'
  end.

(** Whether the [try] block of the socket handler gets as far as adding a
    line: the payload passes the checks and its [waterfall] is an array;
    and how many [spectrum_data] events of a session do. *)
Definition accepts (data : Payload) : bool :=
  match parsedData ← parse_payload JSON_parse data; validate parsedData with
  | Ok raw =>
      match raw_waterfall raw with
      | Array _ => true
      | Falsy | NotArray => false
      end
  | Throw _ => false
  end.

Fixpoint frames_accepted (events : list Event) : nat :=
  match events with
  | [] => 0
  | socket_spectrum_data data :: events' =>
      (if accepts data then 1 else 0) + frames_accepted events'
  | _ :: events' => frames_accepted events'
  end.
End PageHandlers.

(** [parseFloat] and [parseInt] of a field that holds no number. *)
Definition parse_NaN (text : string) : num := NaN.

(** Equality of hue, saturation and lightness triples is decidable. *)
#[global] Instance HSL_eq_dec : EqDecision THREE.HSL.
Proof. solve_decision. Defined.

(** * Properties *)

(** A closed decidable statement, by evaluation. *)
Ltac by_decide := apply (bool_decide_unpack _); vm_compute; exact I.

(** Two rational constants differ: compare their reduced fractions. *)
Ltac Qc_discriminate :=
  let Heq := fresh "Heq" in
  intros Heq; apply (f_equal this) in Heq; vm_compute in Heq; discriminate Heq.

(** ** Numbers *)

Section NumberFacts.
Local Open Scope Qc_scope.

Lemma ltb_Fin a b : ltb (Fin a) (Fin b) = bool_decide (a < b).
Proof. reflexivity. Qed.

Lemma leb_Fin a b : leb (Fin a) (Fin b) = bool_decide (a ≤ b).
Proof. reflexivity. Qed.

Lemma min2_Fin a b : min2 (Fin a) (Fin b) = Fin (if bool_decide (b < a) then b else a).
Proof. unfold min2, ltb. by destruct (bool_decide (b < a)). Qed.

Lemma max2_Fin a b : max2 (Fin a) (Fin b) = Fin (if bool_decide (a < b) then b else a).
Proof. unfold max2, ltb. by destruct (bool_decide (a < b)). Qed.

(** The running minimum over finite numbers stays finite, is reached and
    is a lower bound. *)
Lemma foldl_min2_Fin (qs : list Qc) (a : Qc) :
  ∃ m, foldl min2 (Fin a) (Fin <$> qs) = Fin m ∧ m ∈ a :: qs ∧
       ∀ q, q ∈ a :: qs → m ≤ q.
Proof.
  revert a. induction qs as [|x qs IH]; intros a.
  - exists a. split_and!; [done | apply list_elem_of_here |].
    intros q ->%list_elem_of_singleton. apply Qcle_refl.
  - cbn [fmap list_fmap foldl]. rewrite min2_Fin.
    case_bool_decide as Hlt.
    + destruct (IH x) as (m & Hm & Hin & Hle). exists m.
      split_and!; [done | by apply list_elem_of_further |].
      intros q [->|Hq]%elem_of_cons; [|by apply Hle].
      apply Qcle_trans with x; [|by apply Qclt_le_weak].
      apply Hle, list_elem_of_here.
    + destruct (IH a) as (m & Hm & Hin & Hle). exists m.
      apply elem_of_cons in Hin. split_and!; [done | |].
      { rewrite !elem_of_cons. tauto. }
      intros q [->|[->|Hq]%elem_of_cons]%elem_of_cons.
      * apply Hle, list_elem_of_here.
      * apply Qcle_trans with a; [apply Hle, list_elem_of_here|].
        by apply Qcnot_lt_le.
      * by apply Hle, list_elem_of_further.
Qed.

Lemma foldl_max2_Fin (qs : list Qc) (a : Qc) :
  ∃ m, foldl max2 (Fin a) (Fin <$> qs) = Fin m ∧ m ∈ a :: qs ∧
       ∀ q, q ∈ a :: qs → q ≤ m.
Proof.
  revert a. induction qs as [|x qs IH]; intros a.
  - exists a. split_and!; [done | apply list_elem_of_here |].
    intros q ->%list_elem_of_singleton. apply Qcle_refl.
  - cbn [fmap list_fmap foldl]. rewrite max2_Fin.
    case_bool_decide as Hlt.
    + destruct (IH x) as (m & Hm & Hin & Hle). exists m.
      split_and!; [done | by apply list_elem_of_further |].
      intros q [->|Hq]%elem_of_cons; [|by apply Hle].
      apply Qcle_trans with x; [by apply Qclt_le_weak|].
      apply Hle, list_elem_of_here.
    + destruct (IH a) as (m & Hm & Hin & Hle). exists m.
      apply elem_of_cons in Hin. split_and!; [done | |].
      { rewrite !elem_of_cons. tauto. }
      intros q [->|[->|Hq]%elem_of_cons]%elem_of_cons.
      * apply Hle, list_elem_of_here.
      * apply Qcle_trans with a; [|apply Hle, list_elem_of_here].
        by apply Qcnot_lt_le.
      * by apply Hle, list_elem_of_further.
Qed.

Lemma Math_min_Fin (q : Qc) (qs : list Qc) :
  ∃ m, Math_min (Fin <$> q :: qs) = Fin m ∧ m ∈ q :: qs ∧
       ∀ x, x ∈ q :: qs → m ≤ x.
Proof. apply foldl_min2_Fin. Qed.

Lemma Math_max_Fin (q : Qc) (qs : list Qc) :
  ∃ m, Math_max (Fin <$> q :: qs) = Fin m ∧ m ∈ q :: qs ∧
       ∀ x, x ∈ q :: qs → x ≤ m.
Proof. apply foldl_max2_Fin. Qed.
End NumberFacts.

Section NormalizeFacts.
Local Open Scope Qc_scope.

Lemma Qcminus_pos (lo hi : Qc) : lo < hi → 0 < hi - lo.
Proof.
  intros Hlt. apply (Qcplus_lt_mono_r _ _ (- lo)) in Hlt.
  by rewrite Qcplus_opp_r in Hlt.
Qed.

Lemma Qcminus_nonneg (lo x : Qc) : lo ≤ x → 0 ≤ x - lo.
Proof.
  intros Hle. apply (Qcplus_le_mono_r _ _ (- lo)) in Hle.
  by rewrite Qcplus_opp_r in Hle.
Qed.

Lemma Qcminus_eq_0 (x y : Qc) : x - y = 0 ↔ x = y.
Proof.
  split; [|intros ->; apply Qcplus_opp_r].
  intros H. rewrite <-(Qcplus_0_l y), <-H. ring.
Qed.

Lemma length_normalizeData (data : list num) :
  length (normalizeData data) = length data.
Proof. unfold normalizeData. case_match; apply length_fmap. Qed.
End NormalizeFacts.

(** ** normalizeData *)

Section NormalizeData.
Local Open Scope Qc_scope.

Lemma sub_Fin (a b : Qc) : sub (Fin a) (Fin b) = Fin (a - b).
Proof. reflexivity. Qed.

Lemma div_Fin (a b : Qc) : b ≠ 0 → div (Fin a) (Fin b) = Fin (a / b).
Proof. intros Hb. unfold div. by rewrite decide_False. Qed.

Lemma strict_eqb_Fin_0 (a : Qc) : strict_eqb (Fin a) (dec 0) = bool_decide (a = 0).
Proof.
  unfold strict_eqb, dec. apply bool_decide_ext. split.
  - by intros [= ->].
  - by intros ->.
Qed.
End NormalizeData.

(** ** Rounding to binary64 *)

Import Binary64(ilog2, round_half_even, ulp_exponent, nearest, round64,
                is_double, double, rounded).

(** Powers of two, the exponent of a rational, and rounding to an
    integer. *)
Section NearestFacts.
Local Open Scope Q_scope.


Lemma pow2_pos (k : Z) : 0 < 2 ^ k.
Proof. by apply Qpower_0_lt. Qed.

Lemma pow2_le (n m : Z) : (n <= m)%Z -> 2 ^ n <= 2 ^ m.
Proof. intros H. apply Qpower_le_compat_l; [exact H|]. discriminate. Qed.

Lemma pow2_lt (n m : Z) : (n < m)%Z -> 2 ^ n < 2 ^ m.
Proof. intros H. apply Qpower_lt_compat_l; [exact H|]. reflexivity. Qed.

Lemma pow2_lt_inv (n m : Z) : 2 ^ n < 2 ^ m -> (n < m)%Z.
Proof. intros H. apply (Qpower_lt_compat_l_inv 2); [exact H|]. reflexivity. Qed.

Lemma pow2_plus (n m : Z) : 2 ^ (n + m) == 2 ^ n * 2 ^ m.
Proof. apply Qpower_plus. discriminate. Qed.

Lemma pow2_Z (n : Z) : (0 <= n)%Z -> inject_Z (2 ^ n) == 2 ^ n.
Proof. intros H. by rewrite Zpower_Qpower. Qed.

Lemma pow2_opp (n : Z) : 2 ^ (- n) == / 2 ^ n.
Proof. apply Qpower_opp. Qed.

Lemma ilog2_spec (a : Q) : 0 < a -> 2 ^ ilog2 a <= a /\ a < 2 ^ (ilog2 a + 1).
Proof.
  intros Ha. unfold ilog2. destruct (Qle_bool 1 a) eqn:E.
  - apply Qle_bool_iff in E.
    pose proof (Qfloor_resp_le _ _ E) as Hf. change (Qfloor 1) with 1%Z in Hf.
    pose proof (Z.log2_spec (Qfloor a) ltac:(lia)) as [Hlo Hhi].
    pose proof (Z.log2_nonneg (Qfloor a)) as Hl.
    split.
    + rewrite <-pow2_Z by lia.
      apply Qle_trans with (inject_Z (Qfloor a)); [|apply Qfloor_le].
      by rewrite <-Zle_Qle.
    + apply Qlt_le_trans with (inject_Z (Qfloor a + 1)); [apply Qlt_floor|].
      rewrite <-pow2_Z by lia. rewrite <-Zle_Qle.
      replace (Z.log2 (Qfloor a) + 1)%Z with (Z.succ (Z.log2 (Qfloor a))) by lia.
      lia.
  - assert (a < 1) as Ha1.
    { apply Qnot_le_lt. intros H. apply Qle_bool_iff in H. congruence. }
    assert (1 < / a) as Hinv.
    { apply (Qinv_lt_contravar a 1) in Ha1; [exact Ha1|exact Ha|reflexivity]. }
    set (c := Qceiling (/ a)).
    assert (1 < c)%Z as Hc.
    { rewrite Zlt_Qlt. apply Qlt_le_trans with (/ a); [exact Hinv|apply Qle_ceiling]. }
    pose proof (Z.log2_up_spec c Hc) as [Hlo Hhi].
    pose proof (Z.log2_up_pos c Hc) as Hk.
    set (k := Z.log2_up c) in *.
    assert (a * / a == 1) as Haa.
    { apply Qmult_inv_r. intros H0. rewrite H0 in Ha. discriminate. }
    split.
    + rewrite pow2_opp. apply Qle_shift_inv_r; [apply pow2_pos|].
      rewrite <-Haa. apply Qmult_le_l; [exact Ha|].
      apply Qle_trans with (inject_Z c); [apply Qle_ceiling|].
      rewrite <-pow2_Z by lia. by rewrite <-Zle_Qle.
    + replace (- k + 1)%Z with (- (k - 1))%Z by lia.
      rewrite pow2_opp. apply Qlt_shift_inv_l; [apply pow2_pos|].
      rewrite <-Haa. apply Qmult_lt_l; [exact Ha|].
      apply Qle_lt_trans with (inject_Z (c - 1)); [|apply Qceiling_lt].
      rewrite <-pow2_Z by lia. rewrite <-Zle_Qle.
      replace (k - 1)%Z with (Z.pred k) by lia. lia.
Qed.

Lemma ilog2_unique (a : Q) (e : Z) :
  0 < a -> 2 ^ e <= a -> a < 2 ^ (e + 1) -> ilog2 a = e.
Proof.
  intros Ha Hlo Hhi. destruct (ilog2_spec a Ha) as [Hlo' Hhi'].
  pose proof (pow2_lt_inv _ _ (Qle_lt_trans _ _ _ Hlo Hhi')).
  pose proof (pow2_lt_inv _ _ (Qle_lt_trans _ _ _ Hlo' Hhi)).
  lia.
Qed.

Lemma ilog2_mono (a b : Q) : 0 < a -> a <= b -> (ilog2 a <= ilog2 b)%Z.
Proof.
  intros Ha Hab.
  destruct (ilog2_spec a Ha) as [Hlo _].
  destruct (ilog2_spec b (Qlt_le_trans _ _ _ Ha Hab)) as [_ Hhi].
  pose proof (pow2_lt_inv _ _ (Qle_lt_trans _ _ _ (Qle_trans _ _ _ Hlo Hab) Hhi)).
  lia.
Qed.

Lemma round_half_even_bounds (m : Q) :
  (Qfloor m <= round_half_even m <= Qfloor m + 1)%Z.
Proof.
  unfold round_half_even.
  destruct (Qcompare (m - inject_Z (Qfloor m)) (1 # 2)); [|lia|lia].
  destruct (Z.even (Qfloor m)); lia.
Qed.

Lemma round_half_even_Z (n : Z) : round_half_even (inject_Z n) = n.
Proof.
  unfold round_half_even. rewrite Qfloor_Z.
  destruct (Qcompare_spec (inject_Z n - inject_Z n) (1 # 2)); [lra|done|lra].
Qed.

Lemma round_half_even_mono (m1 m2 : Q) :
  m1 <= m2 -> (round_half_even m1 <= round_half_even m2)%Z.
Proof.
  intros Hm. pose proof (Qfloor_resp_le _ _ Hm) as Hf.
  pose proof (round_half_even_bounds m1). pose proof (round_half_even_bounds m2).
  destruct (decide (Qfloor m1 = Qfloor m2)) as [Heq|Hne]; [|lia].
  unfold round_half_even. rewrite <-Heq.
  destruct (Qcompare_spec (m1 - inject_Z (Qfloor m1)) (1 # 2)) as [E1|E1|E1],
           (Qcompare_spec (m2 - inject_Z (Qfloor m1)) (1 # 2)) as [E2|E2|E2];
    try lia; try lra; destruct (Z.even (Qfloor m1)); lia.
Qed.

Lemma round_half_even_comp (m1 m2 : Q) :
  m1 == m2 -> round_half_even m1 = round_half_even m2.
Proof.
  intros Hm. apply Z.le_antisymm; apply round_half_even_mono; lra.
Qed.

Lemma ulp_exponent_ge (a : Q) : (-1074 <= ulp_exponent a)%Z.
Proof. unfold ulp_exponent. lia. Qed.

Lemma nearest_nonneg (a : Q) : 0 <= a -> 0 <= nearest a.
Proof.
  intros Ha. unfold nearest. apply Qmult_le_0_compat; [|apply Qlt_le_weak, pow2_pos].
  change 0 with (inject_Z 0). rewrite <-Zle_Qle.
  etrans; [|apply round_half_even_bounds].
  change 0%Z with (Qfloor 0). apply Qfloor_resp_le.
  apply Qle_shift_div_l; [apply pow2_pos|]. lra.
Qed.

Lemma nearest_upper (a : Q) :
  0 < a -> nearest a <= 2 ^ (Z.max (ilog2 a) (-1022) + 1).
Proof.
  intros Ha. unfold nearest, ulp_exponent.
  set (e := Z.max (ilog2 a) (-1022)).
  destruct (ilog2_spec a Ha) as [_ Hhi].
  assert (a <= 2 ^ (e + 1)) as Hae.
  { apply Qlt_le_weak, Qlt_le_trans with (2 ^ (ilog2 a + 1)); [exact Hhi|].
    apply pow2_le. lia. }
  assert (a / 2 ^ (e - 52) <= inject_Z (2 ^ 53)) as Hm.
  { apply Qle_shift_div_r; [apply pow2_pos|].
    rewrite pow2_Z by lia. rewrite <-pow2_plus.
    by replace (53 + (e - 52))%Z with (e + 1)%Z by lia. }
  apply round_half_even_mono in Hm. rewrite round_half_even_Z in Hm.
  replace (e + 1)%Z with (53 + (e - 52))%Z by lia.
  rewrite pow2_plus. apply Qmult_le_compat_r; [|apply Qlt_le_weak, pow2_pos].
  rewrite <-(pow2_Z 53) by lia. by rewrite <-Zle_Qle.
Qed.

Lemma nearest_lower (a : Q) :
  0 < a -> (-1022 <= ilog2 a)%Z -> 2 ^ ilog2 a <= nearest a.
Proof.
  intros Ha He. unfold nearest, ulp_exponent.
  rewrite Z.max_l by lia.
  set (e := ilog2 a).
  destruct (ilog2_spec a Ha) as [Hlo _]. fold e in Hlo.
  assert (inject_Z (2 ^ 52) <= a / 2 ^ (e - 52)) as Hm.
  { apply Qle_shift_div_l; [apply pow2_pos|].
    rewrite pow2_Z by lia. rewrite <-pow2_plus.
    by replace (52 + (e - 52))%Z with e by lia. }
  apply round_half_even_mono in Hm. rewrite round_half_even_Z in Hm.
  replace e with (52 + (e - 52))%Z at 1 by lia.
  rewrite pow2_plus. apply Qmult_le_compat_r; [|apply Qlt_le_weak, pow2_pos].
  rewrite <-(pow2_Z 52) by lia. by rewrite <-Zle_Qle.
Qed.

Lemma nearest_mono_pos (a b : Q) : 0 < a -> a <= b -> nearest a <= nearest b.
Proof.
  intros Ha Hab.
  assert (0 < b) as Hb by (by apply Qlt_le_trans with a).
  pose proof (ilog2_mono a b Ha Hab) as He.
  destruct (decide (Z.max (ilog2 a) (-1022) = Z.max (ilog2 b) (-1022))) as [Heq|Hne].
  - unfold nearest, ulp_exponent. rewrite <-Heq.
    apply Qmult_le_compat_r; [|apply Qlt_le_weak, pow2_pos].
    rewrite <-Zle_Qle. apply round_half_even_mono.
    apply Qmult_le_compat_r; [exact Hab|].
    apply Qlt_le_weak, Qinv_lt_0_compat, pow2_pos.
  - apply Qle_trans with (2 ^ (Z.max (ilog2 a) (-1022) + 1)); [by apply nearest_upper|].
    apply Qle_trans with (2 ^ ilog2 b); [apply pow2_le; lia|].
    apply nearest_lower; [exact Hb|lia].
Qed.

Lemma nearest_zero (a : Q) : a == 0 -> nearest a == 0.
Proof.
  intros Ha. unfold nearest.
  rewrite (round_half_even_comp _ (inject_Z 0)).
  - rewrite round_half_even_Z. ring.
  - unfold Qdiv. transitivity (0 * / 2 ^ ulp_exponent a); [|ring].
    apply Qmult_comp; [exact Ha|reflexivity].
Qed.

(** Rounding is monotone. *)
Lemma nearest_mono (a b : Q) : 0 <= a -> a <= b -> nearest a <= nearest b.
Proof.
  intros Ha Hab. apply Qle_lt_or_eq in Ha as [Ha|Ha].
  - by apply nearest_mono_pos.
  - rewrite (nearest_zero a) by (by symmetry).
    apply nearest_nonneg. lra.
Qed.

(** A rounded value is a multiple of the smallest positive double. *)
Lemma nearest_grid (a : Q) : exists n : Z, nearest a == inject_Z n * 2 ^ (-1074).
Proof.
  pose proof (ulp_exponent_ge a) as He.
  exists (round_half_even (a / 2 ^ ulp_exponent a) * 2 ^ (ulp_exponent a + 1074))%Z.
  unfold nearest. rewrite inject_Z_mult, pow2_Z by lia.
  rewrite <-Qmult_assoc, <-pow2_plus.
  by replace (ulp_exponent a + 1074 + -1074)%Z with (ulp_exponent a) by lia.
Qed.
End NearestFacts.

(** [round64] on the non-negative rationals: monotone, and never 0 on the
    difference of two doubles. *)
Section Round64Facts.
Local Open Scope Qc_scope.

Lemma Qabs_nonneg_eq (q : Q) : (0 <= q)%Q → Qabs q = q.
Proof.
  destruct q as [n d]. unfold Qle, Qabs. cbn. intros H.
  f_equal. apply Z.abs_eq. lia.
Qed.

Lemma Q2Qc_le (x y : Q) : (x <= y)%Q → Q2Qc x ≤ Q2Qc y.
Proof. intros H. unfold Qcle. cbn. by rewrite !Qred_correct. Qed.

Lemma Q2Qc_lt (x y : Q) : (x < y)%Q → Q2Qc x < Q2Qc y.
Proof. intros H. unfold Qclt. cbn. by rewrite !Qred_correct. Qed.

Lemma round64_0 : round64 0 = Fin 0.
Proof. by_decide. Qed.

Lemma round64_1 : round64 1 = Fin 1.
Proof. by_decide. Qed.

Lemma round64_nonneg (q : Qc) :
  0 ≤ q → round64 q = PInf ∨ ∃ r, round64 q = Fin r ∧ 0 ≤ r.
Proof.
  intros Hq. unfold round64.
  assert (Qle_bool 0 q = true) as -> by (by apply Qle_bool_iff).
  destruct (Qle_bool (2 ^ 1024) (nearest (Qabs q))); [by left|].
  right. eexists. split; [done|].
  apply (Q2Qc_le 0). apply nearest_nonneg, Qabs_nonneg.
Qed.

Lemma round64_mono (a b : Qc) :
  0 ≤ a → a ≤ b → leb (round64 a) (round64 b) = true.
Proof.
  intros Ha Hab. assert (0 ≤ b) as Hb by (by apply Qcle_trans with a).
  unfold round64.
  assert (Qle_bool 0 a = true) as -> by (by apply Qle_bool_iff).
  assert (Qle_bool 0 b = true) as -> by (by apply Qle_bool_iff).
  rewrite !Qabs_nonneg_eq by done.
  pose proof (nearest_mono a b Ha Hab) as Hn.
  destruct (Qle_bool (2 ^ 1024) (nearest b)) eqn:Eb.
  { by destruct (Qle_bool (2 ^ 1024) (nearest a)). }
  destruct (Qle_bool (2 ^ 1024) (nearest a)) eqn:Ea.
  { apply Qle_bool_iff in Ea.
    assert (Qle_bool (2 ^ 1024) (nearest b) = true) as Eb'; [|congruence].
    apply Qle_bool_iff. by apply Qle_trans with (nearest a). }
  rewrite leb_Fin. apply bool_decide_eq_true_2. by apply Q2Qc_le.
Qed.

Lemma is_double_grid (q : Qc) :
  is_double q → ∃ n : Z, (q == inject_Z n * 2 ^ (-1074))%Q.
Proof.
  unfold is_double, round64. intros H.
  destruct (Qle_bool (2 ^ 1024) (nearest (Qabs q))).
  { by destruct (Qle_bool 0 q). }
  injection H as H. apply (f_equal this) in H. cbn in H.
  destruct (nearest_grid (Qabs q)) as [n Hn].
  destruct (Qle_bool 0 q).
  - exists n. rewrite <-H, Qred_correct. exact Hn.
  - exists (- n)%Z. rewrite <-H, Qred_correct, Hn, inject_Z_opp.
    generalize (2 ^ (-1074))%Q, (inject_Z n). clear. intros u z. ring.
Qed.

Lemma Qcminus_this (a b : Qc) : ((a - b)%Qc == (a : Q) - (b : Q))%Q.
Proof.
  unfold Qcminus, Qcplus, Qcopp, Q2Qc. cbn [this].
  rewrite !Qred_correct. reflexivity.
Qed.

Lemma nearest_min_subnormal : (nearest (2 ^ (-1074)) == 2 ^ (-1074))%Q.
Proof. vm_compute. reflexivity. Qed.

(** The difference of two distinct doubles does not round to zero. *)
Lemma round64_difference (a b : Qc) :
  is_double a → is_double b → b < a →
  round64 (a - b) = PInf ∨ ∃ r, round64 (a - b) = Fin r ∧ 0 < r.
Proof.
  intros [n1 H1]%is_double_grid [n2 H2]%is_double_grid Hlt.
  assert ((a - b)%Qc == inject_Z (n1 - n2) * 2 ^ (-1074))%Q as Hd.
  { rewrite Qcminus_this, H1, H2.
    unfold Z.sub. rewrite inject_Z_plus, inject_Z_opp.
    generalize (2 ^ (-1074))%Q, (inject_Z n1), (inject_Z n2). clear. intros u z1 z2. ring. }
  assert (0 < a - b) as Hpos by (by apply Qcminus_pos).
  assert (2 ^ (-1074) <= (a - b)%Qc)%Q as Hge.
  { rewrite Hd. rewrite <-(Qmult_1_l (2 ^ (-1074))) at 1.
    apply Qmult_le_compat_r; [|apply Qlt_le_weak, pow2_pos].
    change 1%Q with (inject_Z 1). rewrite <-Zle_Qle.
    assert (0 < inject_Z (n1 - n2) * 2 ^ (-1074))%Q as H0 by (by rewrite <-Hd).
    assert (0 < inject_Z (n1 - n2))%Q as H0'.
    { apply (Qmult_lt_r _ _ (2 ^ (-1074))); [apply pow2_pos|]. by rewrite Qmult_0_l. }
    change 0%Q with (inject_Z 0) in H0'. rewrite <-Zlt_Qlt in H0'. lia. }
  unfold round64.
  assert (Qle_bool 0 (a - b)%Qc = true) as ->.
  { apply Qle_bool_iff. by apply Qlt_le_weak. }
  rewrite Qabs_nonneg_eq by (by apply Qlt_le_weak).
  destruct (Qle_bool (2 ^ 1024) (nearest (a - b)%Qc)); [by left|].
  right. eexists. split; [done|].
  apply (Q2Qc_lt 0).
  apply Qlt_le_trans with (2 ^ (-1074))%Q; [apply pow2_pos|].
  rewrite <-nearest_min_subnormal.
  apply nearest_mono; [apply Qlt_le_weak, pow2_pos|exact Hge].
Qed.
End Round64Facts.

(** Rounding is idempotent. *)
Section Fixed.
Local Open Scope Q_scope.

Lemma ilog2_comp (a b : Q) : 0 < a -> a == b -> ilog2 a = ilog2 b.
Proof.
  intros Ha Hab. assert (0 < b) as Hb by (by rewrite <-Hab).
  destruct (ilog2_spec a Ha) as [Hlo Hhi].
  symmetry. apply ilog2_unique; [exact Hb| |]; by rewrite <-Hab.
Qed.

Lemma nearest_comp (a b : Q) : 0 <= a -> a == b -> nearest a == nearest b.
Proof.
  intros Ha Hab. apply Qle_lt_or_eq in Ha as [Ha|Ha].
  - unfold nearest, ulp_exponent. rewrite <-(ilog2_comp a b Ha Hab).
    rewrite (round_half_even_comp (b / _) (a / 2 ^ (Z.max (ilog2 a) (-1022) - 52))).
    + reflexivity.
    + unfold Qdiv. apply Qmult_comp; [by symmetry|reflexivity].
  - rewrite (nearest_zero a) by (by symmetry).
    rewrite (nearest_zero b); [reflexivity|]. by rewrite <-Hab, <-Ha.
Qed.

Lemma div_mult_cancel (z u : Q) : ~ u == 0 -> z * u / u == z.
Proof. intros Hu. field. exact Hu. Qed.

Lemma pow2_ne_0 (k : Z) : ~ 2 ^ k == 0.
Proof. intros H0. pose proof (pow2_pos k) as Hp. rewrite H0 in Hp. discriminate. Qed.

Lemma nearest_on_grid (r : Q) (k e : Z) :
  r == inject_Z k * 2 ^ (e - 52) -> Z.max (ilog2 r) (-1022) = e ->
  nearest r == r.
Proof.
  intros Hr He. unfold nearest, ulp_exponent. rewrite He.
  rewrite (round_half_even_comp _ (inject_Z k)).
  - rewrite round_half_even_Z. by symmetry.
  - transitivity (inject_Z k * 2 ^ (e - 52) / 2 ^ (e - 52)).
    + unfold Qdiv. apply Qmult_comp; [exact Hr|reflexivity].
    + apply div_mult_cancel, pow2_ne_0.
Qed.

Lemma scaled_lt (k n : Z) (e : Z) :
  (0 <= n)%Z -> (k < 2 ^ n)%Z -> inject_Z k * 2 ^ e < 2 ^ (n + e).
Proof.
  intros Hn Hk. rewrite pow2_plus. apply Qmult_lt_compat_r; [apply pow2_pos|].
  rewrite <-(pow2_Z n) by lia. by rewrite <-Zlt_Qlt.
Qed.

Lemma scaled_le (k n : Z) (e : Z) :
  (0 <= n)%Z -> (2 ^ n <= k)%Z -> 2 ^ (n + e) <= inject_Z k * 2 ^ e.
Proof.
  intros Hn Hk. rewrite pow2_plus. apply Qmult_le_compat_r; [|apply Qlt_le_weak, pow2_pos].
  rewrite <-(pow2_Z n) by lia. by rewrite <-Zle_Qle.
Qed.

Lemma scaled_eq (n : Z) (e : Z) :
  (0 <= n)%Z -> inject_Z (2 ^ n) * 2 ^ e == 2 ^ (n + e).
Proof. intros Hn. by rewrite pow2_plus, pow2_Z. Qed.

(** A rounded value rounds to itself. *)
Lemma nearest_fixed (a : Q) : 0 < a -> nearest (nearest a) == nearest a.
Proof.
  intros Ha.
  set (e := Z.max (ilog2 a) (-1022)).
  set (k := round_half_even (a / 2 ^ (e - 52))).
  assert (nearest a = inject_Z k * 2 ^ (e - 52)) as Hr by reflexivity.
  destruct (ilog2_spec a Ha) as [Hlo Hhi].
  assert (0 <= k <= 2 ^ 53)%Z as [Hk0 Hk53].
  { split.
    - unfold k. etrans; [|apply round_half_even_bounds].
      change 0%Z with (Qfloor 0). apply Qfloor_resp_le.
      apply Qle_shift_div_l; [apply pow2_pos|]. lra.
    - pose proof (nearest_upper a Ha) as Hu. fold e in Hu. rewrite Hr in Hu.
      replace (e + 1)%Z with (53 + (e - 52))%Z in Hu by lia.
      rewrite <-scaled_eq in Hu by lia.
      apply Qmult_le_r in Hu; [|apply pow2_pos]. by rewrite <-Zle_Qle in Hu. }
  destruct (decide (k = 0%Z)) as [Hk|Hk].
  { assert (nearest a == 0) as H0 by (rewrite Hr, Hk; ring).
    transitivity 0; [by apply nearest_zero|by symmetry]. }
  assert (0 < nearest a) as Hpos.
  { rewrite Hr. apply Qmult_lt_0_compat; [|apply pow2_pos].
    change 0 with (inject_Z 0). rewrite <-Zlt_Qlt. lia. }
  destruct (decide (-1022 <= ilog2 a)%Z) as [Hnormal|Hsub].
  - assert (e = ilog2 a) as He by (unfold e; lia).
    assert (2 ^ 52 <= k)%Z as Hk52.
    { pose proof (nearest_lower a Ha Hnormal) as Hl. rewrite <-He, Hr in Hl.
      replace e with (52 + (e - 52))%Z in Hl at 1 by lia.
      rewrite <-scaled_eq in Hl by lia.
      apply Qmult_le_r in Hl; [|apply pow2_pos]. by rewrite <-Zle_Qle in Hl. }
    destruct (decide (k = 2 ^ 53)%Z) as [Htop|Htop].
    + apply (nearest_on_grid _ (2 ^ 52) (e + 1)).
      * rewrite Hr, Htop, !scaled_eq by lia. f_equiv. lia.
      * assert (ilog2 (nearest a) = e + 1)%Z as ->; [|lia].
        apply ilog2_unique; [exact Hpos| |].
        -- rewrite Hr, Htop, scaled_eq by lia. apply pow2_le. lia.
        -- rewrite Hr, Htop, scaled_eq by lia. apply pow2_lt. lia.
    + apply (nearest_on_grid _ k e); [by rewrite Hr|].
      assert (ilog2 (nearest a) = e) as ->; [|lia].
      apply ilog2_unique; [exact Hpos| |].
      * rewrite Hr. replace e with (52 + (e - 52))%Z at 1 by lia.
        by apply scaled_le.
      * rewrite Hr. replace (e + 1)%Z with (53 + (e - 52))%Z by lia.
        apply scaled_lt; lia.
  - assert (e = -1022)%Z as He by (unfold e; lia).
    assert (k <= 2 ^ 52)%Z as Hk52.
    { assert (a / 2 ^ (e - 52) <= inject_Z (2 ^ 52)) as Hm.
      { apply Qle_shift_div_r; [apply pow2_pos|].
        rewrite scaled_eq by lia. apply Qlt_le_weak.
        apply Qlt_le_trans with (2 ^ (ilog2 a + 1)); [exact Hhi|].
        apply pow2_le. lia. }
      apply round_half_even_mono in Hm. by rewrite round_half_even_Z in Hm. }
    apply (nearest_on_grid _ k e); [by rewrite Hr|].
    assert (ilog2 (nearest a) <= -1022)%Z; [|lia].
    destruct (ilog2_spec _ Hpos) as [Hlo' _].
    assert (nearest a <= 2 ^ (-1022)) as Hle.
    { rewrite Hr. replace (-1022)%Z with (52 + (e - 52))%Z by lia.
      rewrite <-scaled_eq by lia.
      apply Qmult_le_compat_r; [|apply Qlt_le_weak, pow2_pos].
      by rewrite <-Zle_Qle. }
    destruct (decide (ilog2 (nearest a) <= -1022)%Z) as [?|Hgt]; [done|].
    exfalso.
    assert (2 ^ (-1022) < 2 ^ ilog2 (nearest a)) as Hlt by (apply pow2_lt; lia).
    lra.
Qed.
End Fixed.

Section Round64Fixed.
Local Open Scope Qc_scope.

Lemma Qle_bool_comp (x y z : Q) : (y == z)%Q → Qle_bool x y = Qle_bool x z.
Proof.
  intros H. apply eq_true_iff_eq. rewrite !Qle_bool_iff. by rewrite H.
Qed.

(** A result of rounding is a double. *)
Lemma round64_is_double (q y : Qc) : 0 ≤ q → round64 q = Fin y → is_double y.
Proof.
  intros Hq Hy. unfold round64 in Hy.
  assert (Qle_bool 0 q = true) as Hq' by (by apply Qle_bool_iff).
  rewrite Hq', Qabs_nonneg_eq in Hy by done.
  destruct (Qle_bool (2 ^ 1024) (nearest q)) eqn:Eover; [done|].
  injection Hy as <-.
  assert (nearest (Q2Qc (nearest q)) == nearest q)%Q as Hfix.
  { destruct (Qle_lt_or_eq _ _ Hq) as [Hpos|H0].
    - rewrite <-(nearest_fixed q Hpos) at 2.
      apply nearest_comp; [|apply Qred_correct].
      cbn. rewrite Qred_correct. by apply nearest_nonneg.
    - assert (nearest q == 0)%Q as Hz by (apply nearest_zero; by symmetry).
      transitivity 0%Q; [|by symmetry].
      apply nearest_zero. cbn. by rewrite Qred_correct. }
  assert (0 <= Q2Qc (nearest q))%Q as Hn.
  { cbn. rewrite Qred_correct. by apply nearest_nonneg. }
  unfold is_double, round64.
  assert (Qle_bool 0 (Q2Qc (nearest q)) = true) as -> by (by apply Qle_bool_iff).
  rewrite Qabs_nonneg_eq by done.
  rewrite (Qle_bool_comp _ _ _ Hfix), Eover.
  f_equal. apply Qc_is_canon.
  transitivity (nearest (Q2Qc (nearest q))); [apply Qred_correct|].
  transitivity (nearest q); [exact Hfix|]. symmetry. apply Qred_correct.
Qed.

End Round64Fixed.

(** [round64] on known doubles: 0.1 is [3602879701896397 / 2 ^ 55]; the
    largest double is [(2 ^ 53 - 1) * 2 ^ 971] and 1.8e308 overflows; the
    smallest subnormal is [2 ^ -1074] and 2e-324 underflows to 0; a tie goes
    to the even significand. *)
Lemma round64_examples :
  double 0.1 = Fin (Q2Qc (3602879701896397 # 36028797018963968)) ∧
  double 1.7976931348623157e308
    = Fin (Q2Qc (inject_Z ((2 ^ 53 - 1) * 2 ^ 971))) ∧
  double 1.8e308 = PInf ∧
  double (-1.8e308) = NInf ∧
  double 5e-324 = Fin (Q2Qc (2 ^ (-1074))) ∧
  double 2e-324 = dec 0 ∧
  double 9007199254740993 = Fin (Q2Qc 9007199254740992) ∧
  double 9007199254740995 = Fin (Q2Qc 9007199254740996).
Proof. split_and!; by_decide. Qed.

(** The subtraction and the division of [normalizeData] on doubles. *)
Section NormalizeData64.
Local Open Scope Qc_scope.

Lemma sub64_Fin (a b : Qc) : Binary64.sub (Fin a) (Fin b) = round64 (a - b).
Proof. reflexivity. Qed.

Lemma div64_Fin (a b : Qc) : b ≠ 0 → Binary64.div (Fin a) (Fin b) = round64 (a / b).
Proof. intros Hb. unfold Binary64.div. by rewrite div_Fin. Qed.

Lemma div64_Fin_PInf (a : Qc) : Binary64.div (Fin a) PInf = Fin 0.
Proof. exact round64_0. Qed.

Lemma Qc_lt_ne (a b : Qc) : a < b → b ≠ a.
Proof. intros Hlt ->. by apply Qclt_not_eq in Hlt. Qed.

Lemma Qcdiv_unit (x r : Qc) : 0 ≤ x → x ≤ r → 0 < r → 0 ≤ x / r ∧ x / r ≤ 1.
Proof.
  intros Hx Hxr Hr. pose proof (Qcinv_pos _ Hr) as Hinv. unfold Qcdiv. split.
  - apply Qcmult_nonneg_nonneg; [done|by apply Qclt_le_weak].
  - rewrite <-(Qcmult_inv_r r) by (by apply Qc_lt_ne).
    apply Qcmult_le_mono_nonneg_r; [by apply Qclt_le_weak|done].
Qed.

(** The difference of a sample and the minimum, rounded, is between 0 and
    the range. *)
Lemma sub64_below_range (v min max r : Qc) :
  min ≤ v → v ≤ max → round64 (max - min) = Fin r →
  ∃ x, Binary64.sub (Fin v) (Fin min) = Fin x ∧ 0 ≤ x ∧ x ≤ r.
Proof.
  intros Hlo Hhi Hr. rewrite sub64_Fin.
  pose proof (Qcminus_nonneg _ _ Hlo) as H0.
  assert (v - min ≤ max - min) as Hle by (by apply Qcplus_le_mono_r).
  pose proof (round64_mono _ _ H0 Hle) as Hm. rewrite Hr in Hm.
  destruct (round64_nonneg _ H0) as [HP|(x & Hx & Hx0)].
  - by rewrite HP in Hm.
  - rewrite Hx in Hm. rewrite leb_Fin in Hm. apply bool_decide_eq_true_1 in Hm.
    by exists x.
Qed.

Lemma div64_unit (x r : Qc) :
  0 ≤ x → x ≤ r → 0 < r → ∃ y, Binary64.div (Fin x) (Fin r) = Fin y ∧ 0 ≤ y ∧ y ≤ 1.
Proof.
  intros Hx Hxr Hr. rewrite div64_Fin by (by apply Qc_lt_ne).
  destruct (Qcdiv_unit x r Hx Hxr Hr) as [H0 H1].
  pose proof (round64_mono _ _ H0 H1) as Hm. rewrite round64_1 in Hm.
  destruct (round64_nonneg _ H0) as [HP|(y & Hy & Hy0)].
  - by rewrite HP in Hm.
  - rewrite Hy in Hm. rewrite leb_Fin in Hm. apply bool_decide_eq_true_1 in Hm.
    by exists y.
Qed.
End NormalizeData64.

(** C4 (amended).  [normalizeData] returns as many numbers as it is given.
    On a frame of doubles with minimum [min] and maximum [max]: when
    [max = min] every output is 0.5.  Otherwise the range is the difference
    [max - min] rounded to a double, which is not 0.  When the range is
    finite, the output for [v] is the quotient of [v - min] by the range,
    each rounded, and it is a number of the unit interval.  When the range
    overflows to [+Infinity], the output for the maximum is [NaN] and every
    other output is 0 or [NaN]. *)
Theorem normalizeData_doubles (data : list num) :
  length (normalizeData data) = length data ∧
  ∀ qs : list Qc, data = Fin <$> qs → qs ≠ [] → Forall is_double qs →
    ∃ min max : Qc,
      Math_min data = Fin min ∧ Math_max data = Fin max ∧
      min ∈ qs ∧ max ∈ qs ∧
      (∀ v, v ∈ qs → (min ≤ v ≤ max)%Qc) ∧
      (max = min → normalizeData data = (λ _, dec 0.5) <$> qs) ∧
      (max ≠ min →
         (∃ range : Qc,
            Binary64.sub (Fin max) (Fin min) = Fin range ∧ (0 < range)%Qc ∧
            normalizeData data =
              (λ v, Binary64.div (Binary64.sub (Fin v) (Fin min)) (Fin range)) <$> qs ∧
            ∀ v, v ∈ qs →
              ∃ y, Binary64.div (Binary64.sub (Fin v) (Fin min)) (Fin range) = Fin y ∧
                   (0 ≤ y ≤ 1)%Qc) ∨
         (Binary64.sub (Fin max) (Fin min) = PInf ∧
          normalizeData data =
            (λ v, Binary64.div (Binary64.sub (Fin v) (Fin min)) PInf) <$> qs ∧
          Binary64.div (Binary64.sub (Fin max) (Fin min)) PInf = NaN ∧
          ∀ v, v ∈ qs →
            Binary64.div (Binary64.sub (Fin v) (Fin min)) PInf = dec 0 ∨
            Binary64.div (Binary64.sub (Fin v) (Fin min)) PInf = NaN)).
Proof.
  split; [apply length_normalizeData|].
  intros [|q qs] -> Hne Hdouble; [done|].
  destruct (Math_min_Fin q qs) as (min & Hmin & Hmin_in & Hmin_le).
  destruct (Math_max_Fin q qs) as (max & Hmax & Hmax_in & Hmax_le).
  exists min, max.
  assert (∀ v, v ∈ q :: qs → (min ≤ v ≤ max)%Qc) as Hle.
  { intros v Hv. split; [by apply Hmin_le | by apply Hmax_le]. }
  split_and!; try done.
  - intros ->. unfold normalizeData. rewrite Hmin, Hmax, sub64_Fin.
    rewrite (proj2 (Qcminus_eq_0 _ _) eq_refl), round64_0.
    change (Fin 0 === dec 0)%num with true. cbv iota.
    by rewrite <-list_fmap_compose.
  - intros Hneq.
    assert (min < max)%Qc as Hlt.
    { apply Qcnot_le_lt. intros Hge. apply Hneq, Qcle_antisym; [done|].
      by apply Hmin_le. }
    rewrite Forall_forall in Hdouble.
    destruct (round64_difference max min (Hdouble _ Hmax_in) (Hdouble _ Hmin_in) Hlt)
      as [Hinf|(range & Hrange & Hpos)].
    + right. rewrite sub64_Fin, Hinf. split_and!; [done| |done|].
      * unfold normalizeData. rewrite Hmin, Hmax, sub64_Fin, Hinf.
        change (PInf === dec 0)%num with false. cbv iota.
        by rewrite <-list_fmap_compose.
      * intros v Hv. rewrite sub64_Fin.
        destruct (round64_nonneg (v - min)) as [->|(x & -> & _)].
        { apply Qcminus_nonneg. by apply Hle. }
        { by right. }
        { left. apply div64_Fin_PInf. }
    + left. exists range. rewrite sub64_Fin. split_and!; [done|done| |].
      * unfold normalizeData. rewrite Hmin, Hmax, sub64_Fin, Hrange.
        rewrite strict_eqb_Fin_0, bool_decide_eq_false_2 by (by apply Qc_lt_ne).
        by rewrite <-list_fmap_compose.
      * intros v Hv. destruct (Hle v Hv) as [Hlo Hhi].
        destruct (sub64_below_range v min max range Hlo Hhi Hrange)
          as (x & -> & Hx0 & Hxr).
        destruct (div64_unit x range Hx0 Hxr Hpos) as (y & Hy & Hy0 & Hy1).
        by exists y.
Qed.

(** C4, as it is written, fails on two kinds of frame.  The maximum of
    [[Infinity, Infinity]] equals its minimum, but the range
    [Infinity - Infinity] is [NaN], which is not 0, and every output is
    [NaN], not 0.5.  The frame [[1e308, -1e308]] is finite and its maximum
    is not its minimum, but the range overflows to [+Infinity], and the
    output for 1e308 is [Infinity / Infinity], which is [NaN] and not in
    the unit interval. *)
Lemma normalizeData_not_unit :
  Math_max [PInf; PInf] = Math_min [PInf; PInf] ∧
  normalizeData [PInf; PInf] = [NaN; NaN] ∧
  is_finite (double 1e308) ∧ is_finite (double (-1e308)) ∧
  normalizeData [double 1e308; double (-1e308)] = [NaN; dec 0].
Proof. split_and!; [done | by_decide | by vm_compute | by vm_compute | by_decide]. Qed.

(** ** getColor *)

Section ClampFacts.
Local Open Scope Qc_scope.

Lemma add_Fin (a b : Qc) : add (Fin a) (Fin b) = Fin (a + b).
Proof. reflexivity. Qed.

Lemma mul_Fin (a b : Qc) : mul (Fin a) (Fin b) = Fin (a * b).
Proof. reflexivity. Qed.

Lemma dec_Qeq (q1 q2 : Q) : (q1 == q2)%Q → dec q1 = dec q2.
Proof. intros Heq. unfold dec. f_equal. by apply Q2Qc_eq_iff. Qed.

Lemma Qc_0_le_1 : (0 : Qc) ≤ 1.
Proof. by compute. Qed.

(** Clamping anything but [NaN] gives a number of the unit interval. *)
Lemma clamp01_range (v : num) :
  v ≠ NaN → ∃ q, clamp01 v = Fin q ∧ 0 ≤ q ≤ 1.
Proof.
  intros Hv. destruct v as [| | |a]; [done| | |].
  - exists 1. split; [reflexivity|]. split; [apply Qc_0_le_1 | apply Qcle_refl].
  - exists 0. split; [reflexivity|]. split; [apply Qcle_refl | apply Qc_0_le_1].
  - unfold clamp01, dec. rewrite max2_Fin.
    case_bool_decide as H0; rewrite min2_Fin; case_bool_decide as H1;
      eexists; (split; [reflexivity|]).
    + split; [apply Qc_0_le_1 | apply Qcle_refl].
    + split; [apply Qcle_refl | apply Qc_0_le_1].
    + split; [apply Qc_0_le_1 | apply Qcle_refl].
    + split; [by apply Qcnot_lt_le | by apply Qcnot_lt_le].
Qed.

Lemma clamp01_unit (q : Qc) : 0 ≤ q ≤ 1 → clamp01 (Fin q) = Fin q.
Proof.
  intros [H0 H1]. unfold clamp01, dec. rewrite max2_Fin.
  rewrite bool_decide_eq_false_2 by (by apply Qcle_not_lt).
  rewrite min2_Fin.
  by rewrite bool_decide_eq_false_2 by (by apply Qcle_not_lt).
Qed.

Lemma clamp01_idemp (v : num) : clamp01 (clamp01 v) = clamp01 v.
Proof.
  destruct (decide (v = NaN)) as [->|Hv]; [reflexivity|].
  destruct (clamp01_range v Hv) as (q & -> & Hq). by apply clamp01_unit.
Qed.

Lemma clamp01_below (v : num) : ltb v (dec 0) = true → clamp01 v = dec 0.
Proof.
  intros Hlt. unfold clamp01.
  assert (max2 v (dec 0) = dec 0) as ->; [|reflexivity].
  unfold max2. rewrite Hlt. by destruct v.
Qed.

Lemma clamp01_above (v : num) : ltb (dec 1) v = true → clamp01 v = dec 1.
Proof.
  intros Hlt. unfold clamp01. destruct v as [| | |a]; try done.
  unfold dec in *. rewrite ltb_Fin in Hlt. apply bool_decide_eq_true in Hlt.
  rewrite max2_Fin, bool_decide_eq_false_2.
  - rewrite min2_Fin. by rewrite bool_decide_eq_true_2.
  - apply Qcle_not_lt, Qclt_le_weak.
    by apply Qcle_lt_trans with (Q2Qc 1); [apply Qc_0_le_1|].
Qed.
End ClampFacts.

Section GetColorFacts.
Context `{!THREE.ColorOps}.
Local Open Scope Qc_scope.

(** With a value that is at most 1 the loop returns from inside: the
    last stop is at 1. *)
Lemma getColor_loop_finds (q : Qc) :
  q ≤ 1 →
  ∃ i prev next,
    colors config !! i = Some prev ∧ colors config !! S i = Some next ∧
    leb (Fin q) next.1 = true ∧
    getColor_loop (colors config) (Fin q) 1 (length (colors config) - 1)
      = Some (interpolate (Fin q) prev next).
Proof.
  intros Hq. cbn [config colors length Nat.sub getColor_loop lookup list_lookup fst].
  destruct (leb (Fin q) (dec 0.25)) eqn:E1.
  { by exists 0%nat, (dec 0.0, 0x0000ff%Z), (dec 0.25, 0x00ffff%Z). }
  destruct (leb (Fin q) (dec 0.5)) eqn:E2.
  { by exists 1%nat, (dec 0.25, 0x00ffff%Z), (dec 0.5, 0x00ff00%Z). }
  destruct (leb (Fin q) (dec 0.75)) eqn:E3.
  { by exists 2%nat, (dec 0.5, 0x00ff00%Z), (dec 0.75, 0xffff00%Z). }
  assert (leb (Fin q) (dec 1.0) = true) as E4.
  { unfold dec. rewrite leb_Fin. by apply bool_decide_eq_true_2. }
  rewrite E4.
  by exists 3%nat, (dec 0.75, 0xffff00%Z), (dec 1.0, 0xff0000%Z).
Qed.

Lemma getColor_clamped (v : num) : getColor v = getColor (clamp01 v).
Proof. unfold getColor, getColor_search. by rewrite clamp01_idemp. Qed.

(** At the position of the lower stop the interpolation factor is 0, at
    the position of the upper stop it is 1, and the colour is built from
    the hue, saturation and lightness of that stop alone. *)
Lemma interpolate_at_prev (a b : Qc) (hex1 hex2 : Z) :
  b ≠ a →
  finite_hsl (THREE.getHSL (THREE.Color_new hex1)) →
  finite_hsl (THREE.getHSL (THREE.Color_new hex2)) →
  interpolate (Fin a) (Fin a, hex1) (Fin b, hex2) =
    let c := THREE.getHSL (THREE.Color_new hex1) in
    THREE.setHSL (THREE.h c) (THREE.s c * dec 1.5)%num (THREE.l c).
Proof.
  intros Hne Hc1 Hc2. unfold interpolate. cbn [fst snd].
  destruct (THREE.getHSL (THREE.Color_new hex1)) as [h1 s1 l1].
  destruct (THREE.getHSL (THREE.Color_new hex2)) as [h2 s2 l2].
  destruct Hc1 as (Hh1 & Hs1 & Hl1), Hc2 as (Hh2 & Hs2 & Hl2).
  cbn [THREE.h THREE.s THREE.l] in *.
  destruct h1 as [| | |h1], s1 as [| | |s1], l1 as [| | |l1]; try done.
  destruct h2 as [| | |h2], s2 as [| | |s2], l2 as [| | |l2]; try done.
  rewrite !sub_Fin, div_Fin by (by rewrite Qcminus_eq_0).
  rewrite !mul_Fin, !add_Fin.
  assert ((a - a) / (b - a) = 0) as -> by (unfold Qcdiv; ring).
  repeat f_equal; ring.
Qed.

Lemma interpolate_at_next (a b : Qc) (hex1 hex2 : Z) :
  b ≠ a →
  finite_hsl (THREE.getHSL (THREE.Color_new hex1)) →
  finite_hsl (THREE.getHSL (THREE.Color_new hex2)) →
  interpolate (Fin b) (Fin a, hex1) (Fin b, hex2) =
    let c := THREE.getHSL (THREE.Color_new hex2) in
    THREE.setHSL (THREE.h c) (THREE.s c * dec 1.5)%num (THREE.l c).
Proof.
  intros Hne Hc1 Hc2. unfold interpolate. cbn [fst snd].
  destruct (THREE.getHSL (THREE.Color_new hex1)) as [h1 s1 l1].
  destruct (THREE.getHSL (THREE.Color_new hex2)) as [h2 s2 l2].
  destruct Hc1 as (Hh1 & Hs1 & Hl1), Hc2 as (Hh2 & Hs2 & Hl2).
  cbn [THREE.h THREE.s THREE.l] in *.
  destruct h1 as [| | |h1], s1 as [| | |s1], l1 as [| | |l1]; try done.
  destruct h2 as [| | |h2], s2 as [| | |s2], l2 as [| | |l2]; try done.
  assert (b - a ≠ 0) as Hd by (by rewrite Qcminus_eq_0).
  rewrite !sub_Fin, div_Fin by done.
  rewrite !mul_Fin, !add_Fin.
  assert ((b - a) / (b - a) = 1) as -> by (by apply Qcmult_inv_r).
  repeat f_equal; ring.
Qed.
(** [getColor(0)] interpolates between the first two stops at the first,
    [getColor(1)] between the last two at the last. *)
Lemma getColor_0 :
  finite_hsl (THREE.getHSL (THREE.Color_new 0x0000ff)) →
  finite_hsl (THREE.getHSL (THREE.Color_new 0x00ffff)) →
  getColor (dec 0) =
    let c := THREE.getHSL (THREE.Color_new 0x0000ff) in
    THREE.setHSL (THREE.h c) (THREE.s c * dec 1.5)%num (THREE.l c).
Proof.
  intros Hc1 Hc2.
  transitivity (interpolate (dec 0.0) (dec 0.0, 0x0000ff%Z) (dec 0.25, 0x00ffff%Z)).
  { rewrite <-(dec_Qeq 0 0.0) by done. reflexivity. }
  by apply (interpolate_at_prev (Q2Qc 0.0) (Q2Qc 0.25)); [Qc_discriminate | |].
Qed.

Lemma getColor_1 :
  finite_hsl (THREE.getHSL (THREE.Color_new 0xffff00)) →
  finite_hsl (THREE.getHSL (THREE.Color_new 0xff0000)) →
  getColor (dec 1) =
    let c := THREE.getHSL (THREE.Color_new 0xff0000) in
    THREE.setHSL (THREE.h c) (THREE.s c * dec 1.5)%num (THREE.l c).
Proof.
  intros Hc1 Hc2.
  transitivity (interpolate (dec 1.0) (dec 0.75, 0xffff00%Z) (dec 1.0, 0xff0000%Z)).
  { rewrite <-(dec_Qeq 1 1.0) by done. reflexivity. }
  by apply (interpolate_at_next (Q2Qc 0.75) (Q2Qc 1.0)); [Qc_discriminate | |].
Qed.
End GetColorFacts.

(** C5.  [getColor(0)] is the first stop's colour and [getColor(1)] the last
    stop's colour, each rebuilt by [setHSL] from the stop's own hue and
    lightness and 1.5 times its saturation.  A value outside the unit
    interval is clamped first: below 0 it is coloured as 0, above 1 as 1.
    No interpolation divides by zero: between two neighbouring stops the
    divisor is a finite number other than 0. *)
Theorem getColor_boundaries `{!THREE.ColorOps} :
  (∀ stop, stop ∈ colors config →
     finite_hsl (THREE.getHSL (THREE.Color_new stop.2))) →
  match head (colors config), last (colors config) with
  | Some first, Some final =>
      let c0 := THREE.getHSL (THREE.Color_new first.2) in
      let c1 := THREE.getHSL (THREE.Color_new final.2) in
      getColor (dec 0) =
        THREE.setHSL (THREE.h c0) (THREE.s c0 * dec 1.5)%num (THREE.l c0) ∧
      getColor (dec 1) =
        THREE.setHSL (THREE.h c1) (THREE.s c1 * dec 1.5)%num (THREE.l c1)
  | _, _ => False
  end ∧
  (∀ v, getColor v = getColor (clamp01 v)) ∧
  (∀ v, ltb v (dec 0) = true → getColor v = getColor (dec 0)) ∧
  (∀ v, ltb (dec 1) v = true → getColor v = getColor (dec 1)) ∧
  (∀ i prev next,
     colors config !! i = Some prev → colors config !! S i = Some next →
     ∃ d, (next.1 - prev.1)%num = Fin d ∧ d ≠ 0%Qc).
Proof.
  intros Hfinite.
  assert (∀ hex t, (t, hex) ∈ colors config →
          finite_hsl (THREE.getHSL (THREE.Color_new hex))) as Hfin.
  { intros hex t Hin. apply (Hfinite _ Hin). }
  split_and!.
  - cbn [config colors head last snd]. split.
    + apply getColor_0.
      * apply (Hfin _ (dec 0.0)). cbn. rewrite !elem_of_cons. tauto.
      * apply (Hfin _ (dec 0.25)). cbn. rewrite !elem_of_cons. tauto.
    + apply getColor_1.
      * apply (Hfin _ (dec 0.75)). cbn. rewrite !elem_of_cons. tauto.
      * apply (Hfin _ (dec 1.0)). cbn. rewrite !elem_of_cons. tauto.
  - apply getColor_clamped.
  - intros v Hv. rewrite getColor_clamped, (getColor_clamped (dec 0)).
    by rewrite (clamp01_below v).
  - intros v Hv. rewrite getColor_clamped, (getColor_clamped (dec 1)).
    by rewrite (clamp01_above v).
  - intros i prev next Hprev Hnext.
    destruct i as [|[|[|[|i]]]]; cbn in Hprev, Hnext;
      simplify_eq; cbn [fst]; unfold dec; rewrite sub_Fin;
      eexists; (split; [reflexivity | Qc_discriminate]).
Qed.

Lemma three_r160_stops_finite (stop : num * Z) :
  stop ∈ colors config →
  finite_hsl (@THREE.getHSL three_r160 (@THREE.Color_new three_r160 stop.2)).
Proof.
  cbn [config colors]. rewrite !elem_of_cons, elem_of_nil.
  intros [->|[->|[->|[->|[->|[]]]]]]; vm_compute; tauto.
Qed.

Lemma getColor_boundaries_witness :
  @getColor three_r160 (dec 0) = @getColor three_r160 (clamp01 (dec 0)) ∧
  ∀ v, ltb (dec 1) v = true → @getColor three_r160 v = @getColor three_r160 (dec 1).
Proof.
  pose proof (@getColor_boundaries three_r160 three_r160_stops_finite)
    as (_ & Hclamp & _ & Habove & _).
  split; [apply Hclamp | apply Habove].
Defined.

(** C10 (amended).  For every value other than [NaN] the loop of [getColor]
    returns from inside: the clamped value is at most 1, the position of the
    last stop, so the colour comes from [interpolate], which multiplies the
    saturation by 1.5, and the trailing [return] is not reached. *)
Theorem getColor_fallback_unreachable `{!THREE.ColorOps} (v : num) :
  v ≠ NaN →
  ∃ i prev next,
    colors config !! i = Some prev ∧ colors config !! S i = Some next ∧
    leb (clamp01 v) next.1 = true ∧
    getColor_search v = Some (interpolate (clamp01 v) prev next) ∧
    getColor v = interpolate (clamp01 v) prev next.
Proof.
  intros Hv. destruct (clamp01_range v Hv) as (q & Hq & _ & Hle).
  destruct (getColor_loop_finds q Hle) as (i & prev & next & H1 & H2 & H3 & H4).
  exists i, prev, next. unfold getColor, getColor_search. rewrite Hq, H4.
  by split_and!.
Qed.

Lemma getColor_fallback_unreachable_witness :
  ∃ i prev next,
    colors config !! i = Some prev ∧ colors config !! S i = Some next ∧
    leb (clamp01 (dec 0.3)) next.1 = true ∧
    @getColor_search three_r160 (dec 0.3)
      = Some (@interpolate three_r160 (clamp01 (dec 0.3)) prev next) ∧
    @getColor three_r160 (dec 0.3)
      = @interpolate three_r160 (clamp01 (dec 0.3)) prev next.
Proof.
  apply (@getColor_fallback_unreachable three_r160 (dec 0.3)). discriminate.
Defined.

(** C10, as it is written, fails at [NaN]: clamping leaves [NaN], no
    comparison with a stop succeeds, and [getColor] returns the last stop's
    colour from its trailing [return].  A frame reaches it:
    [normalizeData] turns [[Infinity, Infinity]] into [[NaN, NaN]]. *)
Lemma getColor_NaN_falls_back :
  clamp01 NaN = NaN ∧
  @getColor_search three_r160 NaN = None ∧
  @getColor three_r160 NaN = @THREE.Color_new three_r160 0xff0000 ∧
  ∃ geometry,
    @createGeometry three_r160 (WaterfallVisualizer_new 800 600)
      (frame_of [PInf; PInf]) = Ok geometry ∧
    color geometry = [(dec 1, dec 0, dec 0); (dec 1, dec 0, dec 0)].
Proof.
  split_and!; [reflexivity | reflexivity | reflexivity |].
  eexists. split; [reflexivity|]. by_decide.
Qed.

(** ** The history: [this.lines], the scene and the store *)

Section ListFacts.
Context {A : Type}.

Lemma filter_all (P : A → Prop) `{!∀ x, Decision (P x)} (l : list A) :
  (∀ x, x ∈ l → P x) → filter P l = l.
Proof.
  induction l as [|x l IH]; intros Hall; [done|].
  rewrite filter_cons_True by apply Hall, list_elem_of_here.
  f_equal. apply IH. intros y Hy. by apply Hall, list_elem_of_further.
Qed.

Lemma filter_ext_in (P1 P2 : A → Prop)
    `{!∀ x, Decision (P1 x), !∀ x, Decision (P2 x)} (l : list A) :
  (∀ x, x ∈ l → P1 x ↔ P2 x) → filter P1 l = filter P2 l.
Proof.
  induction l as [|x l IH]; intros Hiff; [done|].
  rewrite !filter_cons.
  rewrite IH by (intros y Hy; by apply Hiff, list_elem_of_further).
  apply decide_ext, Hiff, list_elem_of_here.
Qed.

Lemma NoDup_reverse_2 (l : list A) : NoDup l → NoDup (reverse l).
Proof. by rewrite reverse_Permutation. Qed.

Lemma pop_snoc (l : list A) (x : A) : pop (l ++ [x]) = (l, Some x).
Proof.
  unfold pop. rewrite last_snoc, length_app. cbn.
  by rewrite take_app_length' by lia.
Qed.

Lemma pop_cons (x : A) (l : list A) :
  ∃ rest oldest, x :: l = rest ++ [oldest] ∧ pop (x :: l) = (rest, Some oldest).
Proof.
  destruct (last (x :: l)) as [oldest|] eqn:Hlast.
  - apply last_Some in Hlast as [rest Hrest]. exists rest, oldest.
    split; [done|]. rewrite Hrest. apply pop_snoc.
  - by apply last_None in Hlast.
Qed.
End ListFacts.

Lemma scene_remove_LineRef (id : nat) (ls : list nat) :
  NoDup ls →
  scene_remove (LineRef id) (LineRef <$> ls) = LineRef <$> filter (λ l, l ≠ id) ls.
Proof.
  induction ls as [|x ls IH]; [done|].
  intros [Hx Hnd]%NoDup_cons. cbn [fmap list_fmap scene_remove].
  destruct (decide (x = id)) as [->|Hne].
  - rewrite decide_True by done. rewrite filter_cons_False by (by intros ?).
    f_equal. symmetry. apply filter_all. by intros y Hy ->.
  - rewrite decide_False by (by intros [= ?]).
    rewrite filter_cons_True by done. cbn. f_equal. by apply IH.
Qed.

Section AdvanceFacts.

Lemma advance_lines v id :
  lines (advance v id) =
    if hits_bottom (objects v) id then filter (λ l, l ≠ id) (lines v)
    else lines v.
Proof.
  unfold advance, hits_bottom. destruct (objects v !! id) as [o|]; [|done].
  cbn. by case_match.
Qed.

Lemma advance_scene v id :
  scene_children (advance v id) =
    if hits_bottom (objects v) id
    then scene_remove (LineRef id) (scene_children v)
    else scene_children v.
Proof.
  unfold advance, hits_bottom. destruct (objects v !! id) as [o|]; [|done].
  cbn. by case_match.
Qed.

Lemma advance_objects v id :
  objects (advance v id) =
    match objects v !! id with
    | Some o => <[id := moved o]> (objects v)
    | None => objects v
    end.
Proof.
  unfold advance. destruct (objects v !! id) as [o|]; [|done].
  by case_match.
Qed.

Lemma advance_container v id :
  clientWidth (advance v id) = clientWidth v ∧
  clientHeight (advance v id) = clientHeight v ∧
  next_id (advance v id) = next_id v.
Proof.
  unfold advance. destruct (objects v !! id) as [o|]; [|done].
  by case_match.
Qed.

Lemma advance_objects_ne v id id' :
  id' ≠ id → objects (advance v id) !! id' = objects v !! id'.
Proof.
  intros Hne. rewrite advance_objects.
  destruct (objects v !! id); [|done]. by rewrite lookup_insert_ne.
Qed.

Lemma advance_objects_eq v id :
  objects (advance v id) !! id = moved <$> objects v !! id.
Proof.
  rewrite advance_objects.
  destruct (objects v !! id) eqn:Hid; [|done]. by rewrite lookup_insert_eq.
Qed.

Lemma hits_bottom_advance_ne v id id' :
  id' ≠ id →
  hits_bottom (objects (advance v id)) id' = hits_bottom (objects v) id'.
Proof. intros Hne. unfold hits_bottom. by rewrite advance_objects_ne. Qed.

(** The walk of [forEach] over [snap] removes from [this.lines] the
    lines of [snap] that hit the bottom, and no other. *)
Lemma foldl_advance_lines snap v :
  NoDup snap →
  lines (foldl advance v snap) =
    filter (λ id, ¬ (id ∈ snap ∧ hits_bottom (objects v) id)) (lines v).
Proof.
  revert v. induction snap as [|a snap IH]; intros v Hnd.
  - cbn. symmetry. apply filter_all. intros x _ [Hx _].
    by apply elem_of_nil in Hx.
  - apply NoDup_cons in Hnd as [Ha Hnd]. cbn [foldl]. rewrite IH by done.
    rewrite advance_lines.
    destruct (hits_bottom (objects v) a) eqn:Hhit.
    + rewrite list_filter_filter. apply list_filter_iff. intros x.
      rewrite elem_of_cons. split.
      * intros [Hx Hxa] [[->|Hin] Hb]; [done|].
        apply Hx. split; [done|]. rewrite hits_bottom_advance_ne; [done|].
        by intros ->.
      * intros Hx. split.
        -- intros [Hin Hb]. apply Hx. split; [by right|].
           rewrite hits_bottom_advance_ne in Hb; [done|]. by intros ->.
        -- intros ->. apply Hx. split; [by left|]. by rewrite Hhit.
    + apply list_filter_iff. intros x. rewrite elem_of_cons. split.
      * intros Hx [[->|Hin] Hb]; [by rewrite Hhit in Hb|].
        apply Hx. split; [done|]. rewrite hits_bottom_advance_ne; [done|].
        by intros ->.
      * intros Hx [Hin Hb]. apply Hx. split; [by right|].
        rewrite hits_bottom_advance_ne in Hb; [done|]. by intros ->.
Qed.

(** ... and moves every line of [snap] down by one [spacing]. *)
Lemma foldl_advance_objects snap v id :
  NoDup snap →
  objects (foldl advance v snap) !! id =
    if decide (id ∈ snap) then moved <$> objects v !! id
    else objects v !! id.
Proof.
  revert v. induction snap as [|a snap IH]; intros v Hnd.
  - cbn. rewrite decide_False; [done|]. apply not_elem_of_nil.
  - apply NoDup_cons in Hnd as [Ha Hnd]. cbn [foldl]. rewrite IH by done.
    destruct (decide (id = a)) as [->|Hne].
    + rewrite decide_False by done. rewrite decide_True by apply list_elem_of_here.
      apply advance_objects_eq.
    + rewrite advance_objects_ne by done.
      destruct (decide (id ∈ snap)) as [Hin|Hnin].
      * by rewrite decide_True by (by apply list_elem_of_further).
      * rewrite decide_False; [done|]. rewrite elem_of_cons. tauto.
Qed.

Lemma foldl_advance_container snap v :
  clientWidth (foldl advance v snap) = clientWidth v ∧
  clientHeight (foldl advance v snap) = clientHeight v ∧
  next_id (foldl advance v snap) = next_id v.
Proof.
  revert v. induction snap as [|a snap IH]; intros v; [done|].
  cbn [foldl]. destruct (IH (advance v a)) as (-> & -> & ->).
  apply advance_container.
Qed.
End AdvanceFacts.

Section WellFormed.
Context `{!THREE.ColorOps}.

Lemma moved_finite (o : Line) (q : Qc) :
  position_y o = Fin q → position_y (moved o) = Fin (q - 1)%Qc.
Proof.
  intros Hy. unfold moved. cbn [position_y set_position_y config spacing].
  rewrite Hy. unfold dec. rewrite sub_Fin. f_equal; by apply Qc_is_canon.
Qed.

Lemma well_formed_new width height :
  well_formed (WaterfallVisualizer_new width height).
Proof.
  split; cbn.
  - apply NoDup_nil_2.
  - done.
  - intros id Hid. by apply elem_of_nil in Hid.
  - intros id [o Ho]. by rewrite lookup_empty in Ho.
Qed.

Lemma well_formed_resized width height v :
  well_formed v → well_formed (container_resized width height v).
Proof. intros [H1 H2 H3 H4]. by split. Qed.

Lemma well_formed_container width height v :
  well_formed v → well_formed (set_container width height v).
Proof. intros [H1 H2 H3 H4]. by split. Qed.

Lemma well_formed_onResize v : well_formed v → well_formed (onResize v).
Proof. intros [H1 H2 H3 H4]. by split. Qed.

Lemma well_formed_advance v id :
  well_formed v → well_formed (advance v id).
Proof.
  intros [Hnd Hscene Hlines Hfresh]. split.
  - rewrite advance_lines. case_match; [by apply NoDup_filter | done].
  - rewrite advance_scene, advance_lines, Hscene. case_match; [|done].
    cbn [scene_remove]. rewrite decide_False by done. f_equal.
    rewrite scene_remove_LineRef by (by apply NoDup_reverse_2).
    by rewrite filter_reverse.
  - intros id' Hid'.
    assert (id' ∈ lines v) as Hin.
    { rewrite advance_lines in Hid'. case_match; [|done].
      by apply list_elem_of_filter in Hid' as [_ ?]. }
    destruct (Hlines id' Hin) as (o & q & Ho & Hq).
    destruct (decide (id' = id)) as [->|Hne].
    + exists (moved o), (q - 1)%Qc. rewrite advance_objects_eq, Ho.
      split; [done | by apply moved_finite].
    + exists o, q. by rewrite advance_objects_ne.
  - intros id' Hsome.
    destruct (advance_container v id) as (_ & _ & ->). apply Hfresh.
    destruct (decide (id' = id)) as [->|Hne].
    + rewrite advance_objects_eq in Hsome. by apply fmap_is_Some in Hsome.
    + by rewrite advance_objects_ne in Hsome.
Qed.

Lemma well_formed_foldl_advance snap v :
  well_formed v → well_formed (foldl advance v snap).
Proof.
  revert v. induction snap as [|a snap IH]; intros v Hwf; [done|].
  cbn [foldl]. by apply IH, well_formed_advance.
Qed.
End WellFormed.

Section AddDataFacts.
Context `{!THREE.ColorOps}.

Lemma well_formed_add_line v geometry :
  well_formed v → well_formed (add_line v geometry).
Proof.
  intros [Hnd Hscene Hlines Hfresh].
  split; unfold add_line; cbn [scene_children lines objects next_id].
  - apply NoDup_cons. split; [|done]. intros Hin.
    destruct (Hlines _ Hin) as (o & q & Ho & _).
    assert (next_id v < next_id v) by (by apply Hfresh; exists o). lia.
  - by rewrite Hscene, reverse_cons, fmap_app.
  - intros id [->|Hin]%elem_of_cons.
    + eexists _, _. rewrite lookup_insert_eq. split; [done|]. reflexivity.
    + destruct (Hlines _ Hin) as (o & q & Ho & Hq). exists o, q.
      rewrite lookup_insert_ne; [done|]. intros <-.
      assert (next_id v < next_id v) by (by apply Hfresh; exists o). lia.
  - intros id [->|[Hne Hsome]]%lookup_insert_is_Some; [lia|].
    apply Hfresh in Hsome. lia.
Qed.

Lemma remove_oldest_lines v : lines (remove_oldest v) = trimmed (lines v).
Proof.
  unfold remove_oldest, trimmed. case_decide as Hlen; [|done].
  destruct (lines v) as [|x l] eqn:Hl; [cbn in Hlen; lia|].
  destruct (pop_cons x l) as (rest & oldest & Hrest & Hpop).
  rewrite Hpop. cbn [set_scene set_lines lines].
  rewrite Hrest, length_app. cbn [length].
  by rewrite take_app_length' by lia.
Qed.

Lemma remove_oldest_objects v :
  objects (remove_oldest v) = objects v ∧
  clientWidth (remove_oldest v) = clientWidth v ∧
  clientHeight (remove_oldest v) = clientHeight v ∧
  next_id (remove_oldest v) = next_id v.
Proof.
  unfold remove_oldest. case_decide; [|done].
  by destruct (pop (lines v)) as [rest [oldest|]].
Qed.

Lemma trimmed_prefix (ls : list nat) : ∃ dropped, ls = trimmed ls ++ dropped.
Proof.
  unfold trimmed. case_decide.
  - exists (drop (length ls - 1) ls). by rewrite take_drop.
  - exists []. by rewrite app_nil_r.
Qed.

Lemma well_formed_remove_oldest v :
  well_formed v → well_formed (remove_oldest v).
Proof.
  intros [Hnd Hscene Hlines Hfresh]. unfold remove_oldest.
  case_decide as Hlen; [|by split].
  destruct (lines v) as [|x l] eqn:Hl; [cbn in Hlen; lia|].
  destruct (pop_cons x l) as (rest & oldest & Hrest & Hpop).
  rewrite Hpop. rewrite Hrest in Hnd.
  apply NoDup_app in Hnd as (Hnd & _ & _).
  split; cbn [set_scene set_lines scene_children lines objects next_id].
  - done.
  - rewrite Hscene, Hrest, reverse_snoc. cbn [fmap list_fmap scene_remove].
    rewrite decide_False by done. by rewrite decide_True.
  - intros id Hid. apply Hlines. rewrite Hrest, elem_of_app. by left.
  - done.
Qed.

(** What one call of [addData] does to a well-formed visualizer: a single
    pass over the trimmed array, moving every line of it down and keeping
    those that did not hit the bottom. *)
Lemma addData_spec v frame v' :
  well_formed v → addData v frame = Ok v' →
  ∃ geometry,
    createGeometry v frame = Ok geometry ∧
    let objs := objects (add_line v geometry) in
    let snap := trimmed (next_id v :: lines v) in
    lines v' = filter (λ id, ¬ hits_bottom objs id) snap ∧
    (∀ id, objects v' !! id =
             if decide (id ∈ snap) then moved <$> objs !! id else objs !! id) ∧
    next_id v' = S (next_id v) ∧
    clientWidth v' = clientWidth v ∧
    clientHeight v' = clientHeight v ∧
    well_formed v'.
Proof.
  intros Hwf. unfold addData.
  destruct (createGeometry v frame) as [geometry|e]; [|done].
  cbn [mbind result_bind]. intros [= <-]. exists geometry. split; [done|].
  pose proof (well_formed_add_line v geometry Hwf) as Hwf1.
  pose proof (well_formed_remove_oldest _ Hwf1) as Hwf2.
  destruct (remove_oldest_objects (add_line v geometry)) as (Hobjs & Hw & Hh & Hn).
  destruct (foldl_advance_container
              (lines (remove_oldest (add_line v geometry)))
              (remove_oldest (add_line v geometry))) as (Hw' & Hh' & Hn').
  pose proof (remove_oldest_lines (add_line v geometry)) as Hsnap.
  cbn [add_line lines] in Hsnap.
  split_and!.
  - rewrite foldl_advance_lines by apply (wf_NoDup _ Hwf2). rewrite Hobjs, Hsnap.
    apply filter_ext_in. intros id Hin. split.
    + intros Hid Hhit. apply Hid. by split.
    + intros Hid [_ Hhit]. by apply Hid.
  - intros id. rewrite foldl_advance_objects by apply (wf_NoDup _ Hwf2).
    by rewrite Hobjs, Hsnap.
  - by rewrite Hn', Hn.
  - by rewrite Hw', Hw.
  - by rewrite Hh', Hh.
  - by apply well_formed_foldl_advance.
Qed.

(** [addData] returns as soon as the frame has a [waterfall] array, and
    throws before it writes anything when it has none. *)
Lemma addData_returns v frame samples :
  waterfall frame = Some samples → ∃ v', addData v frame = Ok v'.
Proof. intros Hw. unfold addData, createGeometry. rewrite Hw. by eexists. Qed.

Lemma addData_throws v frame :
  waterfall frame = None →
  addData v frame = Throw (TypeError "data.waterfall is not iterable").
Proof. intros Hw. unfold addData, createGeometry. by rewrite Hw. Qed.

Lemma reachable_well_formed v : reachable v → well_formed v.
Proof.
  induction 1 as [width height|v v' _ IH Hstep].
  - apply well_formed_new.
  - destruct Hstep as [v frame v' Hadd|v width height|v width height|v].
    + by destruct (addData_spec _ _ _ IH Hadd) as (_ & _ & _ & _ & _ & _ & _ & ?).
    + by apply well_formed_resized.
    + by apply well_formed_container.
    + by apply well_formed_onResize.
Qed.
End AddDataFacts.

(** ** Scrolling at a fixed container size *)

Section CountdownFacts.

Lemma length_countdown top m : length (countdown top m) = m.
Proof. revert top. induction m as [|m IH]; intros top; cbn; [done|]. by rewrite IH. Qed.

Lemma elem_of_countdown top m x : x ∈ countdown top m → x ≤ top.
Proof.
  revert top. induction m as [|m IH]; intros top; cbn.
  - by intros ?%elem_of_nil.
  - intros [->|Hx]%elem_of_cons; [done|]. apply IH in Hx. lia.
Qed.

Lemma take_countdown top m k : take k (countdown top m) = countdown top (min k m).
Proof.
  revert top k. induction m as [|m IH]; intros top [|k]; cbn; try done.
  by rewrite IH.
Qed.

Lemma head_countdown top m : 0 < m → head (countdown top m) = Some top.
Proof. destruct m; [lia|done]. Qed.

(** The lines at or above a level are the first ones. *)
Lemma filter_countdown top m c :
  m ≤ S top →
  filter (λ id, c ≤ id) (countdown top m) = countdown top (min m (S top - c)).
Proof.
  revert top. induction m as [|m IH]; intros top Hm; [done|].
  cbn [countdown]. destruct (decide (c ≤ top)) as [Hc|Hc].
  - rewrite filter_cons_True by done. rewrite IH by lia.
    replace (min (S m) (S top - c)) with (S (min m (S (top - 1) - c))) by lia.
    done.
  - rewrite filter_cons_False by done. rewrite IH by lia.
    replace (min m (S (top - 1) - c)) with 0 by lia.
    by replace (min (S m) (S top - c)) with 0 by lia.
Qed.

Lemma trimmed_countdown top m :
  m ≤ S (maxLines config) →
  trimmed (countdown top m) = countdown top (min m (maxLines config)).
Proof.
  intros Hm. unfold trimmed. rewrite length_countdown. case_decide.
  - rewrite take_countdown. f_equal. lia.
  - f_equal. lia.
Qed.
End CountdownFacts.

Section ScrollFacts.
Context `{!THREE.ColorOps}.

Lemma of_Z_sub_spacing (a : Z) : (of_Z a - spacing config)%num = of_Z (a - 1).
Proof.
  unfold of_Z. cbn [config spacing]. unfold dec. rewrite sub_Fin. f_equal.
  rewrite Z2Qc_inj_sub, Z2Qc_inj_1. f_equal; by apply Qc_is_canon.
Qed.

Lemma ltb_of_Z_bottom (a : Z) :
  (of_Z a <? - spacing config)%num = bool_decide (a < -1)%Z.
Proof.
  unfold of_Z. cbn [config spacing]. unfold dec, neg. rewrite ltb_Fin.
  apply bool_decide_ext.
  replace (- Q2Qc 1.0)%Qc with (Qc_of_Z (-1)) by (by apply Qc_is_canon).
  symmetry. apply Z2Qc_inj_lt.
Qed.

Lemma hits_bottom_of_Z objs id o (a : Z) :
  objs !! id = Some o → position_y o = of_Z a →
  hits_bottom objs id = bool_decide (a < 0)%Z.
Proof.
  intros Ho Hy. unfold hits_bottom, moved. rewrite Ho.
  cbn [position_y set_position_y]. rewrite Hy, of_Z_sub_spacing, ltb_of_Z_bottom.
  apply bool_decide_ext. lia.
Qed.

Lemma scrolled_new width height :
  scrolled width height 0 (WaterfallVisualizer_new width height).
Proof.
  split; try done.
  - apply well_formed_new.
  - intros id Hid. by apply elem_of_nil in Hid.
Qed.

(** One more frame. *)
Lemma scrolled_addData width height n v frame v' :
  scrolled width height n v → addData v frame = Ok v' →
  scrolled width height (S n) v'.
Proof.
  intros [Hwf Hw Hh Hn Hl Hy] Hadd.
  destruct (addData_spec _ _ _ Hwf Hadd)
    as (g & Hg & Hlines & Hobjs & Hn' & Hw' & Hh' & Hwf').
  cbn zeta in Hlines, Hobjs.
  set (m := min n (min (maxLines config) (S height))) in *.
  set (m1 := min (S m) (maxLines config)).
  assert (trimmed (next_id v :: lines v) = countdown n m1) as Hsnap.
  { rewrite Hn, Hl. change (n :: countdown (n - 1) m) with (countdown n (S m)).
    apply trimmed_countdown. lia. }
  rewrite Hsnap in Hlines, Hobjs.
  assert (∀ id, id ∈ countdown n m1 →
            ∃ o, objects (add_line v g) !! id = Some o ∧
                 position_y o = of_Z (Z.of_nat height - (Z.of_nat n - Z.of_nat id)))
    as Hsnap_y.
  { intros id Hid. rewrite <-Hsnap in Hid.
    destruct (trimmed_prefix (next_id v :: lines v)) as [dropped Hdrop].
    assert (id ∈ next_id v :: lines v) as Hin
      by (rewrite Hdrop, elem_of_app; by left).
    unfold add_line. cbn [objects].
    apply elem_of_cons in Hin as [->|Hin].
    - rewrite lookup_insert_eq. eexists. split; [done|]. cbn [position_y].
      rewrite Hh, Hn. unfold of_nat. f_equal. lia.
    - destruct (Hy id Hin) as (o & Ho & Hpos). exists o. split; [|done].
      rewrite lookup_insert_ne; [done|]. intros <-.
      assert (next_id v < next_id v); [|lia].
      apply (wf_fresh _ Hwf). by exists o. }
  split; try congruence.
  - rewrite Hlines.
    rewrite (filter_ext_in _ (λ id, n - height ≤ id)).
    + rewrite filter_countdown by lia. cbn [Nat.sub]. rewrite Nat.sub_0_r.
      f_equal. lia.
    + intros id Hid. destruct (Hsnap_y id Hid) as (o & Ho & Hpos).
      rewrite (hits_bottom_of_Z _ _ _ _ Ho Hpos).
      apply elem_of_countdown in Hid.
      rewrite bool_decide_spec. lia.
  - intros id Hid. rewrite Hlines in Hid.
    apply list_elem_of_filter in Hid as [_ Hid].
    destruct (Hsnap_y id Hid) as (o & Ho & Hpos).
    exists (moved o). rewrite Hobjs, decide_True, Ho by done. split; [done|].
    unfold moved. cbn [position_y set_position_y].
    rewrite Hpos, of_Z_sub_spacing. f_equal. lia.
Qed.
End ScrollFacts.

Section RunFacts.
Context `{!THREE.ColorOps}.

Lemma run_app v frames1 frames2 :
  run v (frames1 ++ frames2) = v' ← run v frames1; run v' frames2.
Proof.
  revert v. induction frames1 as [|frame frames1 IH]; intros v; [done|].
  cbn [app run]. destruct (addData v frame) as [v'|e]; [|done]. apply IH.
Qed.

Lemma run_scrolled width height n v frames :
  scrolled width height n v →
  (∀ frame, frame ∈ frames → is_Some (waterfall frame)) →
  ∃ v', run v frames = Ok v' ∧ scrolled width height (n + length frames) v'.
Proof.
  revert n v. induction frames as [|frame frames IH]; intros n v Hv Hframes.
  - exists v. split; [done|]. by rewrite Nat.add_0_r.
  - destruct (Hframes frame) as [samples Hsamples]; [apply list_elem_of_here|].
    destruct (addData_returns v frame samples Hsamples) as [v1 Hadd].
    destruct (IH (S n) v1) as (v' & Hrun & Hv').
    { by apply scrolled_addData with v frame. }
    { intros f Hf. by apply Hframes, list_elem_of_further. }
    exists v'. cbn [run length]. rewrite Hadd. cbn [mbind result_bind].
    split; [done|]. by rewrite Nat.add_succ_r.
Qed.

Lemma createGeometry_width v1 v2 frame :
  clientWidth v1 = clientWidth v2 →
  createGeometry v1 frame = createGeometry v2 frame.
Proof. intros Hw. unfold createGeometry. by rewrite Hw. Qed.

(** The line [addData] creates holds the geometry built from the frame. *)
Lemma addData_newest v frame v' :
  well_formed v → addData v frame = Ok v' →
  ∃ g o, createGeometry v frame = Ok g ∧
         objects v' !! next_id v = Some o ∧ geometry o = g.
Proof.
  intros Hwf Hadd.
  destruct (addData_spec _ _ _ Hwf Hadd) as (g & Hg & _ & Hobjs & _).
  cbn zeta in Hobjs. specialize (Hobjs (next_id v)).
  unfold add_line in Hobjs. cbn [objects] in Hobjs.
  rewrite lookup_insert_eq in Hobjs.
  exists g. case_decide; eexists; (split; [done|]); (split; [exact Hobjs|done]).
Qed.

(** The lines that exist keep their geometry. *)
Lemma addData_keeps_geometry v frame v' id o :
  well_formed v → addData v frame = Ok v' → objects v !! id = Some o →
  ∃ o', objects v' !! id = Some o' ∧ geometry o' = geometry o.
Proof.
  intros Hwf Hadd Ho.
  destruct (addData_spec _ _ _ Hwf Hadd) as (g & Hg & _ & Hobjs & _).
  cbn zeta in Hobjs. specialize (Hobjs id).
  unfold add_line in Hobjs. cbn [objects] in Hobjs.
  rewrite lookup_insert_ne, Ho in Hobjs.
  - case_decide; eexists; (split; [exact Hobjs|done]).
  - intros <-. assert (next_id v < next_id v); [|lia].
    apply (wf_fresh _ Hwf). by exists o.
Qed.
End RunFacts.

(** ** The claims on the history *)

Lemma length_trimmed (ls : list nat) :
  length ls ≤ S (maxLines config) → length (trimmed ls) ≤ maxLines config.
Proof.
  intros Hlen. unfold trimmed. case_decide; [|lia].
  rewrite length_take. lia.
Qed.

(** C2.  From a new visualizer, whatever frames are added and however the
    container is resized in between, [this.lines] never holds more than
    [maxLines] lines, and [maxLines] is 5000. *)
Theorem history_bounded `{!THREE.ColorOps} (v : WaterfallVisualizer) :
  reachable v → length (lines v) ≤ maxLines config ∧ maxLines config = 5000.
Proof.
  intros Hreach. split; [|done].
  induction Hreach as [width height|v v' Hv IH Hstep].
  - cbn. lia.
  - destruct Hstep as [v frame v' Hadd|v width height|v width height|v];
      [|done..].
    destruct (addData_spec _ _ _ (reachable_well_formed _ Hv) Hadd)
      as (g & _ & Hlines & _).
    cbn zeta in Hlines. rewrite Hlines.
    etrans; [apply length_filter|]. apply length_trimmed. cbn [length]. lia.
Qed.

Lemma history_bounded_witness :
  ∃ v, @addData three_r160 (WaterfallVisualizer_new 800 600) frame100 = Ok v ∧
       length (lines v) ≤ maxLines config.
Proof.
  destruct (@addData_returns three_r160 (WaterfallVisualizer_new 800 600)
              frame100 _ eq_refl) as [v Hv].
  exists v. split; [exact Hv|].
  apply (@history_bounded three_r160).
  apply reachable_step with (WaterfallVisualizer_new 800 600).
  - apply reachable_new.
  - by apply step_addData with frame100.
Defined.

Section DepthFacts.
Local Open Scope Qc_scope.

Lemma within_depth (height : nat) (q : Qc) :
  (Fin q <? - spacing config)%num = false →
  (of_nat height - spacing config - Fin q <=? of_nat height)%num = true.
Proof.
  cbn [config spacing]. unfold of_nat, of_Z, dec, neg.
  rewrite ltb_Fin, !sub_Fin, leb_Fin.
  intros Hlt%bool_decide_eq_false. apply bool_decide_eq_true.
  apply Qcnot_lt_le in Hlt. generalize dependent (Q2Qc 1.0).
  generalize (Qc_of_Z (Z.of_nat height)). intros a b Hlt.
  replace (a - b - q) with (a + (- b - q)) by ring.
  rewrite <-(Qcplus_0_r a) at 2. apply Qcplus_le_mono_l.
  apply (Qcplus_le_mono_r _ _ (- q)) in Hlt. by rewrite Qcplus_opp_r in Hlt.
Qed.
End DepthFacts.

(** C7.  After every [addData], every line left in [this.lines] is within
    the visible depth, the lower edge of the container plus one [spacing]
    ([position.y] is not below [-spacing]); the scene shows these lines and
    no other line, so a line that went past the depth in this call is in
    neither. *)
Theorem depth_bounded `{!THREE.ColorOps} (v v' : WaterfallVisualizer)
    (frame : SpectrumFrame) :
  reachable v → addData v frame = Ok v' →
  (∀ id, id ∈ lines v' →
     ∃ o, objects v' !! id = Some o ∧
          (position_y o <? - spacing config)%num = false ∧
          leb (verticalOffset v' o) (maxVisibleDepth v') = true) ∧
  (∀ id, LineRef id ∈ scene_children v' ↔ id ∈ lines v') ∧
  (∀ id o, objects v' !! id = Some o →
     (position_y o <? - spacing config)%num = true →
     (id ∉ lines v') ∧ (LineRef id ∉ scene_children v')).
Proof.
  intros Hv Hadd. pose proof (reachable_well_formed _ Hv) as Hwf.
  destruct (addData_spec _ _ _ Hwf Hadd)
    as (g & Hg & Hlines & Hobjs & _ & _ & _ & Hwf').
  cbn zeta in Hlines, Hobjs.
  assert (∀ id, id ∈ lines v' →
     ∃ o, objects v' !! id = Some o ∧
          (position_y o <? - spacing config)%num = false ∧
          leb (verticalOffset v' o) (maxVisibleDepth v') = true) as Hdepth.
  { intros id Hid. destruct (wf_lines _ Hwf' id Hid) as (o & q & Ho & Hq).
    exists o. split; [done|].
    assert ((position_y o <? - spacing config)%num = false) as Hy.
    { rewrite Hlines in Hid. apply list_elem_of_filter in Hid as [Hhit Hin].
      rewrite Hobjs, decide_True in Ho by done.
      unfold hits_bottom in Hhit.
      destruct (objects (add_line v g) !! id) as [o0|]; [|done].
      injection Ho as <-. by apply negb_prop_intro, Is_true_true, negb_true_iff in Hhit. }
    split; [done|]. unfold verticalOffset, maxVisibleDepth.
    rewrite Hq in *. by apply within_depth. }
  assert (∀ id, LineRef id ∈ scene_children v' ↔ id ∈ lines v') as Hscene.
  { intros id. rewrite (wf_scene _ Hwf'), elem_of_cons.
    rewrite (list_elem_of_fmap_inj LineRef), elem_of_reverse. split; [|by right].
    by intros [?|?]. }
  split_and!; [done | done |].
  intros id o Ho Hy.
  assert (id ∉ lines v') as Hnot.
  { intros Hid. destruct (Hdepth id Hid) as (o' & Ho' & Hy' & _). congruence. }
  split; [done|]. by rewrite Hscene.
Qed.

Lemma depth_bounded_witness :
  ∃ v', @addData three_r160 (WaterfallVisualizer_new 800 600) frame100 = Ok v' ∧
        ∀ id, LineRef id ∈ scene_children v' ↔ id ∈ lines v'.
Proof.
  destruct (@addData_returns three_r160 (WaterfallVisualizer_new 800 600)
              frame100 _ eq_refl) as [v' Hv'].
  exists v'. split; [exact Hv'|].
  apply (@depth_bounded three_r160 (WaterfallVisualizer_new 800 600) v' frame100
           (reachable_new 800 600) Hv').
Defined.

(** ** createGeometry *)

Section GeometryFacts.
Context `{!THREE.ColorOps}.
Local Open Scope Qc_scope.

Lemma Qc_of_Z_le (a b : Z) : (a ≤ b)%Z → Qc_of_Z a ≤ Qc_of_Z b.
Proof. apply (proj1 (Z2Qc_inj_le _ _)). Qed.

Lemma Qc_of_Z_nonneg (a : Z) : (0 ≤ a)%Z → 0 ≤ Qc_of_Z a.
Proof. intros Ha. rewrite <-Z2Qc_inj_0. by apply Qc_of_Z_le. Qed.

Lemma Qc_of_Z_pos (a : Z) : (0 < a)%Z → 0 < Qc_of_Z a.
Proof. intros Ha. rewrite <-Z2Qc_inj_0. by apply (proj1 (Z2Qc_inj_lt _ _)). Qed.

Lemma createGeometry_position v frame samples g :
  waterfall frame = Some samples → createGeometry v frame = Ok g →
  let spectrum := normalizeData samples in
  let xScale := (of_nat (clientWidth v) / (of_nat (length spectrum) - dec 1))%num in
  position g =
    imap (λ i y, (of_nat i * xScale, dec 0, y * zScale config)%num) spectrum.
Proof. intros Hw. unfold createGeometry. rewrite Hw. by intros [= <-]. Qed.

Lemma xScale_Fin (width n : nat) :
  (2 ≤ n)%nat →
  (of_nat width / (of_nat n - dec 1))%num =
    Fin (Qc_of_Z (Z.of_nat width) / Qc_of_Z (Z.of_nat n - 1)) ∧
  0 < Qc_of_Z (Z.of_nat n - 1).
Proof.
  intros Hn.
  assert (0 < Qc_of_Z (Z.of_nat n - 1)) as Hpos.
  { apply Qc_of_Z_pos. lia. }
  split; [|done]. unfold of_nat, of_Z, dec. rewrite sub_Fin.
  replace (Qc_of_Z (Z.of_nat n) - Q2Qc 1) with (Qc_of_Z (Z.of_nat n - 1))
    by (by rewrite Z2Qc_inj_sub, Z2Qc_inj_1).
  apply div_Fin. intros H0. rewrite H0 in Hpos. by apply Qclt_not_eq in Hpos.
Qed.

(** With two samples or more the abscissas run from 0 to the width of the
    container. *)
Lemma createGeometry_span v frame samples g :
  waterfall frame = Some samples → (2 ≤ length samples)%nat →
  createGeometry v frame = Ok g →
  length (position g) = length samples ∧
  (∃ z, head (position g) = Some (dec 0, dec 0, z)) ∧
  (∃ z, last (position g) = Some (of_nat (clientWidth v), dec 0, z)) ∧
  (∀ p, p ∈ position g →
     ∃ x, p.1.1 = Fin x ∧ 0 ≤ x ≤ Qc_of_Z (Z.of_nat (clientWidth v))).
Proof.
  intros Hw Hlen Hg. rewrite (createGeometry_position _ _ _ _ Hw Hg).
  cbn zeta. rewrite length_imap, length_normalizeData.
  destruct (xScale_Fin (clientWidth v) (length samples) Hlen) as [-> Hd].
  set (W := Qc_of_Z (Z.of_nat (clientWidth v))).
  set (d := Qc_of_Z (Z.of_nat (length samples) - 1)) in *.
  assert (d ≠ 0) as Hd0 by (intros H0; rewrite H0 in Hd; by apply Qclt_not_eq in Hd).
  assert (0 ≤ W) as HW by (apply Qc_of_Z_nonneg; lia).
  assert (0 ≤ W / d) as HWd.
  { apply Qcmult_nonneg_nonneg; [done|]. by apply Qclt_le_weak, Qcinv_pos. }
  pose proof (length_normalizeData samples) as Hspec.
  split_and!.
  - done.
  - destruct (normalizeData samples) as [|y spectrum]; [cbn in Hspec; lia|].
    exists (y * zScale config)%num. cbn [imap head]. unfold of_nat, of_Z.
    rewrite mul_Fin. repeat f_equal. unfold dec. f_equal.
    change (Z.of_nat 0) with 0%Z. rewrite Z2Qc_inj_0. ring.
  - rewrite last_lookup, length_imap, list_lookup_imap, Hspec.
    destruct (lookup_lt_is_Some_2 (normalizeData samples)
                (pred (length samples))) as [y Hy]; [lia|].
    rewrite Hy. exists (y * zScale config)%num. cbn [fmap option_fmap option_map].
    unfold of_nat, of_Z. rewrite mul_Fin. repeat f_equal.
    replace (Z.of_nat (pred (length samples))) with (Z.of_nat (length samples) - 1)%Z
      by lia.
    by apply Qcmult_div_r.
  - intros p [i Hi]%list_elem_of_lookup. rewrite list_lookup_imap in Hi.
    destruct (normalizeData samples !! i) as [y|] eqn:Hy; [|done].
    injection Hi as <-. apply lookup_lt_Some in Hy. rewrite Hspec in Hy.
    cbn [fst]. unfold of_nat, of_Z. rewrite mul_Fin. eexists. split; [done|].
    assert (0 ≤ Qc_of_Z (Z.of_nat i)) as Hi0 by (apply Qc_of_Z_nonneg; lia).
    assert (Qc_of_Z (Z.of_nat i) ≤ d) as Hid by (apply Qc_of_Z_le; lia).
    split; [by apply Qcmult_nonneg_nonneg|].
    rewrite <-(Qcmult_div_r W d) at 2 by done.
    by apply Qcmult_le_mono_nonneg_r.
Qed.

(** With one sample the divisor is 0 and the abscissa is [NaN]; with none
    the geometry is empty. *)
Lemma createGeometry_short v frame samples g :
  waterfall frame = Some samples → (length samples < 2)%nat →
  createGeometry v frame = Ok g →
  (samples = [] ∧ position g = []) ∨
  (∃ y z, samples = [y] ∧ position g = [(NaN, dec 0, z)]).
Proof.
  intros Hw Hlen Hg. rewrite (createGeometry_position _ _ _ _ Hw Hg).
  destruct samples as [|y [|y' samples]]; [by left | right | cbn in Hlen; lia].
  exists y. cbn zeta.
  pose proof (length_normalizeData [y]) as Hspec.
  destruct (normalizeData [y]) as [|z [|z' spectrum]]; try done.
  eexists. split; [done|]. cbn [imap length]. repeat f_equal.
  unfold of_nat, of_Z, dec. rewrite sub_Fin.
  replace (Qc_of_Z (Z.of_nat 1) - Q2Qc 1) with (Q2Qc 0) by (by apply Qc_is_canon).
  unfold div. rewrite decide_True by done.
  destruct (decide (Qc_of_Z (Z.of_nat (clientWidth v)) = 0)) as [_|Hne]; [done|].
  unfold signed_inf. rewrite bool_decide_eq_true_2.
  - unfold mul. by rewrite decide_True by (by apply Qc_is_canon).
  - apply Qcnot_le_lt. intros Hle. apply Hne, Qcle_antisym; [done|].
    apply Qc_of_Z_nonneg. lia.
Qed.
End GeometryFacts.

(** C8.  A resize rewrites no line.  The line added next, from a frame of
    two samples or more, has abscissas from 0 to the new width, all of them
    within that span, and every line built before keeps the geometry it was
    built with. *)
Theorem resize_keeps_rows `{!THREE.ColorOps} (v : WaterfallVisualizer)
    (width height : nat) (frame : SpectrumFrame) (samples : list num) :
  reachable v → waterfall frame = Some samples → 2 ≤ length samples →
  objects (container_resized width height v) = objects v ∧
  ∃ v' o,
    addData (container_resized width height v) frame = Ok v' ∧
    objects v' !! next_id v = Some o ∧
    (∃ z, head (position (geometry o)) = Some (dec 0, dec 0, z)) ∧
    (∃ z, last (position (geometry o)) = Some (of_nat width, dec 0, z)) ∧
    (∀ p, p ∈ position (geometry o) →
       ∃ x, p.1.1 = Fin x ∧ (0 ≤ x ≤ Qc_of_Z (Z.of_nat width))%Qc) ∧
    (∀ id o0, objects v !! id = Some o0 →
       ∃ o1, objects v' !! id = Some o1 ∧ geometry o1 = geometry o0).
Proof.
  intros Hv Hw Hlen. split; [done|].
  pose proof (well_formed_resized width height v (reachable_well_formed _ Hv))
    as Hwf.
  destruct (addData_returns (container_resized width height v) frame samples Hw)
    as [v' Hadd].
  destruct (addData_newest _ _ _ Hwf Hadd) as (g & o & Hg & Ho & Hgeo).
  destruct (createGeometry_span _ _ _ _ Hw Hlen Hg) as (_ & Hhead & Hlast & Hspan).
  exists v', o. rewrite Hgeo. split_and!; try done.
  intros id o0 Ho0. exact (addData_keeps_geometry _ _ _ _ _ Hwf Hadd Ho0).
Qed.

Lemma resize_keeps_rows_witness :
  objects (@container_resized 1600 600 (WaterfallVisualizer_new 800 600)) = ∅ ∧
  ∃ v' o,
    @addData three_r160
      (container_resized 1600 600 (WaterfallVisualizer_new 800 600))
      frame100 = Ok v' ∧
    objects v' !! 0 = Some o ∧
    ∃ z, last (position (geometry o)) = Some (of_nat 1600, dec 0, z).
Proof.
  destruct (@resize_keeps_rows three_r160 (WaterfallVisualizer_new 800 600)
              1600 600 frame100 _ (reachable_new 800 600) eq_refl)
    as (Hobjs & v' & o & Hadd & Ho & _ & Hlast & _).
  { cbn. lia. }
  split; [exact Hobjs|]. exists v', o. by split_and!.
Defined.

(** C1.  What the code does with a frame of fewer than two samples, which
    the claim has rejected: [addData] does not look at the number of
    samples, and the frame is added like any other.  The call returns, the
    new line heads [this.lines], which is therefore changed, and its
    geometry is the degenerate one built from the frame: empty for no
    sample; for one sample a single vertex whose abscissa is [NaN], as
    [xScale] is the width divided by 0 and the index 0 is multiplied by
    it. *)
Theorem short_frame_added `{!THREE.ColorOps} (v : WaterfallVisualizer)
    (frame : SpectrumFrame) (samples : list num) :
  reachable v → waterfall frame = Some samples → length samples < 2 →
  ∃ v' o,
    addData v frame = Ok v' ∧
    head (lines v') = Some (next_id v) ∧
    lines v' ≠ lines v ∧
    objects v' !! next_id v = Some o ∧
    ((samples = [] ∧ position (geometry o) = []) ∨
     (∃ y z, samples = [y] ∧ position (geometry o) = [(NaN, dec 0, z)])).
Proof.
  intros Hv Hw Hlen. pose proof (reachable_well_formed _ Hv) as Hwf.
  destruct (addData_returns v frame samples Hw) as [v' Hadd].
  destruct (addData_newest _ _ _ Hwf Hadd) as (g & o & Hg & Ho & Hgeo).
  destruct (addData_spec _ _ _ Hwf Hadd) as (g' & Hg' & Hlines & _).
  cbn zeta in Hlines. rewrite Hg in Hg'. injection Hg' as <-.
  assert (head (lines v') = Some (next_id v)) as Hhead.
  { rewrite Hlines.
    assert (∃ rest, trimmed (next_id v :: lines v) = next_id v :: rest)
      as [rest ->].
    { unfold trimmed. case_decide as Hmax; [|by eexists].
      cbn [length] in *. rewrite Nat.sub_1_r. cbn [pred].
      destruct (lines v) as [|x l]; [cbn in Hmax; lia|].
      cbn [length take]. by eexists. }
    rewrite filter_cons_True; [done|].
    unfold hits_bottom, add_line. cbn [objects]. rewrite lookup_insert_eq.
    unfold moved. cbn [position_y set_position_y]. unfold of_nat.
    rewrite of_Z_sub_spacing, ltb_of_Z_bottom.
    rewrite bool_decide_eq_false_2 by lia. by intros []. }
  exists v', o. split_and!; try done.
  - intros Heq. rewrite Heq in Hhead.
    assert (next_id v ∈ lines v) as Hin.
    { destruct (lines v); [done|]. injection Hhead as ->. apply list_elem_of_here. }
    destruct (wf_lines _ Hwf _ Hin) as (o' & _ & Ho' & _).
    assert (next_id v < next_id v); [|lia].
    apply (wf_fresh _ Hwf). by exists o'.
  - rewrite Hgeo. by apply (createGeometry_short v frame).
Qed.

Lemma short_frame_added_witness :
  ∃ v' o,
    @addData three_r160 (WaterfallVisualizer_new 800 600) (frame_of [dec 3])
      = Ok v' ∧
    head (lines v') = Some 0 ∧
    objects v' !! 0 = Some o.
Proof.
  destruct (@short_frame_added three_r160 (WaterfallVisualizer_new 800 600)
              (frame_of [dec 3]) [dec 3] (reachable_new 800 600) eq_refl)
    as (v' & o & Hadd & Hhead & _ & Ho & _).
  { cbn. lia. }
  exists v', o. by split_and!.
Defined.

(** C1, the failing input: a frame of one sample on a new visualizer is
    not rejected.  [addData] returns, [this.lines] grows from no line to
    one, and the line has the single vertex [(NaN, 0, 1)]. *)
Lemma short_frame_not_rejected :
  ∃ v' o,
    @addData three_r160 (WaterfallVisualizer_new 800 600) (frame_of [dec 3])
      = Ok v' ∧
    lines (WaterfallVisualizer_new 800 600) = [] ∧
    lines v' = [0] ∧
    objects v' !! 0 = Some o ∧
    position (geometry o) = [(NaN, dec 0, dec 1)].
Proof.
  eexists _, _. split; [reflexivity|]. split_and!; [done | done | |].
  - vm_compute. reflexivity.
  - by_decide.
Qed.

(** ** Many frames in a container of fixed size *)

Section EndToEndFacts.
Context `{!THREE.ColorOps}.

Lemma run_new_scrolled width height frames n :
  length frames = n →
  (∀ frame, frame ∈ frames → is_Some (waterfall frame)) →
  ∃ v, run (WaterfallVisualizer_new width height) frames = Ok v ∧
       scrolled width height n v.
Proof.
  intros <- Hframes.
  apply (run_scrolled width height 0 _ frames (scrolled_new width height) Hframes).
Qed.

Lemma scrolled_length width height n v :
  scrolled width height n v →
  length (lines v) = min n (min (maxLines config) (S height)).
Proof. intros Hv. rewrite (sc_lines _ _ _ _ Hv). apply length_countdown. Qed.

Lemma verticalOffset_newest (height : nat) :
  (of_nat height - spacing config - (of_nat height - spacing config))%num = dec 0.
Proof.
  unfold of_nat. rewrite of_Z_sub_spacing. unfold of_Z. rewrite sub_Fin.
  by rewrite (proj2 (Qcminus_eq_0 _ _) eq_refl).
Qed.

(** The newest line is the first of [this.lines], one [spacing] below the
    top, which is the baseline of the newest row. *)
Lemma scrolled_newest width height n v :
  scrolled width height (S n) v →
  head (lines v) = Some n ∧
  ∃ o, objects v !! n = Some o ∧
       position_y o = (of_nat height - spacing config)%num ∧
       verticalOffset v o = dec 0.
Proof.
  intros Hv.
  assert (head (lines v) = Some n) as Hhead.
  { rewrite (sc_lines _ _ _ _ Hv). cbn [Nat.sub]. rewrite Nat.sub_0_r.
    apply head_countdown. change (maxLines config) with 5000. lia. }
  split; [done|].
  destruct (sc_position _ _ _ _ Hv n) as (o & Ho & Hy).
  { destruct (lines v); [done|]. injection Hhead as ->. apply list_elem_of_here. }
  assert (position_y o = (of_nat height - spacing config)%num) as Hy'.
  { rewrite Hy. unfold of_nat. rewrite of_Z_sub_spacing. f_equal. lia. }
  exists o. split_and!; [done | done |].
  unfold verticalOffset. rewrite Hy', (sc_height _ _ _ _ Hv).
  apply verticalOffset_newest.
Qed.
End EndToEndFacts.

(** C3 (amended).  After 5001 frames of 100 samples in a container whose
    size is fixed, [this.lines] holds [min 5000 (height + 1)] lines: exactly
    5000 when the container is at least 4999 high, fewer otherwise, since a
    line is also removed once it is more than one [spacing] below the
    bottom.  The line of the last frame heads the list, with the geometry
    built from that frame, at the baseline of the newest row
    ([position.y = height - spacing]): its vertical offset is 0. *)
Theorem end_to_end `{!THREE.ColorOps} (width height : nat)
    (frames : list SpectrumFrame) :
  length frames = 5000 + 1 →
  (∀ frame, frame ∈ frames →
     ∃ samples, waterfall frame = Some samples ∧ length samples = 100) →
  ∃ v o frame g,
    run (WaterfallVisualizer_new width height) frames = Ok v ∧
    length (lines v) = min 5000 (S height) ∧
    (4999 ≤ height → length (lines v) = 5000) ∧
    head (lines v) = Some 5000 ∧
    last frames = Some frame ∧
    createGeometry (WaterfallVisualizer_new width height) frame = Ok g ∧
    objects v !! 5000 = Some o ∧
    geometry o = g ∧
    position_y o = (of_nat height - spacing config)%num ∧
    verticalOffset v o = dec 0.
Proof.
  intros Hlen Hframes.
  assert (∀ frame, frame ∈ frames → is_Some (waterfall frame)) as Hsome.
  { intros frame Hin. destruct (Hframes frame Hin) as (samples & -> & _). by eexists. }
  destruct (last frames) as [frame|] eqn:Hlast.
  2:{ apply last_None in Hlast. subst frames. cbn in Hlen. lia. }
  pose proof Hlast as Hlast'. apply last_Some in Hlast' as [init ->].
  rewrite length_app in Hlen. cbn [length] in Hlen.
  destruct (run_new_scrolled width height init 5000) as (v1 & Hrun1 & Hv1).
  { lia. }
  { intros f Hf. apply Hsome. rewrite elem_of_app. by left. }
  destruct (Hsome frame) as [samples Hsamples].
  { rewrite elem_of_app. right. apply list_elem_of_here. }
  destruct (addData_returns v1 frame samples Hsamples) as [v Hadd].
  pose proof (scrolled_addData _ _ _ _ _ _ Hv1 Hadd) as Hv.
  destruct (scrolled_newest _ _ _ _ Hv) as (Hhead & o & Ho & Hy & Hoff).
  destruct (addData_newest _ _ _ (sc_well_formed _ _ _ _ Hv1) Hadd)
    as (g & o' & Hg & Ho' & Hgeo).
  rewrite (sc_next_id _ _ _ _ Hv1), Ho in Ho'. injection Ho' as <-.
  assert (length (lines v) = min 5000 (S height)) as Hcount.
  { rewrite (scrolled_length _ _ _ _ Hv). change (maxLines config) with 5000. lia. }
  exists v, o, frame, g. split_and!; try done.
  - rewrite run_app, Hrun1. cbn [mbind result_bind run]. by rewrite Hadd.
  - intros Hheight. rewrite Hcount. lia.
  - rewrite <-Hg. apply createGeometry_width. cbn [clientWidth WaterfallVisualizer_new].
    symmetry. apply (sc_width _ _ _ _ Hv1).
Qed.

Lemma frame100_samples (frame : SpectrumFrame) :
  frame ∈ replicate (5000 + 1) frame100 →
  ∃ samples, waterfall frame = Some samples ∧ length samples = 100.
Proof. intros [-> _]%elem_of_replicate. by eexists. Qed.

Lemma end_to_end_witness :
  ∃ v o,
    @run three_r160 (WaterfallVisualizer_new 800 5000) (replicate (5000 + 1) frame100)
      = Ok v ∧
    length (lines v) = 5000 ∧
    objects v !! 5000 = Some o ∧
    verticalOffset v o = dec 0.
Proof.
  pose proof (@end_to_end three_r160 800 5000 (replicate (5000 + 1) frame100)
                (length_replicate (5000 + 1) frame100)) as Hend.
  specialize (Hend frame100_samples).
  destruct Hend
    as (v & o & frame & g & Hrun & _ & Hlen & _ & _ & _ & Ho & _ & _ & Hoff).
  exists v, o. split_and!; [exact Hrun | apply Hlen; lia | exact Ho | exact Hoff].
Defined.

(** C3, as it is written, fails in a container 600 high: of the 5001 lines
    601 are left, not 5000; the others went below the bottom.  The line of
    the last frame is there, at the vertical offset 0. *)
Lemma end_to_end_viewport_600 :
  ∃ v o,
    @run three_r160 (WaterfallVisualizer_new 800 600) (replicate (5000 + 1) frame100)
      = Ok v ∧
    length (lines v) = 601 ∧
    length (lines v) ≠ 5000 ∧
    objects v !! 5000 = Some o ∧
    verticalOffset v o = dec 0.
Proof.
  destruct (@run_new_scrolled three_r160 800 600 (replicate (5000 + 1) frame100)
              (S 5000)) as (v & Hrun & Hv).
  { rewrite length_replicate. lia. }
  { intros frame [-> _]%elem_of_replicate. by eexists. }
  destruct (scrolled_newest 800 600 5000 v Hv) as (_ & o & Ho & _ & Hoff).
  assert (length (lines v) = 601) as Hlen.
  { rewrite (scrolled_length _ _ _ _ Hv). change (maxLines config) with 5000. lia. }
  exists v, o. rewrite Hlen.
  split_and!; [exact Hrun | reflexivity | lia | exact Ho | exact Hoff].
Qed.

(** ** The socket handler *)

Section HandlerFacts.
Context `{!THREE.ColorOps}.
Variable JSON_parse : string → option JSValue.

Lemma validate_missing_field value :
  missing_field value → ∃ error, validate value = Throw error.
Proof.
  unfold validate.
  destruct value as [| |frame|raw]; cbn; [by eexists | by eexists | |].
  - intros [Hf|Hw]; rewrite ?Hf, ?Hw; cbn.
    + by eexists.
    + rewrite orb_true_r. by eexists.
  - intros [Hf|Hw]; rewrite ?Hf, ?Hw; cbn.
    + by eexists.
    + rewrite orb_true_r. by eexists.
Qed.

(** On a malformed payload the [try] block throws before [addData]. *)
Lemma handle_frame_malformed app data :
  malformed JSON_parse data →
  ∃ error, handle_frame JSON_parse app data = (app, Some error).
Proof.
  intros [text Hparse|text value Hparse Hmiss|value Hmiss];
    unfold handle_frame, parse_payload; rewrite ?Hparse;
    cbn [mbind result_bind].
  - by eexists.
  - destruct (validate_missing_field value Hmiss) as [error ->]. by eexists.
  - destruct (validate_missing_field value Hmiss) as [error ->]. by eexists.
Qed.
End HandlerFacts.

(** C6 (amended).  On a payload without [freqs] or without [waterfall], or
    on a string that is not JSON, the handler returns normally and leaves the
    visualizer, hence the history, and the line chart as they were.  While
    streaming is enabled it logs the error and then the payload; while it is
    disabled it returns at once and logs nothing. *)
Theorem malformed_frame_dropped `{!THREE.ColorOps}
    (JSON_parse : string → option JSValue) (app : App) (data : Payload) :
  malformed JSON_parse data →
  ∃ app',
    on_spectrum_data JSON_parse app data = Ok app' ∧
    visualizer app' = visualizer app ∧
    length (lines (visualizer app')) = length (lines (visualizer app)) ∧
    lineChart app' = lineChart app ∧
    isStreaming app' = isStreaming app ∧
    (isStreaming app = true →
       ∃ error,
         console app' =
           console app ++ [ console_error "Data parsing error:" error;
                            console_log "Raw received data:" data ]) ∧
    (isStreaming app = false → console app' = console app).
Proof.
  intros Hbad. unfold on_spectrum_data.
  destruct (isStreaming app) eqn:Hstreaming; cbn [negb].
  - destruct (handle_frame_malformed JSON_parse app data Hbad) as [error ->].
    eexists. split; [done|]. cbn. split_and!; try done. by exists error.
  - exists app. by split_and!.
Qed.

Lemma malformed_frame_dropped_witness :
  ∃ app',
    @on_spectrum_data three_r160 JSON_parse_nothing (app_new 800 600 true)
      (PValue (JObject frame_without_waterfall)) = Ok app' ∧
    visualizer app' = WaterfallVisualizer_new 800 600 ∧
    ∃ error,
      console app' =
        [ console_error "Data parsing error:" error;
          console_log "Raw received data:"
            (PValue (JObject frame_without_waterfall)) ].
Proof.
  destruct (@malformed_frame_dropped three_r160 JSON_parse_nothing
              (app_new 800 600 true) (PValue (JObject frame_without_waterfall)))
    as (app' & Hrun & Hvis & _ & _ & _ & Hlog & _).
  { apply malformed_value. by right. }
  exists app'. split; [exact Hrun|]. split; [exact Hvis|]. by apply Hlog.
Defined.

(** C6, as it is written, fails while streaming is disabled: the frame
    without [waterfall] is dropped, but the handler has returned before its
    [try] block and the console is as empty as before. *)
Lemma malformed_frame_not_logged :
  malformed JSON_parse_nothing (PValue (JObject frame_without_waterfall)) ∧
  @on_spectrum_data three_r160 JSON_parse_nothing (app_new 800 600 false)
    (PValue (JObject frame_without_waterfall)) = Ok (app_new 800 600 false) ∧
  console (app_new 800 600 false) = [].
Proof. split_and!; [|done|done]. apply malformed_value. by right. Qed.

(** C9.  While [isStreaming] is false a [spectrum_data] event changes
    nothing, whatever it carries: the handler returns the application as it
    found it, visualizer and line chart included. *)
Theorem not_streaming_ignored `{!THREE.ColorOps}
    (JSON_parse : string → option JSValue) (app : App) (data : Payload) :
  isStreaming app = false →
  on_spectrum_data JSON_parse app data = Ok app ∧
  ∀ app', on_spectrum_data JSON_parse app data = Ok app' →
    visualizer app' = visualizer app ∧ lineChart app' = lineChart app.
Proof.
  intros Hoff. unfold on_spectrum_data. rewrite Hoff. cbn [negb].
  split; [done|]. by intros app' [= <-].
Qed.

Lemma not_streaming_ignored_witness :
  @on_spectrum_data three_r160 JSON_parse_nothing (app_new 800 600 false)
    (PValue (JObject frame100)) = Ok (app_new 800 600 false).
Proof.
  apply (@not_streaming_ignored three_r160 JSON_parse_nothing
           (app_new 800 600 false) (PValue (JObject frame100)) eq_refl).
Defined.

(** ** Further properties *)

(** X2.  In a container that keeps its size, after [n] frames the history
    holds the newest [min n (min maxLines (height + 1))] lines, newest
    first, and the line of the [k]-th frame (from 0) is [n - k] times
    [spacing] below the top. *)
Theorem history_window `{!THREE.ColorOps} (width height n : nat)
    (frames : list SpectrumFrame) :
  length frames = n →
  (∀ frame, frame ∈ frames → is_Some (waterfall frame)) →
  ∃ v,
    run (WaterfallVisualizer_new width height) frames = Ok v ∧
    lines v = countdown (n - 1) (min n (min (maxLines config) (S height))) ∧
    ∀ k, k ∈ lines v →
      ∃ o, objects v !! k = Some o ∧
           position_y o = of_Z (Z.of_nat height - (Z.of_nat n - Z.of_nat k)).
Proof.
  intros Hlen Hframes.
  destruct (run_new_scrolled width height frames n Hlen Hframes) as (v & Hrun & Hv).
  exists v. split_and!; [done | apply (sc_lines _ _ _ _ Hv) | apply (sc_position _ _ _ _ Hv)].
Qed.

Lemma history_window_witness :
  ∃ v,
    @run three_r160 (WaterfallVisualizer_new 800 1) [frame100; frame100; frame100]
      = Ok v ∧
    lines v = [2; 1].
Proof.
  destruct (@history_window three_r160 800 1 3 [frame100; frame100; frame100] eq_refl)
    as (v & Hrun & Hlines & _).
  { intros frame Hin.
    repeat (apply elem_of_cons in Hin as [->|Hin]; [by eexists|]).
    by apply elem_of_nil in Hin. }
  exists v. split; [exact Hrun | exact Hlines].
Defined.

(** A property that is falsy is not truthy. *)
Ltac rewrite_falsy Hp :=
  match goal with
  | Hx : _ = Falsy |- _ => rewrite Hx in Hp; discriminate Hp
  end.

Section HandlerMore.
Context `{!THREE.ColorOps}.
Variable JSON_parse : string → option JSValue.

(** The [try] block on a payload that passes the check: [addData] throws
    when [waterfall] is no array, and otherwise adds the line before
    [updateLineChart] runs. *)
Lemma handle_frame_checked (app : App) (data : Payload) (raw : RawFrame) :
  (parsedData ← parse_payload JSON_parse data; validate parsedData) = Ok raw →
  match raw_waterfall raw with
  | Array ws =>
      ∃ v', addData (visualizer app) (arrays_of raw) = Ok v' ∧
        handle_frame JSON_parse app data =
          match updateLineChart (lineChart app) raw with
          | Ok chart =>
              ({| visualizer := v'; lineChart := chart;
                  isStreaming := isStreaming app; console := console app |},
               None)
          | Throw error =>
              ({| visualizer := v'; lineChart := lineChart app;
                  isStreaming := isStreaming app; console := console app |},
               Some error)
          end
  | Falsy | NotArray =>
      ∃ error, handle_frame JSON_parse app data = (app, Some error)
  end.
Proof.
  intros Hraw. unfold handle_frame. rewrite Hraw.
  destruct (raw_waterfall raw) as [|ws|] eqn:Hw.
  - rewrite addData_throws by (cbn; by rewrite Hw). by eexists.
  - destruct (addData_returns (visualizer app) (arrays_of raw) ws) as [v' Hv'].
    { cbn. by rewrite Hw. }
    exists v'. split; [done|]. rewrite Hv'. cbn [lineChart visualizer isStreaming console].
    by destruct (updateLineChart (lineChart app) raw).
  - rewrite addData_throws by (cbn; by rewrite Hw). by eexists.
Qed.

Lemma validate_truthy (value : JSValue) (raw : RawFrame) :
  validate value = Ok raw →
  truthy (raw_freqs raw) = true ∧ truthy (raw_waterfall raw) = true.
Proof.
  unfold validate. destruct (properties value) as [raw'|e]; [|done].
  cbn [mbind result_bind].
  destruct (truthy (raw_freqs raw')) eqn:Hf, (truthy (raw_waterfall raw')) eqn:Hw;
    try done.
  by intros [= <-].
Qed.
End HandlerMore.

(** X3.  While streaming is enabled, a payload that passes the check of the
    handler (its [freqs] and its [waterfall] are truthy) is handled
    according to what the two properties are.  When [waterfall] is an
    array the line is added; the chart is then updated if [power] is truthy
    and [freqs] an array, left alone if [power] is falsy, and if [freqs] is
    no array [updateLineChart] throws after the line was added: the line
    stays, the chart is as it was and the error is logged.  When
    [waterfall] is no array [addData] throws before it writes: nothing is
    added and the error is logged. *)
Theorem checked_frame_handled `{!THREE.ColorOps}
    (JSON_parse : string → option JSValue) (app : App) (data : Payload)
    (raw : RawFrame) :
  isStreaming app = true →
  (parsedData ← parse_payload JSON_parse data; validate parsedData) = Ok raw →
  ∃ app',
    on_spectrum_data JSON_parse app data = Ok app' ∧
    isStreaming app' = true ∧
    (∀ ws, raw_waterfall raw = Array ws →
       addData (visualizer app) (arrays_of raw) = Ok (visualizer app')) ∧
    (raw_waterfall raw = NotArray →
       visualizer app' = visualizer app ∧ lineChart app' = lineChart app ∧
       logs_error app app' data) ∧
    (∀ ws fs, raw_waterfall raw = Array ws → raw_freqs raw = Array fs →
       truthy (raw_power raw) = true →
       labels (lineChart app') = (λ f, Binary64.div f (dec 1e6)) <$> fs ∧
       dataset_data (lineChart app') = raw_power raw ∧
       update_calls (lineChart app') = S (update_calls (lineChart app)) ∧
       console app' = console app) ∧
    (∀ ws, raw_waterfall raw = Array ws → raw_power raw = Falsy →
       lineChart app' = lineChart app ∧ console app' = console app) ∧
    (∀ ws, raw_waterfall raw = Array ws → raw_freqs raw = NotArray →
       truthy (raw_power raw) = true →
       lineChart app' = lineChart app ∧ logs_error app app' data).
Proof.
  intros Hon Hraw.
  pose proof (handle_frame_checked JSON_parse app data raw Hraw) as Hhandle.
  assert (truthy (raw_freqs raw) = true) as Hfreqs.
  { destruct (parse_payload JSON_parse data) as [value|e]; [|done].
    by destruct (validate_truthy value raw Hraw). }
  unfold on_spectrum_data. rewrite Hon. cbn [negb].
  destruct (raw_waterfall raw) as [|ws|] eqn:Hw.
  - destruct Hhandle as [error ->]. eexists. split; [done|]. by split_and!.
  - destruct Hhandle as (v' & Hadd & ->). unfold updateLineChart.
    rewrite Hfreqs. cbn [negb orb].
    destruct (truthy (raw_power raw)) eqn:Hp; cbn [negb].
    + destruct (raw_freqs raw) as [|fs|] eqn:Hf; [done| |];
        (eexists; split; [done|]); cbn; split_and!; intros; simplify_eq;
        try done; try (by split_and!); try (by rewrite_falsy Hp);
        (split; [done | by eexists]).
    + eexists. split; [done|]. cbn. split_and!; intros; simplify_eq; done.
  - destruct Hhandle as [error ->]. eexists. split; [done|]. cbn.
    split_and!; intros; simplify_eq; try done.
    split_and!; [done | done |]. by eexists.
Qed.

Lemma checked_frame_handled_witness :
  ∃ app',
    @on_spectrum_data three_r160 JSON_parse_nothing (app_new 800 600 true)
      (PValue (JUntyped frame_with_scalar_freqs)) = Ok app' ∧
    @addData three_r160 (WaterfallVisualizer_new 800 600)
      (arrays_of frame_with_scalar_freqs) = Ok (visualizer app') ∧
    lineChart app' = lineChart_new ∧
    logs_error (app_new 800 600 true) app'
      (PValue (JUntyped frame_with_scalar_freqs)).
Proof.
  destruct (@checked_frame_handled three_r160 JSON_parse_nothing
              (app_new 800 600 true) (PValue (JUntyped frame_with_scalar_freqs))
              frame_with_scalar_freqs eq_refl eq_refl)
    as (app' & Hrun & _ & Hadd & _ & _ & _ & Hthrow).
  destruct (Hthrow [dec 1; dec 2] eq_refl eq_refl eq_refl) as [Hchart Hlog].
  exists app'. split_and!; [exact Hrun | | exact Hchart | exact Hlog].
  exact (Hadd [dec 1; dec 2] eq_refl).
Defined.

(** ** normalizeData: order and non-finite samples *)

Section NormalizeMore.
Local Open Scope Qc_scope.

(** The minimum and the maximum of a finite frame are what [Math.min] and
    [Math.max] return. *)
Lemma Math_min_unique (qs : list Qc) (m : Qc) :
  m ∈ qs → (∀ x, x ∈ qs → m ≤ x) → Math_min (Fin <$> qs) = Fin m.
Proof.
  intros Hin Hle. destruct qs as [|q qs]; [by apply elem_of_nil in Hin|].
  destruct (Math_min_Fin q qs) as (m' & -> & Hin' & Hle').
  f_equal. apply Qcle_antisym; [by apply Hle' | by apply Hle].
Qed.

Lemma Math_max_unique (qs : list Qc) (m : Qc) :
  m ∈ qs → (∀ x, x ∈ qs → x ≤ m) → Math_max (Fin <$> qs) = Fin m.
Proof.
  intros Hin Hle. destruct qs as [|q qs]; [by apply elem_of_nil in Hin|].
  destruct (Math_max_Fin q qs) as (m' & -> & Hin' & Hle').
  f_equal. apply Qcle_antisym; [by apply Hle | by apply Hle'].
Qed.

(** A frame of doubles whose range is a finite double other than 0. *)
Lemma normalizeData_rescaled (qs : list Qc) (min max range : Qc) :
  Math_min (Fin <$> qs) = Fin min → Math_max (Fin <$> qs) = Fin max →
  round64 (max - min) = Fin range → range ≠ 0 →
  normalizeData (Fin <$> qs) =
    (λ v, Binary64.div (Binary64.sub (Fin v) (Fin min)) (Fin range)) <$> qs.
Proof.
  intros Hmin Hmax Hrange Hne. unfold normalizeData.
  rewrite Hmin, Hmax, sub64_Fin, Hrange, strict_eqb_Fin_0.
  rewrite bool_decide_eq_false_2 by done.
  by rewrite <-list_fmap_compose.
Qed.

Lemma normalizeData_flat (qs : list Qc) (c : Qc) :
  Math_min (Fin <$> qs) = Fin c → Math_max (Fin <$> qs) = Fin c →
  normalizeData (Fin <$> qs) = (λ _, dec 0.5) <$> qs.
Proof.
  intros Hmin Hmax. unfold normalizeData. rewrite Hmin, Hmax, sub64_Fin.
  rewrite (proj2 (Qcminus_eq_0 _ _) eq_refl), round64_0.
  change (Fin 0 === dec 0)%num with true. cbv iota.
  by rewrite <-list_fmap_compose.
Qed.

(** A sample between the minimum and the maximum becomes a double of the
    unit interval. *)
Lemma rescaled_unit (v min max range : Qc) :
  min ≤ v → v ≤ max → round64 (max - min) = Fin range → 0 < range →
  ∃ y, Binary64.div (Binary64.sub (Fin v) (Fin min)) (Fin range) = Fin y ∧
       0 ≤ y ∧ y ≤ 1 ∧ is_double y.
Proof.
  intros Hlo Hhi Hrange Hpos.
  destruct (sub64_below_range v min max range Hlo Hhi Hrange)
    as (x & -> & Hx0 & Hxr).
  destruct (div64_unit x range Hx0 Hxr Hpos) as (y & Hy & Hy0 & Hy1).
  exists y. split_and!; [done | done | done |].
  rewrite div64_Fin in Hy by (by apply Qc_lt_ne).
  apply (round64_is_double (x / range)); [|done].
  by destruct (Qcdiv_unit x range Hx0 Hxr Hpos).
Qed.

Lemma rescaled_mono (a b min max range : Qc) :
  min ≤ a → a ≤ b → b ≤ max → round64 (max - min) = Fin range → 0 < range →
  ∃ a' b',
    Binary64.div (Binary64.sub (Fin a) (Fin min)) (Fin range) = Fin a' ∧
    Binary64.div (Binary64.sub (Fin b) (Fin min)) (Fin range) = Fin b' ∧
    a' ≤ b'.
Proof.
  intros Hlo Hab Hhi Hrange Hpos.
  assert (a ≤ max) as Ha_hi by (by apply Qcle_trans with b).
  assert (min ≤ b) as Hb_lo by (by apply Qcle_trans with a).
  destruct (sub64_below_range a min max range Hlo Ha_hi Hrange)
    as (xa & Hxa & Hxa0 & Hxar).
  destruct (sub64_below_range b min max range Hb_lo Hhi Hrange)
    as (xb & Hxb & Hxb0 & Hxbr).
  assert (xa ≤ xb) as Hx.
  { assert (leb (round64 (a - min)) (round64 (b - min)) = true) as Hm.
    { apply round64_mono; [by apply Qcminus_nonneg | by apply Qcplus_le_mono_r]. }
    rewrite <-!sub64_Fin, Hxa, Hxb, leb_Fin in Hm.
    by apply bool_decide_eq_true in Hm. }
  rewrite Hxa, Hxb.
  destruct (div64_unit xa range Hxa0 Hxar Hpos) as (a' & Ha' & _ & _).
  destruct (div64_unit xb range Hxb0 Hxbr Hpos) as (b' & Hb' & _ & _).
  exists a', b'. split_and!; [done | done |].
  assert (leb (round64 (xa / range)) (round64 (xb / range)) = true) as Hm.
  { apply round64_mono.
    - by destruct (Qcdiv_unit xa range Hxa0 Hxar Hpos).
    - unfold Qcdiv. apply Qcmult_le_mono_nonneg_r; [|done].
      by apply Qclt_le_weak, Qcinv_pos. }
  rewrite <-!div64_Fin, Ha', Hb', leb_Fin in Hm by (by apply Qc_lt_ne).
  by apply bool_decide_eq_true in Hm.
Qed.

Lemma rescaled_min (min range : Qc) :
  range ≠ 0 →
  Binary64.div (Binary64.sub (Fin min) (Fin min)) (Fin range) = dec 0.
Proof.
  intros Hne. rewrite sub64_Fin, (proj2 (Qcminus_eq_0 _ _) eq_refl), round64_0.
  rewrite div64_Fin by done.
  replace (0 / range) with 0 by (unfold Qcdiv; ring). exact round64_0.
Qed.

Lemma rescaled_max (min max range : Qc) :
  round64 (max - min) = Fin range → range ≠ 0 →
  Binary64.div (Binary64.sub (Fin max) (Fin min)) (Fin range) = dec 1.
Proof.
  intros Hrange Hne. rewrite sub64_Fin, Hrange, div64_Fin by done.
  unfold Qcdiv. rewrite Qcmult_inv_r by done. exact round64_1.
Qed.

(** A double of the unit interval is left as it is by the normalization
    of a frame of minimum 0 and range 1. *)
Lemma rescaled_fixed (y : Qc) :
  is_double y →
  Binary64.div (Binary64.sub (Fin y) (Fin 0)) (Fin 1) = Fin y.
Proof.
  intros Hy. rewrite sub64_Fin.
  replace (y - 0) with y by ring. rewrite Hy, div64_Fin by done.
  replace (y / 1) with y; [done|]. unfold Qcdiv.
  change (/ 1) with 1. ring.
Qed.

(** A function with finite values, mapped over a list. *)
Lemma finite_outputs (f : Qc → num) (P : Qc → Prop) (qs : list Qc) :
  (∀ v, v ∈ qs → ∃ y, f v = Fin y ∧ P y) →
  ∃ ys, f <$> qs = Fin <$> ys ∧ Forall P ys.
Proof.
  induction qs as [|q qs IH]; intros Hf; [by exists []|].
  destruct (Hf q) as (y & Hy & HP); [apply list_elem_of_here|].
  destruct IH as (ys & Hys & HPs).
  { intros v Hv. apply Hf. by apply list_elem_of_further. }
  exists (y :: ys). cbn [fmap list_fmap]. rewrite Hy.
  split; [by f_equal | by constructor].
Qed.

(** A frame of doubles is flat, or its range overflows, or it is rescaled
    by a range that is a positive double. *)
Lemma doubles_cases (q : Qc) (qs : list Qc) :
  Forall is_double (q :: qs) →
  ∃ min max,
    Math_min (Fin <$> q :: qs) = Fin min ∧ Math_max (Fin <$> q :: qs) = Fin max ∧
    min ∈ q :: qs ∧ max ∈ q :: qs ∧ (∀ x, x ∈ q :: qs → min ≤ x ≤ max) ∧
    (max = min ∨
     (min < max ∧ round64 (max - min) = PInf) ∨
     (min < max ∧ ∃ range, round64 (max - min) = Fin range ∧ 0 < range)).
Proof.
  intros Hdouble. rewrite Forall_forall in Hdouble.
  destruct (Math_min_Fin q qs) as (min & Hmin & Hmin_in & Hmin_le).
  destruct (Math_max_Fin q qs) as (max & Hmax & Hmax_in & Hmax_le).
  exists min, max. split_and!; [done | done | done | done | |].
  { intros x Hx. split; [by apply Hmin_le | by apply Hmax_le]. }
  destruct (decide (max = min)) as [?|Hne]; [by left|right].
  assert (min < max) as Hlt.
  { apply Qcnot_le_lt. intros Hge. apply Hne, Qcle_antisym; [done|].
    by apply Hmin_le. }
  destruct (round64_difference max min (Hdouble _ Hmax_in) (Hdouble _ Hmin_in) Hlt)
    as [Hinf|(range & Hrange & Hpos)]; [by left | right].
  split; [done|]. by exists range.
Qed.
End NormalizeMore.

(** X5.  On a frame of doubles whose range [max - min] does not overflow,
    [normalizeData] is idempotent: what it returns is already normalized. *)
Theorem normalizeData_idempotent (qs : list Qc) :
  Forall is_double qs →
  is_finite (Binary64.sub (Math_max (Fin <$> qs)) (Math_min (Fin <$> qs))) →
  normalizeData (normalizeData (Fin <$> qs)) = normalizeData (Fin <$> qs).
Proof.
  intros Hdouble Hfinite. destruct qs as [|q qs]; [done|].
  destruct (doubles_cases q qs Hdouble)
    as (min & max & Hmin & Hmax & Hmin_in & Hmax_in & Hle &
        [->|[[Hlt Hinf]|(Hlt & range & Hrange & Hpos)]]).
  - rewrite (normalizeData_flat _ min) by done.
    rewrite (list_fmap_compose (λ _, Q2Qc 0.5) Fin).
    rewrite (normalizeData_flat _ (Q2Qc 0.5)).
    + rewrite <-!list_fmap_compose. reflexivity.
    + apply Math_min_unique; [apply list_elem_of_here|].
      intros x (y & -> & _)%list_elem_of_fmap. apply Qcle_refl.
    + apply Math_max_unique; [apply list_elem_of_here|].
      intros x (y & -> & _)%list_elem_of_fmap. apply Qcle_refl.
  - by rewrite Hmin, Hmax, sub64_Fin, Hinf in Hfinite.
  - pose proof (Qc_lt_ne _ _ Hpos) as Hne.
    rewrite (normalizeData_rescaled _ min max range) by done.
    destruct (finite_outputs
                (λ v, Binary64.div (Binary64.sub (Fin v) (Fin min)) (Fin range))
                (λ y, (0 ≤ y)%Qc ∧ (y ≤ 1)%Qc ∧ is_double y) (q :: qs))
      as (ys & Hys & Hunit).
    { intros v Hv. destruct (Hle v Hv) as [Hlo Hhi].
      by apply (rescaled_unit v min max range). }
    assert (0%Qc ∈ ys) as H0.
    { assert (Fin 0 ∈ Fin <$> ys) as (y & [= <-] & Hy)%list_elem_of_fmap; [|done].
      rewrite <-Hys. apply list_elem_of_fmap. exists min.
      by rewrite rescaled_min. }
    assert (1%Qc ∈ ys) as H1.
    { assert (Fin 1 ∈ Fin <$> ys) as (y & [= <-] & Hy)%list_elem_of_fmap; [|done].
      rewrite <-Hys. apply list_elem_of_fmap. exists max.
      by rewrite (rescaled_max min max range). }
    rewrite Hys. rewrite Forall_forall in Hunit.
    rewrite (normalizeData_rescaled ys 0%Qc 1%Qc 1%Qc).
    + apply Forall_fmap_ext_1, Forall_forall. intros y Hy.
      apply rescaled_fixed. by apply Hunit.
    + apply Math_min_unique; [done|]. intros y Hy. by apply Hunit.
    + apply Math_max_unique; [done|]. intros y Hy. by apply Hunit.
    + replace (1 - 0)%Qc with 1%Qc by ring. exact round64_1.
    + done.
Qed.

Lemma normalizeData_idempotent_witness :
  normalizeData (normalizeData [double 0.1; dec 3; dec 2]) =
    normalizeData [double 0.1; dec 3; dec 2].
Proof.
  pose proof (normalizeData_idempotent
                [Q2Qc (3602879701896397 # 36028797018963968); Q2Qc 3; Q2Qc 2]) as H.
  apply H.
  - repeat constructor; by_decide.
  - by vm_compute.
Defined.

(** X7.  On a frame of doubles whose range does not overflow,
    [normalizeData] keeps the order of the samples: the outputs are in the
    unit interval, in the order of their samples; in a frame that is not
    flat a smallest sample becomes 0 and a largest one 1. *)
Theorem normalizeData_order (qs : list Qc) (i j : nat) (a b : Qc) :
  Forall is_double qs →
  is_finite (Binary64.sub (Math_max (Fin <$> qs)) (Math_min (Fin <$> qs))) →
  qs !! i = Some a → qs !! j = Some b → (a ≤ b)%Qc →
  ∃ a' b' : Qc,
    normalizeData (Fin <$> qs) !! i = Some (Fin a') ∧
    normalizeData (Fin <$> qs) !! j = Some (Fin b') ∧
    (0 ≤ a')%Qc ∧ (a' ≤ b')%Qc ∧ (b' ≤ 1)%Qc ∧
    ((a < b)%Qc → (∀ x, x ∈ qs → (a ≤ x)%Qc) → a' = 0%Qc) ∧
    ((a < b)%Qc → (∀ x, x ∈ qs → (x ≤ b)%Qc) → b' = 1%Qc).
Proof.
  intros Hdouble Hfinite Hi Hj Hab.
  pose proof (list_elem_of_lookup_2 _ _ _ Hi) as Ha_in.
  pose proof (list_elem_of_lookup_2 _ _ _ Hj) as Hb_in.
  destruct qs as [|q qs]; [done|].
  destruct (doubles_cases q qs Hdouble)
    as (min & max & Hmin & Hmax & Hmin_in & Hmax_in & Hle &
        [->|[[Hlt Hinf]|(Hlt & range & Hrange & Hpos)]]).
  - rewrite (normalizeData_flat _ min) by done.
    exists (Q2Qc 0.5), (Q2Qc 0.5).
    rewrite !list_lookup_fmap, Hi, Hj.
    assert (¬ (a < b)%Qc) as Hnlt.
    { assert (a = min) as -> by (by apply Qcle_antisym; apply Hle).
      assert (b = min) as -> by (by apply Qcle_antisym; apply Hle).
      intros Hqq. by apply Qclt_not_eq in Hqq. }
    split_and!; done.
  - by rewrite Hmin, Hmax, sub64_Fin, Hinf in Hfinite.
  - pose proof (Qc_lt_ne _ _ Hpos) as Hne.
    rewrite (normalizeData_rescaled _ min max range) by done.
    destruct (rescaled_mono a b min max range) as (a' & b' & Ha' & Hb' & Hab');
      [by apply Hle | done | by apply Hle | done | done |].
    destruct (rescaled_unit a min max range) as (a0 & Ha0 & Ha_lo & _);
      [by apply Hle | by apply Hle | done | done |].
    destruct (rescaled_unit b min max range) as (b0 & Hb0 & _ & Hb_hi & _);
      [by apply Hle | by apply Hle | done | done |].
    rewrite Ha' in Ha0. injection Ha0 as <-.
    rewrite Hb' in Hb0. injection Hb0 as <-.
    exists a', b'. rewrite !list_lookup_fmap, Hi, Hj. cbn [fmap option_fmap option_map].
    rewrite Ha', Hb'. split_and!; try done.
    + intros _ Hlow.
      assert (a = min) as ->.
      { apply Qcle_antisym; [by apply Hlow | by apply Hle]. }
      rewrite rescaled_min in Ha' by done. by injection Ha' as <-.
    + intros _ Hhigh.
      assert (b = max) as ->.
      { apply Qcle_antisym; [by apply Hle | by apply Hhigh]. }
      rewrite (rescaled_max min max range) in Hb' by done. by injection Hb' as <-.
Qed.

Lemma normalizeData_order_witness :
  ∃ a' b' : Qc,
    normalizeData (Fin <$> [Q2Qc 4; Q2Qc 1; Q2Qc 2]) !! 1%nat = Some (Fin a') ∧
    normalizeData (Fin <$> [Q2Qc 4; Q2Qc 1; Q2Qc 2]) !! 0%nat = Some (Fin b') ∧
    (a' ≤ b')%Qc.
Proof.
  destruct (normalizeData_order [Q2Qc 4; Q2Qc 1; Q2Qc 2] 1 0 (Q2Qc 1) (Q2Qc 4))
    as (a' & b' & Ha & Hb & _ & Hle & _).
  - repeat constructor; by_decide.
  - by vm_compute.
  - reflexivity.
  - reflexivity.
  - by apply Qclt_le_weak.
  - exists a', b'. split_and!; [exact Ha | exact Hb | exact Hle].
Defined.

(** The order is not kept strictly: in the frame [[-1e20, 1, 2, 1e20]] the
    samples 1 and 2 both become 0.5. *)
Lemma normalizeData_order_not_strict :
  normalizeData [double (-1e20); dec 1; dec 2; double 1e20] =
    [dec 0; dec 0.5; dec 0.5; dec 1].
Proof. by_decide. Qed.

Section OverflowFacts.
Context `{!THREE.ColorOps}.
Local Open Scope Qc_scope.

(** [Math.min] and [Math.max] over finite numbers and [+Infinity]. *)
Lemma foldl_min2_overflow (data : list num) (a : Qc) :
  Forall (λ x, x = PInf ∨ is_finite x) data →
  ∃ m, foldl min2 (Fin a) data = Fin m ∧ m ≤ a ∧
       ∀ b, Fin b ∈ data → m ≤ b.
Proof.
  revert a. induction data as [|x data IH]; intros a Hall.
  { exists a. split_and!; [done | apply Qcle_refl |].
    intros b Hb. by apply elem_of_nil in Hb. }
  apply Forall_cons in Hall as [[->|Hx] Hall]; cbn [foldl].
  - change (min2 (Fin a) PInf) with (Fin a).
    destruct (IH a Hall) as (m & Hm & Hma & Hle).
    exists m. split_and!; [done | done |].
    intros b [?|Hb]%elem_of_cons; [done|]. by apply Hle.
  - destruct x as [| | |b]; try done. rewrite min2_Fin.
    destruct (IH (if bool_decide (b < a) then b else a) Hall) as (m & Hm & Hma & Hle).
    exists m. case_bool_decide as Hba.
    + split_and!; [done | |].
      * apply Qcle_trans with b; [done|]. by apply Qclt_le_weak.
      * intros c [[= ->]|Hc]%elem_of_cons; [done|]. by apply Hle.
    + split_and!; [done | done |].
      intros c [[= ->]|Hc]%elem_of_cons; [|by apply Hle].
      apply Qcle_trans with a; [done|]. by apply Qcnot_lt_le.
Qed.

Lemma Math_min_overflow (data : list num) (q : Qc) :
  Forall (λ x, x = PInf ∨ is_finite x) data → Fin q ∈ data →
  ∃ m, Math_min data = Fin m ∧ ∀ b, Fin b ∈ data → m ≤ b.
Proof.
  unfold Math_min. induction data as [|x data IH]; intros Hall Hq.
  { by apply elem_of_nil in Hq. }
  apply Forall_cons in Hall as [[->|Hx] Hall]; cbn [foldl].
  - change (min2 PInf PInf) with PInf.
    destruct IH as (m & Hm & Hle); [done | by apply elem_of_cons in Hq as [?|?] |].
    exists m. split; [done|].
    intros b [?|Hb]%elem_of_cons; [done|]. by apply Hle.
  - destruct x as [| | |b]; try done.
    change (min2 PInf (Fin b)) with (Fin b).
    destruct (foldl_min2_overflow data b Hall) as (m & Hm & Hmb & Hle).
    exists m. split; [done|].
    intros c [[= ->]|Hc]%elem_of_cons; [done|]. by apply Hle.
Qed.

Lemma foldl_max2_PInf (data : list num) :
  Forall (λ x, x = PInf ∨ is_finite x) data → foldl max2 PInf data = PInf.
Proof.
  induction data as [|x data IH]; intros Hall; [done|].
  apply Forall_cons in Hall as [[->|Hx] Hall]; cbn [foldl].
  - change (max2 PInf PInf) with PInf. by apply IH.
  - destruct x as [| | |b]; try done.
    change (max2 PInf (Fin b)) with PInf. by apply IH.
Qed.

Lemma foldl_max2_overflow (data : list num) (acc : num) :
  acc ≠ NaN → Forall (λ x, x = PInf ∨ is_finite x) data → PInf ∈ data →
  foldl max2 acc data = PInf.
Proof.
  revert acc. induction data as [|x data IH]; intros acc Hacc Hall Hin.
  { by apply elem_of_nil in Hin. }
  apply Forall_cons in Hall as [[->|Hx] Hall]; cbn [foldl].
  - assert (max2 acc PInf = PInf) as -> by (by destruct acc).
    by apply foldl_max2_PInf.
  - destruct x as [| | |b]; try done.
    apply elem_of_cons in Hin as [?|Hin]; [done|].
    apply IH; [|done|done].
    destruct acc as [| | |a]; try done.
    by rewrite max2_Fin.
Qed.

(** The frame after [normalizeData]: the range is [+Infinity], which an
    infinite sample is divided by after the subtraction left it infinite,
    and a finite sample unless the subtraction overflowed. *)
Lemma normalizeData_overflow_eq (data : list num) (q : Qc) :
  Forall (λ x, x = PInf ∨ is_finite x) data → PInf ∈ data → Fin q ∈ data →
  ∃ m, Math_min data = Fin m ∧
    normalizeData data =
      (λ x, if decide (Binary64.sub x (Fin m) = PInf) then NaN else dec 0)
        <$> data.
Proof.
  intros Hall Hinf Hfin. unfold normalizeData.
  destruct (Math_min_overflow data q Hall Hfin) as (m & Hm & Hle).
  exists m. split; [done|]. rewrite Hm.
  unfold Math_max. rewrite foldl_max2_overflow by done.
  change (Binary64.sub PInf (Fin m)) with PInf.
  change (PInf === dec 0)%num with false. cbv iota.
  apply list_fmap_ext. intros i x Hx.
  apply list_elem_of_lookup_2 in Hx.
  rewrite Forall_forall in Hall. destruct (Hall x Hx) as [->|Hfx].
  - by rewrite decide_True.
  - destruct x as [| | |a]; try done. rewrite sub64_Fin.
    destruct (round64_nonneg (a - m)) as [->|(r & -> & _)].
    + apply Qcminus_nonneg. by apply Hle.
    + by rewrite decide_True.
    + rewrite decide_False by done. apply div64_Fin_PInf.
Qed.
End OverflowFacts.

(** X8.  A frame whose samples are finite numbers and [+Infinity] (what
    [JSON.parse] makes of [1e999]), with at least one of each, is flattened
    by [normalizeData]: the range is [+Infinity]; every infinite sample
    becomes [NaN], and a finite sample becomes 0, unless its difference to
    the minimum overflows, when it becomes [NaN] too.  In the row that
    [createGeometry] builds, a sample that became 0 is drawn at depth 0 in
    the colour of 0, one that became [NaN] at depth [NaN] in the colour of
    [getColor]'s trailing [return]. *)
Theorem overflow_flattens_row `{!THREE.ColorOps} (v : WaterfallVisualizer)
    (frame : SpectrumFrame) (samples : list num) (q : Qc) :
  waterfall frame = Some samples →
  Forall (λ x, x = PInf ∨ is_finite x) samples →
  PInf ∈ samples → Fin q ∈ samples →
  ∃ min g,
    Math_min samples = Fin min ∧ Math_max samples = PInf ∧
    createGeometry v frame = Ok g ∧
    ∀ i x, samples !! i = Some x →
      let overflows := Binary64.sub x (Fin min) = PInf in
      (x = PInf → overflows) ∧
      normalizeData samples !! i =
        Some (if decide overflows then NaN else dec 0) ∧
      ∃ p, position g !! i = Some p ∧
        p.2 = (if decide overflows then NaN else dec 0) ∧
        color g !! i =
          Some (let c := if decide overflows then getColor_fallback
                         else getColor (dec 0) in
                (THREE.r c, THREE.g c, THREE.b c)).
Proof.
  intros Hw Hall Hinf Hfin.
  destruct (normalizeData_overflow_eq samples q Hall Hinf Hfin) as (min & Hmin & Hnorm).
  exists min. unfold createGeometry. rewrite Hw, Hnorm. eexists.
  split_and!; [done | by apply foldl_max2_overflow | done |].
  intros i x Hx. cbn [position color].
  rewrite list_lookup_imap, !list_lookup_fmap, Hx. cbn [fmap option_fmap option_map].
  split_and!; [by intros -> | done |].
  eexists. split; [done|]. cbn [snd].
  destruct (decide (Binary64.sub x (Fin min) = PInf)); by split.
Qed.

Lemma overflow_flattens_row_witness :
  ∃ g, @createGeometry three_r160 (WaterfallVisualizer_new 800 600)
         (frame_of [double 1e308; double (-1e308); PInf]) = Ok g ∧
    normalizeData [double 1e308; double (-1e308); PInf] !! 0%nat = Some NaN ∧
    normalizeData [double 1e308; double (-1e308); PInf] !! 1%nat = Some (dec 0) ∧
    normalizeData [double 1e308; double (-1e308); PInf] !! 2%nat = Some NaN.
Proof.
  destruct (@overflow_flattens_row three_r160 (WaterfallVisualizer_new 800 600)
              (frame_of [double 1e308; double (-1e308); PInf])
              [double 1e308; double (-1e308); PInf]
              (Q2Qc (5010420900022432 * 2 ^ 971)))
    as (min & g & Hmin & _ & Hg & Hrow).
  - reflexivity.
  - apply Forall_cons. split; [right; by vm_compute|].
    apply Forall_cons. split; [right; by vm_compute|].
    apply Forall_cons. split; [left; reflexivity|]. apply Forall_nil_2.
  - apply list_elem_of_further, list_elem_of_further, list_elem_of_here.
  - assert (double 1e308 = Fin (Q2Qc (5010420900022432 * 2 ^ 971))) as <-
      by by_decide.
    apply list_elem_of_here.
  - assert (Fin min = double (-1e308)) as Hmin'.
    { rewrite <-Hmin. by_decide. }
    exists g. split; [exact Hg|].
    destruct (Hrow 0%nat _ eq_refl) as (_ & H0 & _).
    destruct (Hrow 1%nat _ eq_refl) as (_ & H1 & _).
    destruct (Hrow 2%nat _ eq_refl) as (_ & H2 & _).
    rewrite Hmin' in H0, H1, H2.
    rewrite decide_True in H0 by by_decide.
    rewrite decide_False in H1 by by_decide.
    rewrite decide_True in H2 by by_decide.
    split_and!; [exact H0 | exact H1 | exact H2].
Defined.

(** ** Invariants of the visualizer *)

Section ReachableFacts.
Context `{!THREE.ColorOps}.

Lemma reachable_bounded v : reachable v → length (lines v) ≤ maxLines config.
Proof.
  induction 1 as [width height|v v' Hv IH Hstep].
  - cbn. lia.
  - destruct Hstep as [v frame v' Hadd|v width height|v width height|v];
      [|done..].
    destruct (addData_spec _ _ _ (reachable_well_formed _ Hv) Hadd)
      as (g & _ & Hlines & _).
    cbn zeta in Hlines. rewrite Hlines.
    etrans; [apply length_filter|]. apply length_trimmed. cbn [length]. lia.
Qed.

Lemma reachable_fresh v id : reachable v → id ∈ lines v → id < next_id v.
Proof.
  intros Hwf%reachable_well_formed Hid.
  destruct (wf_lines _ Hwf id Hid) as (o & _ & Ho & _).
  apply (wf_fresh _ Hwf). by rewrite Ho.
Qed.
End ReachableFacts.

Section OrderFacts.

Lemma StronglySorted_sublist (R : relation nat) (l1 l2 : list nat) :
  l1 `sublist_of` l2 → StronglySorted R l2 → StronglySorted R l1.
Proof.
  induction 1 as [|x l1 l2 Hsub IH|x l1 l2 Hsub IH]; [done| |].
  - rewrite !StronglySorted_cons. intros [Hall Hs]. split; [|by apply IH].
    rewrite Forall_forall in Hall |- *. intros y Hy. apply Hall.
    by apply (elem_of_sublist _ _ _ Hy Hsub).
  - rewrite StronglySorted_cons. intros [_ Hs]. by apply IH.
Qed.

Lemma trimmed_sublist (ls : list nat) : trimmed ls `sublist_of` ls.
Proof. unfold trimmed. case_decide; [apply sublist_take|done]. Qed.

(** What [trimmed] drops is the last line of a full history. *)
Lemma trimmed_dropped (ls : list nat) (id : nat) :
  length ls ≤ S (maxLines config) → id ∈ ls → id ∉ trimmed ls →
  length ls = S (maxLines config) ∧ last ls = Some id.
Proof.
  intros Hlen Hin Hout. unfold trimmed in Hout.
  case_decide as Hfull; [|done]. split; [lia|].
  destruct ls as [|x ls _] using rev_ind; [by apply elem_of_nil in Hin|].
  rewrite last_snoc. rewrite length_app in Hout. cbn [length] in Hout.
  replace (length ls + 1 - 1) with (length ls) in Hout by lia.
  rewrite take_app_length in Hout.
  apply elem_of_app in Hin as [?|Hin]; [done|].
  by apply list_elem_of_singleton in Hin as ->.
Qed.
End OrderFacts.

(** X12.  In every state reachable from a new visualizer [this.lines] is in
    order of arrival, newest first: the identities, handed out in order of
    creation, decrease strictly along the array and are below the next one
    to hand out.  The scene holds the ambient light of [setupScene], which
    is never removed, followed by exactly these lines, oldest first; so it
    never holds more than [maxLines + 1] objects. *)
Theorem history_chronological `{!THREE.ColorOps} (v : WaterfallVisualizer) :
  reachable v →
  StronglySorted (λ newer older, older < newer) (lines v) ∧
  (∀ id, id ∈ lines v → id < next_id v) ∧
  scene_children v =
    AmbientLight 0xffffff (dec 1.0) :: (LineRef <$> reverse (lines v)) ∧
  length (scene_children v) = S (length (lines v)) ∧
  length (scene_children v) ≤ S (maxLines config).
Proof.
  intros Hreach.
  pose proof (reachable_well_formed _ Hreach) as Hwf.
  pose proof (reachable_bounded _ Hreach) as Hlen.
  assert (length (scene_children v) = S (length (lines v))) as Hscene.
  { rewrite (wf_scene _ Hwf). cbn [length].
    by rewrite length_fmap, length_reverse. }
  split_and!; [|by intros id; apply reachable_fresh|apply (wf_scene _ Hwf)|done|lia].
  clear Hwf Hlen Hscene.
  induction Hreach as [width height|v v' Hv IH Hstep]; [constructor|].
  destruct Hstep as [v frame v' Hadd|v width height|v width height|v];
    [|done..].
  destruct (addData_spec _ _ _ (reachable_well_formed _ Hv) Hadd)
    as (g & _ & Hlines & _).
  cbn zeta in Hlines. rewrite Hlines.
  eapply StronglySorted_sublist; [apply sublist_filter|].
  eapply StronglySorted_sublist; [apply trimmed_sublist|].
  apply StronglySorted_cons. split; [|done].
  apply Forall_forall. intros id Hid. by apply reachable_fresh.
Qed.

Lemma history_chronological_witness :
  ∃ v, @addData three_r160 (WaterfallVisualizer_new 800 600) frame100 = Ok v ∧
       length (scene_children v) = S (length (lines v)).
Proof.
  destruct (@addData_returns three_r160 (WaterfallVisualizer_new 800 600)
              frame100 _ eq_refl) as [v Hv].
  exists v. split; [exact Hv|].
  apply (@history_chronological three_r160).
  apply reachable_step with (WaterfallVisualizer_new 800 600).
  - apply reachable_new.
  - by apply step_addData with frame100.
Defined.

(** X13.  What one [addData] call does to the lines that were there: the
    lines left are the new one and earlier ones in their earlier order; each
    earlier line that is left has moved down by one [spacing] and kept its
    geometry and its line width; and an earlier line is removed only when it
    was the oldest of a full history, or when the move took it below
    [-spacing]. *)
Theorem addData_scrolls `{!THREE.ColorOps} (v v' : WaterfallVisualizer)
    (frame : SpectrumFrame) :
  reachable v → addData v frame = Ok v' →
  lines v' `sublist_of` next_id v :: lines v ∧
  (∀ id, id ∈ lines v → id ∈ lines v' →
     ∃ o o', objects v !! id = Some o ∧ objects v' !! id = Some o' ∧
       position_y o' = (position_y o - spacing config)%num ∧
       geometry o' = geometry o ∧ linewidth o' = linewidth o) ∧
  (∀ id, id ∈ lines v → id ∉ lines v' →
     (length (lines v) = maxLines config ∧ last (lines v) = Some id) ∨
     (∃ o, objects v !! id = Some o ∧
        (position_y o - spacing config <? - spacing config)%num = true)).
Proof.
  intros Hreach Hadd.
  pose proof (reachable_well_formed _ Hreach) as Hwf.
  pose proof (reachable_bounded _ Hreach) as Hlen.
  destruct (addData_spec _ _ _ Hwf Hadd) as (g & _ & Hspec).
  cbn zeta in Hspec. destruct Hspec as (Hlines & Hobjs & _).
  assert (∀ id, id ∈ lines v →
            objects (add_line v g) !! id = objects v !! id) as Hold.
  { intros id Hid. cbn [add_line objects].
    apply lookup_insert_ne. pose proof (reachable_fresh _ _ Hreach Hid). lia. }
  split_and!.
  - rewrite Hlines. etrans; [apply sublist_filter|apply trimmed_sublist].
  - intros id Hid Hid'.
    destruct (wf_lines _ Hwf id Hid) as (o & q & Ho & _).
    rewrite Hlines in Hid'. apply list_elem_of_filter in Hid' as [_ Hsnap].
    exists o, (moved o). specialize (Hobjs id).
    rewrite decide_True, (Hold id Hid), Ho in Hobjs by done.
    by split_and!.
  - intros id Hid Hout.
    destruct (wf_lines _ Hwf id Hid) as (o & q & Ho & _).
    destruct (decide (id ∈ trimmed (next_id v :: lines v))) as [Hsnap|Hsnap].
    + right. exists o. split; [done|].
      rewrite Hlines in Hout.
      destruct (hits_bottom (objects (add_line v g)) id) eqn:Hhit.
      * unfold hits_bottom in Hhit. by rewrite (Hold id Hid), Ho in Hhit.
      * exfalso. apply Hout, list_elem_of_filter. split; [|done].
        rewrite Hhit. intros Hf. exact Hf.
    + left.
      destruct (trimmed_dropped (next_id v :: lines v) id) as [Hfull Hlast];
        [cbn [length]; lia | by apply list_elem_of_further | done |].
      cbn [length] in Hfull. split; [lia|].
      destruct (lines v) as [|x ls]; [by apply elem_of_nil in Hid|done].
Qed.

Lemma addData_scrolls_witness :
  ∃ v', @addData three_r160 (WaterfallVisualizer_new 800 600) frame100 = Ok v' ∧
        lines v' `sublist_of` [0].
Proof.
  destruct (@addData_returns three_r160 (WaterfallVisualizer_new 800 600)
              frame100 _ eq_refl) as [v' Hv'].
  exists v'. split; [exact Hv'|].
  destruct (@addData_scrolls three_r160 (WaterfallVisualizer_new 800 600) v'
              frame100) as (Hsub & _).
  - apply reachable_new.
  - exact Hv'.
  - exact Hsub.
Defined.

(** ** addTestData *)

Section TestDataFacts.
Context `{!THREE.ColorOps}.
Variable Math_sin : num → num.
Variable Math_random : nat → num.

Lemma createGeometry_length v frame samples g :
  waterfall frame = Some samples → createGeometry v frame = Ok g →
  length (position g) = length samples.
Proof.
  intros Hw Hg. rewrite (createGeometry_position _ _ _ _ Hw Hg).
  by rewrite length_imap, length_normalizeData.
Qed.

(** The lines of the store after [addData]: the new one and the earlier
    ones, with the geometry they had. *)
Lemma addData_objects v frame v' id o' :
  well_formed v → addData v frame = Ok v' → objects v' !! id = Some o' →
  (∃ g, createGeometry v frame = Ok g ∧ geometry o' = g) ∨
  (∃ o, objects v !! id = Some o ∧ geometry o' = geometry o).
Proof.
  intros Hwf Hadd Ho'.
  destruct (addData_spec _ _ _ Hwf Hadd) as (g & Hg & Hspec).
  cbn zeta in Hspec. destruct Hspec as (_ & Hobjs & _).
  assert (∃ o1, objects (add_line v g) !! id = Some o1 ∧
                geometry o' = geometry o1) as (o1 & Ho1 & Hgeo).
  { specialize (Hobjs id). rewrite Ho' in Hobjs.
    destruct (decide (id ∈ trimmed (next_id v :: lines v))).
    - destruct (objects (add_line v g) !! id) as [o1|]; [|done].
      injection Hobjs as ->. by exists o1.
    - by exists o'. }
  cbn [add_line objects] in Ho1.
  destruct (decide (id = next_id v)) as [->|Hne].
  - rewrite lookup_insert_eq in Ho1. injection Ho1 as <-.
    left. by exists g.
  - rewrite lookup_insert_ne in Ho1 by done. right. by exists o1.
Qed.

Lemma addTestData_loop_spec n : ∀ calls testData v samples width height m,
  waterfall testData = Some samples → length samples = 100 →
  scrolled width height m v →
  (∀ id o, objects v !! id = Some o → length (position (geometry o)) = 100) →
  ∃ v', addTestData_loop Math_random n calls testData v = Ok v' ∧
    scrolled width height (m + n) v' ∧
    ∀ id o, objects v' !! id = Some o → length (position (geometry o)) = 100.
Proof.
  induction n as [|n IH]; intros calls testData v samples width height m
    Hw Hlen Hsc Hrows.
  { exists v. rewrite Nat.add_0_r. by split_and!. }
  cbn [addTestData_loop].
  destruct (addData_returns v testData samples Hw) as [v1 Hv1].
  rewrite Hv1. cbn [mbind result_bind]. rewrite Hw.
  pose proof (scrolled_addData _ _ _ _ _ _ Hsc Hv1) as Hsc1.
  assert (∀ id o, objects v1 !! id = Some o →
            length (position (geometry o)) = 100) as Hrows1.
  { intros id o' Ho'.
    destruct (addData_objects _ _ _ _ _ (sc_well_formed _ _ _ _ Hsc) Hv1 Ho')
      as [(g & Hg & ->)|(o & Ho & ->)].
    - by rewrite (createGeometry_length _ _ _ _ Hw Hg).
    - by apply (Hrows id). }
  destruct (IH (calls + length samples)
              {| freqs := freqs testData; power := power testData;
                 waterfall := Some (jitter Math_random calls samples) |}
              v1 (jitter Math_random calls samples) width height (S m))
    as (v' & Hv' & Hsc' & Hrows').
  - reflexivity.
  - unfold jitter. by rewrite length_imap.
  - exact Hsc1.
  - exact Hrows1.
  - exists v'. rewrite Nat.add_succ_r. by split_and!.
Qed.
End TestDataFacts.

(** X14.  [addTestData] on a new visualizer, whatever [Math.sin] and
    [Math.random] return: none of its [maxLines] calls of [addData] throws,
    and they leave the newest [min(maxLines, height + 1)] lines of the
    [maxLines] that were created, each with 100 vertices, the line of
    identity [id] at [position.y = height - (maxLines - id) * spacing]. *)
Theorem addTestData_fills `{!THREE.ColorOps} (Math_sin : num → num)
    (Math_random : nat → num) (width height : nat) :
  ∃ v, addTestData Math_sin Math_random (WaterfallVisualizer_new width height)
         = Ok v ∧
    next_id v = maxLines config ∧
    length (lines v) = min (maxLines config) (S height) ∧
    head (lines v) = Some (maxLines config - 1) ∧
    ∀ id, id ∈ lines v →
      ∃ o, objects v !! id = Some o ∧
        length (position (geometry o)) = 100 ∧
        position_y o =
          of_Z (Z.of_nat height - (Z.of_nat (maxLines config) - Z.of_nat id)).
Proof.
  unfold addTestData.
  destruct (addTestData_loop_spec Math_random (maxLines config) 100
              (testData_new Math_sin Math_random 0)
              (WaterfallVisualizer_new width height)
              (default [] (waterfall (testData_new Math_sin Math_random 0)))
              width height 0)
    as (v & Hv & Hsc & Hrows).
  - reflexivity.
  - etrans; [apply length_fmap | apply length_seq].
  - apply scrolled_new.
  - intros id o Ho. cbn [WaterfallVisualizer_new objects] in Ho.
    by rewrite lookup_empty in Ho.
  - exists v. rewrite Nat.add_0_l in Hsc.
    pose proof (scrolled_length _ _ _ _ Hsc) as Hlen.
    split_and!.
    + exact Hv.
    + exact (sc_next_id _ _ _ _ Hsc).
    + rewrite Hlen. lia.
    + rewrite (sc_lines _ _ _ _ Hsc). apply head_countdown.
      assert (0 < maxLines config) by (cbn [config maxLines]; lia). lia.
    + intros id Hid.
      destruct (sc_position _ _ _ _ Hsc id Hid) as (o & Ho & Hy).
      exists o. split_and!; [exact Ho | exact (Hrows id o Ho) | exact Hy].
Qed.

(** ** The page *)

Section PageFacts.
Context `{!THREE.ColorOps}.
Variable JSON_parse : string → option JSValue.
Variable parseFloat : string → num.
Variable parseInt : string → num.

Lemma addData_next_id v frame v' :
  addData v frame = Ok v' → next_id v' = S (next_id v).
Proof.
  unfold addData. destruct (createGeometry v frame) as [g|e]; [|done].
  cbn [mbind result_bind]. intros [= <-].
  destruct (foldl_advance_container (lines (remove_oldest (add_line v g)))
              (remove_oldest (add_line v g))) as (_ & _ & ->).
  by destruct (remove_oldest_objects (add_line v g)) as (_ & _ & _ & ->).
Qed.

(** The socket handler never lets an exception escape.  It leaves the
    globals as they are but for the console, or it has added the frame of
    the payload to the visualizer. *)
Lemma on_spectrum_data_cases (a : App) (data : Payload) :
  ∃ a', on_spectrum_data JSON_parse a data = Ok a' ∧
    isStreaming a' = isStreaming a ∧
    ((visualizer a' = visualizer a ∧ lineChart a' = lineChart a ∧
      (isStreaming a = true → accepts JSON_parse data = false)) ∨
     (isStreaming a = true ∧ accepts JSON_parse data = true ∧
      ∃ frame, addData (visualizer a) frame = Ok (visualizer a'))).
Proof.
  unfold on_spectrum_data, accepts.
  destruct (isStreaming a) eqn:Hs; cbn [negb].
  2:{ exists a. split_and!; [done | done |]. left. by split_and!. }
  destruct (parsedData ← parse_payload JSON_parse data; validate parsedData)
    as [raw|e] eqn:Hraw.
  2:{ unfold handle_frame. rewrite Hraw. eexists.
      split_and!; [done | done |]. left. by split_and!. }
  pose proof (handle_frame_checked JSON_parse a data raw Hraw) as Hhandle.
  destruct (raw_waterfall raw) as [|ws|].
  - destruct Hhandle as [error ->]. eexists.
    split_and!; [done | done |]. left. by split_and!.
  - destruct Hhandle as (v' & Hadd & ->).
    destruct (updateLineChart (lineChart a) raw); eexists;
      (split_and!; [done | done |]); right; (split_and!; [done | done |]);
      by exists (arrays_of raw).
  - destruct Hhandle as [error ->]. eexists.
    split_and!; [done | done |]. left. by split_and!.
Qed.

Lemma dispatch_cases (p : Page) (e : Event) :
  ∃ p', dispatch JSON_parse parseFloat parseInt p e = Ok p' ∧
    (visualizer (globals p') = visualizer (globals p) ∨
     step (visualizer (globals p)) (visualizer (globals p'))).
Proof.
  destruct e as [| |data|width height|width height| |c s f|outcome| |outcome];
    cbn [dispatch]; try (eexists; split; [done|]; by left).
  - destruct (on_spectrum_data_cases (globals p) data)
      as (a' & -> & _ & [(Hv & _)|(_ & _ & frame & Hadd)]);
      cbn [mbind result_bind]; eexists; (split; [done|]); cbn [set_globals globals].
    + by left.
    + right. by apply step_addData with frame.
  - eexists. split; [done|]. right.
    cbn [set_globals set_visualizer globals visualizer]. apply step_resized.
  - eexists. split; [done|]. right.
    cbn [set_globals set_visualizer globals visualizer]. apply step_container.
  - eexists. split; [done|]. right.
    cbn [set_globals set_visualizer globals visualizer]. apply step_onResize.
  - eexists. split; [done|]. left. unfold start_continued.
    by destruct (check_response "Start failed" outcome).
  - eexists. split; [done|]. left. unfold stop_continued.
    by destruct (check_response "Stop failed" outcome).
Qed.

Lemma page_run_reachable (events : list Event) : ∀ p,
  reachable (visualizer (globals p)) →
  ∃ p', page_run JSON_parse parseFloat parseInt p events = Ok p' ∧
    reachable (visualizer (globals p')).
Proof.
  induction events as [|e events IH]; intros p Hp; [by exists p|].
  cbn [page_run].
  destruct (dispatch_cases p e) as (p1 & -> & Hstep). cbn [mbind result_bind].
  apply IH. destruct Hstep as [->|Hstep]; [done|].
  by apply reachable_step with (visualizer (globals p)).
Qed.

(** While streaming is off only a start request that is answered [ok]
    turns it on, and the other events leave what is drawn as it is. *)
Lemma dispatch_idle (p : Page) (e : Event) :
  isStreaming (globals p) = false → e ≠ start_settled (fetch_response true) →
  ∃ p', dispatch JSON_parse parseFloat parseInt p e = Ok p' ∧
    isStreaming (globals p') = false ∧
    lines (visualizer (globals p')) = lines (visualizer (globals p)) ∧
    objects (visualizer (globals p')) = objects (visualizer (globals p)) ∧
    scene_children (visualizer (globals p'))
      = scene_children (visualizer (globals p)) ∧
    lineChart (globals p') = lineChart (globals p).
Proof.
  intros Hs He.
  destruct e as [| |data|width height|width height| |c s f|outcome| |outcome];
    cbn [dispatch]; try (eexists; split; [done|]; by split_and!).
  - unfold on_spectrum_data. rewrite Hs. cbn [negb mbind result_bind].
    eexists. split; [done|]. by split_and!.
  - eexists. split; [done|]. unfold start_continued.
    destruct outcome as [error|[|]]; [|done|]; by split_and!.
  - eexists. split; [done|]. unfold stop_continued.
    destruct outcome as [error|[|]]; by split_and!.
Qed.

Lemma dispatch_streaming (p : Page) (e : Event) :
  isStreaming (globals p) = true → e ≠ stop_settled (fetch_response true) →
  ∃ p', dispatch JSON_parse parseFloat parseInt p e = Ok p' ∧
    isStreaming (globals p') = true ∧
    next_id (visualizer (globals p'))
      = next_id (visualizer (globals p)) + frames_accepted JSON_parse [e].
Proof.
  intros Hs He.
  destruct e as [| |data|width height|width height| |c s f|outcome| |outcome];
    cbn [dispatch frames_accepted];
    try (eexists; split; [done|]; split; [done|]; cbn; lia).
  - destruct (on_spectrum_data_cases (globals p) data)
      as (a' & -> & Hs' & [(Hv & _ & Hacc)|(_ & Hacc & frame & Hadd)]);
      cbn [mbind result_bind]; eexists; (split; [done|]);
      cbn [set_globals globals]; (split; [by rewrite Hs'|]).
    + rewrite Hv, (Hacc Hs). lia.
    + rewrite Hacc, (addData_next_id _ _ _ Hadd). lia.
  - eexists. split; [done|]. unfold start_continued.
    destruct outcome as [error|[|]]; (split; [done|cbn; lia]).
  - eexists. split; [done|]. unfold stop_continued.
    destruct outcome as [error|[|]]; [|done|]; (split; [done|cbn; lia]).
Qed.

Lemma frames_accepted_cons (e : Event) (events : list Event) :
  frames_accepted JSON_parse (e :: events)
    = frames_accepted JSON_parse [e] + frames_accepted JSON_parse events.
Proof. destruct e; cbn [frames_accepted]; lia. Qed.
End PageFacts.

(** X15.  From [initialize] on, whatever the socket, the buttons, the
    [fetch] calls and the container do and in whatever order, and whatever
    the payloads are, no exception escapes a handler, the visualizer is in
    a state that [addData] calls and resizes alone lead to, and
    [this.lines] holds at most [maxLines] lines. *)
Theorem page_run_safe `{!THREE.ColorOps} (JSON_parse : string → option JSValue)
    (parseFloat parseInt : string → num) (width height : nat)
    (status : string) (events : list Event) :
  ∃ p, page_run JSON_parse parseFloat parseInt
         (initialize width height status) events = Ok p ∧
    reachable (visualizer (globals p)) ∧
    length (lines (visualizer (globals p))) ≤ maxLines config.
Proof.
  destruct (page_run_reachable JSON_parse parseFloat parseInt events
              (initialize width height status)) as (p & Hp & Hreach).
  { apply reachable_new. }
  exists p. split_and!; [exact Hp | exact Hreach |].
  by apply reachable_bounded.
Qed.

(** X16.  While [isStreaming] is false nothing is drawn: as long as no
    start request is answered [ok], whatever else happens (frames on the
    socket, clicks, failed requests, a successful stop, resizes) leaves
    [this.lines], the lines themselves, the scene and the line chart as they
    are, and [isStreaming] false.  From [initialize] on this is the empty
    waterfall and the empty chart. *)
Theorem idle_page_draws_nothing `{!THREE.ColorOps}
    (JSON_parse : string → option JSValue) (parseFloat parseInt : string → num)
    (p : Page) (events : list Event) :
  isStreaming (globals p) = false →
  Forall (λ e, e ≠ start_settled (fetch_response true)) events →
  ∃ p', page_run JSON_parse parseFloat parseInt p events = Ok p' ∧
    isStreaming (globals p') = false ∧
    lines (visualizer (globals p')) = lines (visualizer (globals p)) ∧
    objects (visualizer (globals p')) = objects (visualizer (globals p)) ∧
    scene_children (visualizer (globals p'))
      = scene_children (visualizer (globals p)) ∧
    lineChart (globals p') = lineChart (globals p).
Proof.
  revert p. induction events as [|e events IH]; intros p Hs Hall.
  { exists p. by split_and!. }
  apply Forall_cons in Hall as [He Hall]. cbn [page_run].
  destruct (dispatch_idle JSON_parse parseFloat parseInt p e Hs He)
    as (p1 & -> & Hs1 & Hl1 & Ho1 & Hc1 & Hch1).
  cbn [mbind result_bind].
  destruct (IH p1 Hs1 Hall) as (p' & Hp' & Hs' & Hl' & Ho' & Hc' & Hch').
  exists p'. rewrite Hl', Ho', Hc', Hch'. by split_and!.
Qed.

Lemma idle_page_draws_nothing_witness :
  ∃ p', @page_run three_r160 JSON_parse_nothing parse_NaN parse_NaN
          (initialize 800 600 "status-dot")
          [ socket_connect;
            startBtn_click "100" "2.4" "1024";
            start_settled (fetch_response false);
            socket_spectrum_data (PValue (JObject frame100));
            stop_settled (fetch_response true) ] = Ok p' ∧
    lines (visualizer (globals p')) = [] ∧
    lineChart (globals p') = lineChart_new.
Proof.
  destruct (@idle_page_draws_nothing three_r160 JSON_parse_nothing
              parse_NaN parse_NaN (initialize 800 600 "status-dot")
              [ socket_connect;
                startBtn_click "100" "2.4" "1024";
                start_settled (fetch_response false);
                socket_spectrum_data (PValue (JObject frame100));
                stop_settled (fetch_response true) ])
    as (p' & Hp' & _ & Hl & _ & _ & Hch).
  - reflexivity.
  - repeat constructor; discriminate.
  - exists p'. split_and!; [exact Hp' | exact Hl | exact Hch].
Defined.

(** X17.  While [isStreaming] is true it stays true until a stop request is
    answered [ok] (a stop that fails only logs and alerts), and in the
    meantime each [spectrum_data] event whose payload passes the check of
    the handler ([freqs] and [waterfall] truthy) with an array for
    [waterfall] creates exactly one line, also when [updateLineChart]
    throws afterwards, and no other event creates one. *)
Theorem streaming_page_draws `{!THREE.ColorOps}
    (JSON_parse : string → option JSValue) (parseFloat parseInt : string → num)
    (p : Page) (events : list Event) :
  isStreaming (globals p) = true →
  Forall (λ e, e ≠ stop_settled (fetch_response true)) events →
  ∃ p', page_run JSON_parse parseFloat parseInt p events = Ok p' ∧
    isStreaming (globals p') = true ∧
    next_id (visualizer (globals p'))
      = next_id (visualizer (globals p)) + frames_accepted JSON_parse events.
Proof.
  revert p. induction events as [|e events IH]; intros p Hs Hall.
  { exists p. cbn [frames_accepted]. split_and!; [done | done | lia]. }
  apply Forall_cons in Hall as [He Hall]. cbn [page_run].
  destruct (dispatch_streaming JSON_parse parseFloat parseInt p e Hs He)
    as (p1 & -> & Hs1 & Hn1).
  cbn [mbind result_bind].
  destruct (IH p1 Hs1 Hall) as (p' & Hp' & Hs' & Hn').
  exists p'. rewrite (frames_accepted_cons JSON_parse e events).
  split_and!; [done | done | lia].
Qed.

Lemma streaming_page_draws_witness :
  ∃ p', @page_run three_r160 JSON_parse_nothing parse_NaN parse_NaN
          (initialize 800 600 "status-dot")
          [ start_settled (fetch_response true);
            socket_spectrum_data (PValue (JObject frame100));
            stop_settled (fetch_response false);
            socket_spectrum_data (PString "frame");
            socket_spectrum_data (PValue (JUntyped frame_with_scalar_waterfall));
            socket_spectrum_data (PValue (JUntyped frame_with_scalar_freqs)) ]
      = Ok p' ∧
    isStreaming (globals p') = true ∧
    next_id (visualizer (globals p')) = 2.
Proof.
  destruct (@streaming_page_draws three_r160 JSON_parse_nothing
              parse_NaN parse_NaN
              (set_globals (start_clicked true) (initialize 800 600 "status-dot"))
              [ socket_spectrum_data (PValue (JObject frame100));
                stop_settled (fetch_response false);
                socket_spectrum_data (PString "frame");
                socket_spectrum_data (PValue (JUntyped frame_with_scalar_waterfall));
                socket_spectrum_data (PValue (JUntyped frame_with_scalar_freqs)) ])
    as (p' & Hp' & Hs & Hn).
  - reflexivity.
  - repeat constructor; discriminate.
  - exists p'. split_and!; [exact Hp' | exact Hs | exact Hn].
Defined.
